(** * GitHub-Kanban: the polling / caching / feed pipeline

    A shallow embedding of [src/github/client.ts], [src/services/feed.ts],
    [src/services/scheduler.ts], the feed route of [src/web/routes.ts], the
    configuration loader and the audit cycle, together with the properties
    of the design document that concern them.

    Conventions of the embedding.
    - Values that the code types as [any] (event payloads, API bodies) are
      JSON values, [JsVal], extended with [undefined]. An exception is
      [None] in the [option] monad: a property read of [null] or
      [undefined], a call of something that is not a function, and the
      conversion to a string of an object that has a [toString] key of its
      own (from JSON such a key never holds a function).
    - Numbers are integers ([Z]): every number the modelled code creates
      (0, array lengths, parsed header counts, time values) is one. How a
      number is printed is left to the host ([Number_toString]).
    - Property reads are by the names that the code writes out; none of
      them is a member of a built-in prototype. The one read by a computed
      name, [ICONS[type]], also finds what [Object.prototype] has
      ([Object_prototype]).
    - Host functions whose definition is outside the repository (number
      printing, the members of [Object.prototype], [Date] parsing,
      [parseInt], [trim], [Number]) are section variables.
    - An exception that leaves a timer callback, or rejects a promise that
      nobody awaits, is the host's to report; the model gives the state in
      which it is raised.
    - [Array.prototype.sort] is stable. Where the comparator is consistent
      the language fixes the result, which insertion computes; where it is
      not, the order is the engine's own and only what every engine does
      (the elements kept, an exception of the comparator passed on) is
      meant by the model. *)

From Stdlib Require Import ZArith Lia Sorting.Sorted Permutation.
From stdpp Require Import base option list strings gmap pretty sorting.

Open Scope string_scope.
Open Scope Z_scope.

(* ===================================================================== *)
(** ** JavaScript values *)
(* ===================================================================== *)

#[warnings="-register-all"]
Inductive JsVal : Type :=
| JUndef
| JNull
| JBool (b : bool)
| JNum (n : Z)
| JStr (s : string)
| JArr (vs : list JsVal)
| JObj (fields : list (string * JsVal)).

(** Own data property of a parsed object. *)
Fixpoint assoc {A : Type} (k : string) (fs : list (string * A)) : option A :=
  match fs with
  | [] => None
  | (k', v) :: fs' => if String.eqb k k' then Some v else assoc k fs'
  end.

(** [v.k] for the property names the code reads; none of them is an array
    index, [length], or a member of a built-in prototype, so on arrays and
    primitives the read gives [undefined]. *)
Definition get (v : JsVal) (k : string) : option JsVal :=
  match v with
  | JUndef | JNull => None
  | JObj fs => Some (default JUndef (assoc k fs))
  | _ => Some JUndef
  end.

(** [v?.k] *)
Definition get_opt (v : JsVal) (k : string) : JsVal :=
  default JUndef (get v k).

(** [a ?? b] *)
Definition nullish (a b : JsVal) : JsVal :=
  match a with
  | JUndef | JNull => b
  | _ => a
  end.

Definition truthy (v : JsVal) : bool :=
  match v with
  | JUndef | JNull => false
  | JBool b => b
  | JNum n => negb (n =? 0)
  | JStr s => negb (String.eqb s "")
  | JArr _ | JObj _ => true
  end.

Fixpoint join (sep : string) (l : list string) : string :=
  match l with
  | [] => ""
  | [s] => s
  | s :: l' => s ++ sep ++ join sep l'
  end.

(* ===================================================================== *)
(** ** String helpers *)
(* ===================================================================== *)

Fixpoint strip_prefix (p s : string) : option string :=
  match p with
  | EmptyString => Some s
  | String c p' =>
      match s with
      | String d s' => if Ascii.eqb c d then strip_prefix p' s' else None
      | EmptyString => None
      end
  end.

(** [s.replace(pat, rep)] with a string pattern: the first occurrence only. *)
Fixpoint replace_first (pat rep s : string) : string :=
  match strip_prefix pat s with
  | Some rest => rep ++ rest
  | None =>
      match s with
      | EmptyString => EmptyString
      | String c s' => String c (replace_first pat rep s')
      end
  end.

Definition newline : Ascii.ascii := Ascii.ascii_of_nat 10.

(** [s.split("\n")[0]] *)
Fixpoint first_line (s : string) : string :=
  match s with
  | EmptyString => EmptyString
  | String c s' => if Ascii.eqb c newline then EmptyString else String c (first_line s')
  end.

(** [s] has the character [c]. *)
Fixpoint has_char (c : Ascii.ascii) (s : string) : bool :=
  match s with
  | EmptyString => false
  | String d s' => Ascii.eqb d c || has_char c s'
  end.

Definition nonempty (s : string) : bool := negb (String.eqb s "").

Section Host.

(** The host: [Number.prototype.toString] on the integers; the names for
    which [Object.prototype] has a member; [Date.parse] on strings, [None]
    for [NaN]; [parseInt(s, 10)]; [String.prototype.trim]; and [Number(s)]
    where it is finite. *)
Variable Number_toString : Z → string.
Variable Object_prototype : string → bool.
Variable Date_parse : string → option Z.
Variable parseInt10 : string → option Z.
Variable trim : string → string.
Variable Number_ : string → option Z.

(** [ToString], as applied by template literals, property keys and
    [Array.prototype.join]. An object is printed by the [toString] that it
    finds: [Object.prototype.toString], unless it has a [toString] key of
    its own, whose value no call can use, and then the conversion throws
    ([None]). *)
Fixpoint toStr (v : JsVal) : option string :=
  match v with
  | JUndef => Some "undefined"
  | JNull => Some "null"
  | JBool true => Some "true"
  | JBool false => Some "false"
  | JNum n => Some (Number_toString n)
  | JStr s => Some s
  | JArr vs =>
      parts ← mapM (fun e => match e with
                             | JUndef | JNull => Some ""
                             | _ => toStr e
                             end) vs;
      Some (join "," parts)
  | JObj fs =>
      match assoc "toString" fs with
      | Some _ => None
      | None => Some "[object Object]"
      end
  end.

(* ===================================================================== *)
(** ** Data model ([src/types.ts]) *)
(* ===================================================================== *)

Record ConfigRepo := { id : string; name : string }.

Record AppConfig := {
  repos : list ConfigRepo;
  githubToken : option string;
  globalRefreshSeconds : Z;
  repoUpdateIntervalSeconds : Z;
  feedLimit : Z;
}.

(** [NaN] is [None]. *)
Record RateLimitInfo := {
  limit : option Z;
  remaining : option Z;
  reset : option Z;
}.

Record RepoInfo := {
  ri_repo : string;
  ri_displayName : option string;
  html_url : JsVal;
  description : JsVal;
  stargazers_count : JsVal;
  forks_count : JsVal;
  open_issues_count : JsVal;
  pushed_at : JsVal;
  default_branch : JsVal;
}.

Record CommitStats := {
  cs_sha : JsVal;
  additions : JsVal;
  deletions : JsVal;
  filesChanged : JsVal;
}.

(** What [ICONS[type] ?? ICONS.default] gives: a string of the table, or,
    for a name that the table lacks and [Object.prototype] has, the
    inherited member, which is no string. *)
Inductive Icon :=
| IconText (s : string)
| IconInherited (k : string).

(** An absent optional property reads as [undefined] ([JUndef], [None]). *)
Record FeedItem := {
  type : JsVal;
  icon : Icon;
  when : JsVal;
  repo : string;
  actor : JsVal;
  title : JsVal;
  url : JsVal;
  extra : string;
  sha : JsVal;
  stats : option CommitStats;
  displayName : option string;
}.

Record QualityReport := {
  qr_repo : string;
  qr_displayName : string;
  score : option Z;
  markdown : string;
  updatedAt : string;
  localPath : string;
}.

(** A cached event is [{ ...ev, __repo: repoId }]: the upstream record
    [raw] with the owning repository attached. *)
Record Event := { __repo : string; raw : JsVal }.

(** [ev.k] for [k] other than [__repo]: the spread copies the own properties
    of an object; the names read are no index of a string or an array. *)
Definition ev_get (ev : Event) (k : string) : JsVal :=
  match raw ev with
  | JObj fs => default JUndef (assoc k fs)
  | _ => JUndef
  end.

(** A JavaScript [Map] whose iteration order matters: entries in insertion
    order; [set] on a present key keeps its place. *)
Fixpoint omap_set {A : Type} (k : string) (v : A) (m : list (string * A)) : list (string * A) :=
  match m with
  | [] => [(k, v)]
  | (k', v') :: m' =>
      if String.eqb k k' then (k, v) :: m' else (k', v') :: omap_set k v m'
  end.

Definition omap_has {A : Type} (k : string) (m : list (string * A)) : bool :=
  match assoc k m with Some _ => true | None => false end.

Record DataStore := {
  repoInfos : gmap string RepoInfo;
  repoEvents : list (string * list Event);
  feedItems : list FeedItem;
  commitStats : gmap string CommitStats;
  qualityReports : gmap string QualityReport;
}.

(** [new MemoryStore()] *)
Definition MemoryStore : DataStore :=
  {| repoInfos := ∅; repoEvents := []; feedItems := [];
     commitStats := ∅; qualityReports := ∅ |}.

(* ===================================================================== *)
(** ** Feed builder ([src/services/feed.ts]) *)
(* ===================================================================== *)

(** The keys that the table has itself. *)
Definition ICONS : list (string * string) :=
  [ ("PushEvent", "⬆️"); ("PullRequestEvent", "🔀"); ("IssuesEvent", "❗");
    ("IssueCommentEvent", "💬"); ("CreateEvent", "🌱"); ("DeleteEvent", "🗑️");
    ("ReleaseEvent", "🏷️"); ("ForkEvent", "🍴"); ("WatchEvent", "⭐");
    ("CommitCommentEvent", "📝"); ("MemberEvent", "👥"); ("public", "📣");
    ("default", "📌"); ("Commit", "📝") ].

(** [ICONS[type] ?? ICONS.default]: the key is [type] converted to a
    string, which can throw. *)
Definition iconOf (type : JsVal) : option Icon :=
  k ← toStr type;
  Some (match assoc k ICONS with
        | Some i => IconText i
        | None => if Object_prototype k then IconInherited k else IconText "📌"
        end).

Definition is_str (v : JsVal) (s : string) : bool :=
  match v with
  | JStr s' => String.eqb s' s
  | _ => false
  end.

(** The callback of [p.commits.map] (lines 29-39). *)
Definition commitItem (created : JsVal) (repo : string) (actor : JsVal)
    (urlBase branch : string) (commit : JsVal) : option FeedItem :=
  message ← get commit "message";
  line ← match message with
          | JStr m => Some (first_line m)
          | _ => None
          end;
  csha ← get commit "sha";
  shaStr ← toStr csha;
  author ← get commit "author";
  by_ ← toStr (nullish (nullish (get_opt author "name") actor) (JStr ""));
  Some {| type := JStr "Commit";
          icon := IconText "📝";
          when := created;
          repo := repo;
          actor := actor;
          title := JStr ("Commit to " ++ branch ++ ": " ++ line);
          url := JStr (urlBase ++ "/commit/" ++ shaStr);
          sha := csha;
          extra := "by " ++ by_;
          stats := None;
          displayName := None |}.

(** The body of the [try] block; [None] when it throws. *)
Definition feedItemsOrThrow (ev : Event) : option (list FeedItem) :=
  let type := nullish (ev_get ev "type") (JStr "default") in
  let repo := __repo ev in
  let actor := nullish (get_opt (ev_get ev "actor") "display_login")
                       (get_opt (ev_get ev "actor") "login") in
  let urlBase := "https://github.com/" ++ repo in
  let p := nullish (ev_get ev "payload") (JObj []) in
  if is_str type "PushEvent" && truthy (get_opt p "commits") then
    branch ← match nullish (get_opt p "ref") (JStr "") with
              | JStr r => Some (replace_first "refs/heads/" "" r)
              | _ => None
              end;
    match get_opt p "commits" with
    | JArr commits =>
        mapM (commitItem (ev_get ev "created_at") repo actor urlBase branch) commits
    | _ => None
    end
  else
    '(title, url, extra) ←
      (if is_str type "PullRequestEvent" then
         let pr := nullish (get_opt p "pull_request") (JObj []) in
         action ← toStr (get_opt p "action");
         number ← toStr (get_opt pr "number");
         prTitle ← toStr (nullish (get_opt pr "title") (JStr ""));
         Some (JStr ("PR " ++ action ++ " #" ++ number ++ ": " ++ prTitle),
               nullish (get_opt pr "html_url") (JStr urlBase),
               if is_str (get_opt p "action") "closed" && truthy (get_opt pr "merged")
               then "已合并" else "")
       else if is_str type "IssuesEvent" then
         let iss := nullish (get_opt p "issue") (JObj []) in
         action ← toStr (get_opt p "action");
         number ← toStr (get_opt iss "number");
         issTitle ← toStr (nullish (get_opt iss "title") (JStr ""));
         Some (JStr ("Issue " ++ action ++ " #" ++ number ++ ": " ++ issTitle),
               nullish (get_opt iss "html_url") (JStr urlBase), "")
       else if is_str type "IssueCommentEvent" then
         let iss := nullish (get_opt p "issue") (JObj []) in
         number ← toStr (get_opt iss "number");
         issTitle ← toStr (nullish (get_opt iss "title") (JStr ""));
         Some (JStr ("Issue 评论 #" ++ number ++ ": " ++ issTitle),
               nullish (nullish (get_opt (get_opt p "comment") "html_url")
                                (get_opt iss "html_url"))
                       (JStr urlBase), "")
       else if is_str type "ReleaseEvent" then
         let rel := nullish (get_opt p "release") (JObj []) in
         action ← toStr (get_opt p "action");
         tag ← toStr (nullish (get_opt rel "tag_name") (JStr ""));
         Some (JStr ("发布 " ++ action ++ ": " ++ tag),
               nullish (get_opt rel "html_url") (JStr urlBase), "")
       else if is_str type "CreateEvent" then
         refType ← toStr (get_opt p "ref_type");
         ref ← toStr (get_opt p "ref");
         Some (JStr ("创建 " ++ refType ++ ": " ++ ref), JStr urlBase, "")
       else if is_str type "DeleteEvent" then
         refType ← toStr (get_opt p "ref_type");
         ref ← toStr (get_opt p "ref");
         Some (JStr ("删除 " ++ refType ++ ": " ++ ref), JStr urlBase, "")
       else if is_str type "ForkEvent" then
         Some (JStr "Fork 了仓库",
               nullish (get_opt (get_opt p "forkee") "html_url") (JStr urlBase), "")
       else if is_str type "WatchEvent" then
         Some (JStr "Star 了仓库", JStr urlBase, "")
       else Some (type, JStr urlBase, ""));
    icon ← iconOf type;
    Some [ {| type := type;
              icon := icon;
              when := ev_get ev "created_at";
              repo := repo;
              actor := actor;
              title := title;
              url := url;
              extra := extra;
              sha := JUndef;
              stats := None;
              displayName := None |} ].

(** [catch (e)]: the handler logs a line that names the type, and the
    event yields no item. The log line converts the type to a string, so
    the handler itself throws ([None]) where that conversion does. *)
Definition eventToFeedItems (ev : Event) : option (list FeedItem) :=
  match feedItemsOrThrow ev with
  | Some items => Some items
  | None =>
      _ ← toStr (nullish (ev_get ev "type") (JStr "default"));
      Some []
  end.

(** [Array.prototype.slice(0, e)] for an integer [e]: a negative end counts
    from the end of the array. *)
Definition slice0 {A : Type} (l : list A) (e : Z) : list A :=
  let len := Z.of_nat (length l) in
  let final := if e <? 0 then Z.max (len + e) 0 else Z.min e len in
  take (Z.to_nat final) l.

(** [Array.prototype.sort(cmp)] on an array of two or more elements, none
    [undefined]: a stable sort (ECMAScript 2019). The comparator gives a
    number or [NaN] (inner [None], which counts as [+0]), or throws (outer
    [None]), and the sort passes the exception on; every element takes
    part in a comparison. With a consistent comparator the result is the
    one stable ordering, which insertion computes. *)
Definition positive (d : option Z) : bool :=
  match d with
  | Some d => 0 <? d
  | None => false
  end.

Fixpoint sort_insert {A : Type} (cmp : A → A → option (option Z)) (x : A) (l : list A)
    : option (list A) :=
  match l with
  | [] => Some [x]
  | y :: l' =>
      d ← cmp x y;
      if positive d then r ← sort_insert cmp x l'; Some (y :: r) else Some (x :: l)
  end.

Definition js_sort {A : Type} (cmp : A → A → option (option Z)) (l : list A)
    : option (list A) :=
  foldr (fun x acc => r ← acc; sort_insert cmp x r) (Some []) l.

(** [{ ...item, stats: cached }] *)
Definition set_stats (item : FeedItem) (cached : CommitStats) : FeedItem :=
  {| type := type item; icon := icon item; when := when item; repo := repo item;
     actor := actor item; title := title item; url := url item; extra := extra item;
     sha := sha item; stats := Some cached; displayName := displayName item |}.

(** [{ ...item, displayName: n }] *)
Definition set_displayName (item : FeedItem) (n : string) : FeedItem :=
  {| type := type item; icon := icon item; when := when item; repo := repo item;
     actor := actor item; title := title item; url := url item; extra := extra item;
     sha := sha item; stats := stats item; displayName := Some n |}.

(** [store.feedItems = items] *)
Definition set_feedItems (store : DataStore) (items : list FeedItem) : DataStore :=
  {| repoInfos := repoInfos store; repoEvents := repoEvents store;
     feedItems := items;
     commitStats := commitStats store; qualityReports := qualityReports store |}.

(** The closure [withStats] of [rebuildGlobalFeed] (lines 96-103); the key
    is a template literal over the item's [sha]. *)
Definition withStats (store : DataStore) (item : FeedItem) : option FeedItem :=
  if is_str (type item) "Commit" && truthy (sha item) then
    shaStr ← toStr (sha item);
    Some (match commitStats store !! (repo item ++ "@" ++ shaStr) with
          | Some cached => set_stats item cached
          | None => item
          end)
  else Some item.

(** [nameMap], filled by [for (const r of cfg.repos) nameMap.set(r.id, r.name)]. *)
Definition nameMap (cfg : AppConfig) : gmap string string :=
  foldl (fun m r => <[id r := name r]> m) ∅ (repos cfg).

(** [nameMap.get(r) || r] *)
Definition displayNameOf (cfg : AppConfig) (r : string) : string :=
  match nameMap cfg !! r with
  | Some n => if String.eqb n "" then r else n
  | None => r
  end.

(** [Array.from(store.repoEvents.values()).flat()] *)
Definition allEvents (store : DataStore) : list Event :=
  concat (List.map snd (repoEvents store)).

(** The callback of [.map] on line 107. *)
Definition labelled (cfg : AppConfig) (store : DataStore) (it : FeedItem)
    : option FeedItem :=
  it' ← withStats store it;
  Some (set_displayName it' (displayNameOf cfg (repo it))).

(** The feed's candidates, before sorting and truncation (lines 105-107):
    [flatMap] runs over all the events first, then [map] over the items. *)
Definition candidates (cfg : AppConfig) (store : DataStore) : option (list FeedItem) :=
  items ← mapM eventToFeedItems (allEvents store);
  mapM (labelled cfg store) (concat items).

Definition time_clip (t : Z) : option Z :=
  if Z.abs t <=? 8640000000000000 then Some t else None.

(** [new Date(v).getTime()]: [NaN] is the inner [None]; an array or an
    object is first converted to a string, which can throw. *)
Definition Date_getTime (v : JsVal) : option (option Z) :=
  match v with
  | JUndef => Some None
  | JNull => Some (Some 0)
  | JBool b => Some (Some (if b then 1 else 0))
  | JNum n => Some (time_clip n)
  | JStr s => Some (Date_parse s)
  | JArr _ | JObj _ => s ← toStr v; Some (Date_parse s)
  end.

(** [b - a] on numbers that may be [NaN]. *)
Definition num_sub (b a : option Z) : option Z :=
  match b, a with
  | Some tb, Some ta => Some (tb - ta)
  | _, _ => None
  end.

Definition byDescTime (a b : FeedItem) : option (option Z) :=
  tb ← Date_getTime (when b);
  ta ← Date_getTime (when a);
  Some (num_sub tb ta).

(** [flat], [flatMap] and [map] build new arrays and [sort] works in place
    on the last of them, so the cached batches are only read; the one write
    is the assignment to [store.feedItems], which is not reached when
    building the right-hand side throws ([None]). *)
Definition rebuildGlobalFeed (cfg : AppConfig) (store : DataStore) : option DataStore :=
  items ← candidates cfg store;
  sorted ← js_sort byDescTime items;
  Some (set_feedItems store (slice0 sorted (feedLimit cfg))).

(* ===================================================================== *)
(** ** Conditional API client ([src/github/client.ts]) *)
(* ===================================================================== *)

Inductive EtagSlot := SlotInfo | SlotEvents | SlotCommits.

Record ETagCache := {
  info : gmap string string;
  events : gmap string string;
  commits : gmap string string;
}.

Record Request := { req_url : string; req_headers : gmap string string }.

(** What [fetch] resolves to. Header names are lower-case, as [Headers]
    keeps them; [body_text] and [body_json] are [None] when reading the
    body fails. *)
Record Response := {
  status : Z;
  statusText : string;
  headers : gmap string string;
  body_text : option string;
  body_json : option JsVal;
}.

(** [sent] is ghost state: the requests issued so far, oldest first. *)
Record GitHubClient := {
  etags : ETagCache;
  rate : RateLimitInfo;
  token : option string;
  sent : list Request;
}.

Definition newGitHubClient (token : option string) : GitHubClient :=
  {| etags := {| info := ∅; events := ∅; commits := ∅ |};
     rate := {| limit := Some 5000; remaining := Some 5000; reset := Some 0 |};
     token := token;
     sent := [] |}.

Inductive Reason :=
| TransportFailure
| UpstreamError (message : string)
| BodyError
| TypeError.

Inductive Settled (A : Type) :=
| Fulfilled (value : A)
| Rejected (reason : Reason).
#[global] Arguments Fulfilled {A} value.
#[global] Arguments Rejected {A} reason.

(** [{ status: 200, data } | { status: 304 }] *)
Inductive FetchOut :=
| Ok200 (data : JsVal)
| NotModified304.

Definition slot_map (slot : EtagSlot) (c : ETagCache) : gmap string string :=
  match slot with
  | SlotInfo => info c
  | SlotEvents => events c
  | SlotCommits => commits c
  end.

(** [etagKey.map.set(key, etag)] *)
Definition slot_set (slot : EtagSlot) (key etag : string) (c : ETagCache) : ETagCache :=
  match slot with
  | SlotInfo => {| info := <[key := etag]> (info c); events := events c; commits := commits c |}
  | SlotEvents => {| info := info c; events := <[key := etag]> (events c); commits := commits c |}
  | SlotCommits => {| info := info c; events := events c; commits := <[key := etag]> (commits c) |}
  end.

Definition set_etags (gh : GitHubClient) (c : ETagCache) : GitHubClient :=
  {| etags := c; rate := rate gh; token := token gh; sent := sent gh |}.

Definition set_rate (gh : GitHubClient) (r : RateLimitInfo) : GitHubClient :=
  {| etags := etags gh; rate := r; token := token gh; sent := sent gh |}.

Definition log_sent (gh : GitHubClient) (reqs : list Request) : GitHubClient :=
  {| etags := etags gh; rate := rate gh; token := token gh; sent := (sent gh ++ reqs)%list |}.

Definition ghHeaders (token : option string) (extra : gmap string string) : gmap string string :=
  let h := {[ "accept" := "application/vnd.github+json";
              "user-agent" := "deno-github-dashboard" ]} in
  let h := match token with
           | Some t => if nonempty t then <["authorization" := "Bearer " ++ t]> h else h
           | None => h
           end in
  extra ∪ h.

(** [parseInt(res.headers.get(k) || "0", 10)] *)
Definition header_int (res : Response) (k : string) : option Z :=
  match headers res !! k with
  | Some v => parseInt10 (if nonempty v then v else "0")
  | None => parseInt10 "0"
  end.

Definition updateRateLimit (res : Response) (gh : GitHubClient) : GitHubClient :=
  set_rate gh {| limit := header_int res "x-ratelimit-limit";
                 remaining := header_int res "x-ratelimit-remaining";
                 reset := header_int res "x-ratelimit-reset" |}.

Definition ok (res : Response) : bool := (200 <=? status res) && (status res <=? 299).

(** An [async] method of the client: what it does up to its [await fetch]
    (it builds one request from the client's state) and what it does with
    the response ([None]: [fetch] rejected). *)
Record Async (A : Type) := {
  issue : GitHubClient → Request;
  resume : option Response → GitHubClient → Settled A * GitHubClient;
}.
#[global] Arguments issue {A} _ _.
#[global] Arguments resume {A} _ _ _.

Definition fetchJsonWithEtag (url : string) (etagKey : option (EtagSlot * string))
    : Async FetchOut :=
  {| issue gh :=
       let hdrs : gmap string string :=
         match etagKey with
         | Some (slot, key) =>
             match slot_map slot (etags gh) !! key with
             | Some tag => if nonempty tag then {[ "if-none-match" := tag ]} else ∅
             | None => ∅
             end
         | None => ∅
         end in
       {| req_url := url; req_headers := ghHeaders (token gh) hdrs |};
     resume r gh :=
       match r with
       | None => (Rejected TransportFailure, gh)
       | Some res =>
           let gh := updateRateLimit res gh in
           if status res =? 304 then (Fulfilled NotModified304, gh)
           else if negb (ok res) then
             (Rejected (UpstreamError
                (Number_toString (status res) ++ " " ++ statusText res ++ " for " ++ url ++ " :: "
                 ++ default "" (body_text res))), gh)
           else
             match body_json res with
             | None => (Rejected BodyError, gh)
             | Some data =>
                 let gh :=
                   match headers res !! "etag", etagKey with
                   | Some etag, Some (slot, key) =>
                       if nonempty etag
                       then set_etags gh (slot_set slot key etag (etags gh))
                       else gh
                   | _, _ => gh
                   end in
                 (Fulfilled (Ok200 data), gh)
             end
       end |}.

(** The code after an [await] of another client method. *)
Definition andThen {A B : Type} (c : Async A) (k : A → Settled B) : Async B :=
  {| issue := issue c;
     resume r gh :=
       match resume c r gh with
       | (Fulfilled a, gh') => (k a, gh')
       | (Rejected e, gh') => (Rejected e, gh')
       end |}.

Definition throwing {A : Type} (o : option A) : Settled A :=
  match o with
  | Some a => Fulfilled a
  | None => Rejected TypeError
  end.

Definition getRepoInfo (repoId : string) : Async (option RepoInfo) :=
  andThen (fetchJsonWithEtag ("https://api.github.com/repos/" ++ repoId)
                             (Some (SlotInfo, repoId)))
    (fun out =>
       match out with
       | NotModified304 => Fulfilled None
       | Ok200 info =>
           throwing (
             html_url ← get info "html_url";
             description ← get info "description";
             stargazers_count ← get info "stargazers_count";
             forks_count ← get info "forks_count";
             open_issues_count ← get info "open_issues_count";
             updated_at ← get info "updated_at";
             default_branch ← get info "default_branch";
             Some (Some {| ri_repo := repoId;
                           ri_displayName := None;
                           html_url := html_url;
                           description := description;
                           stargazers_count := stargazers_count;
                           forks_count := forks_count;
                           open_issues_count := open_issues_count;
                           pushed_at := updated_at;
                           default_branch := default_branch |}))
       end).

Definition getRepoEvents (repoId : string) : Async (list Event) :=
  andThen (fetchJsonWithEtag
             ("https://api.github.com/networks/" ++ repoId ++ "/events?per_page=30")
             (Some (SlotEvents, repoId)))
    (fun out =>
       match out with
       | NotModified304 => Fulfilled []
       | Ok200 (JArr evs) =>
           Fulfilled (List.map (fun ev => {| __repo := repoId; raw := ev |}) evs)
       | Ok200 _ => Rejected TypeError
       end).

(** [None]: the template literals of lines 97-98 throw on [sha]; the
    promise is then rejected before any request is made. *)
Definition getCommitStats (repoId : string) (sha : JsVal)
    : option (Async (option CommitStats)) :=
  shaStr ← toStr sha;
  let key := repoId ++ "@" ++ shaStr in
  Some (andThen (fetchJsonWithEtag
                   ("https://api.github.com/repos/" ++ repoId ++ "/commits/" ++ shaStr)
                   (Some (SlotCommits, key)))
    (fun out =>
       match out with
       | NotModified304 => Fulfilled None
       | Ok200 data =>
           let stats := get_opt data "stats" in
           Fulfilled (Some {|
             cs_sha := sha;
             additions := nullish (get_opt stats "additions") (JNum 0);
             deletions := nullish (get_opt stats "deletions") (JNum 0);
             filesChanged :=
               match get_opt data "files" with
               | JArr files => JNum (Z.of_nat (length files))
               | _ => nullish (get_opt stats "total") (JNum 0)
               end |})
       end)).

(** Running the client against an upstream, [None] when [fetch] rejects. *)
Section Upstream.

Variable upstream : Request → option Response.

(** [await c] *)
Definition await {A : Type} (c : Async A) (gh : GitHubClient) : Settled A * GitHubClient :=
  let req := issue c gh in
  resume c (upstream req) (log_sent gh [req]).

(** [await Promise.allSettled(cs)]: every call runs up to its [fetch] when
    it is made, before any response arrives; the responses are then taken
    in the order of the calls. A call that threw before its [fetch]
    ([None]) sent nothing and is rejected. *)
Definition allSettled {A : Type} (cs : list (option (Async A))) (gh : GitHubClient)
    : list (Settled A) * GitHubClient :=
  let reqs := omap (option_map (fun c => issue c gh)) cs in
  foldl (fun '(acc, g) c =>
           match c with
           | Some c =>
               let '(r, g') := resume c (upstream (issue c gh)) g in ((acc ++ [r])%list, g')
           | None => ((acc ++ [Rejected TypeError])%list, g)
           end)
        ([], log_sent gh reqs) cs.

(** The same for a pair of calls of different types. *)
Definition allSettled2 {A B : Type} (ca : Async A) (cb : Async B) (gh : GitHubClient)
    : (Settled A * Settled B) * GitHubClient :=
  let ra := issue ca gh in
  let rb := issue cb gh in
  let '(a, g1) := resume ca (upstream ra) (log_sent gh [ra; rb]) in
  let '(b, g2) := resume cb (upstream rb) g1 in
  ((a, b), g2).

End Upstream.

(* ===================================================================== *)
(** ** Update scheduler ([src/services/scheduler.ts]) *)
(* ===================================================================== *)

Definition set_repoInfos (store : DataStore) (m : gmap string RepoInfo) : DataStore :=
  {| repoInfos := m; repoEvents := repoEvents store; feedItems := feedItems store;
     commitStats := commitStats store; qualityReports := qualityReports store |}.

Definition set_repoEvents (store : DataStore) (m : list (string * list Event)) : DataStore :=
  {| repoInfos := repoInfos store; repoEvents := m; feedItems := feedItems store;
     commitStats := commitStats store; qualityReports := qualityReports store |}.

Definition set_commitStats (store : DataStore) (m : gmap string CommitStats) : DataStore :=
  {| repoInfos := repoInfos store; repoEvents := repoEvents store;
     feedItems := feedItems store;
     commitStats := m; qualityReports := qualityReports store |}.

(** [{ ...info, displayName: n }] *)
Definition with_displayName (i : RepoInfo) (n : string) : RepoInfo :=
  {| ri_repo := ri_repo i; ri_displayName := Some n; html_url := html_url i;
     description := description i; stargazers_count := stargazers_count i;
     forks_count := forks_count i; open_issues_count := open_issues_count i;
     pushed_at := pushed_at i; default_branch := default_branch i |}.

(** The number of code points of a string held as UTF-8: the bytes that are
    not continuation bytes. [for (const c of s)] runs once for each. *)
Fixpoint code_points (s : string) : nat :=
  match s with
  | EmptyString => O
  | String c s' =>
      let n := Ascii.nat_of_ascii c in
      if ((128 <=? n) && (n <? 192))%nat then code_points s' else S (code_points s')
  end.

(** [for (const c of v) commits.push(c.sha)]: the values pushed, [None]
    when [v] is not iterable or an element is [null]. *)
Definition pushed_shas (v : JsVal) : option (list JsVal) :=
  match v with
  | JArr cs => mapM (fun c => get c "sha") cs
  | JStr s => Some (replicate (code_points s) JUndef)
  | _ => None
  end.

(** The loop of lines 79-84. *)
Fixpoint collectCommits (events : list Event) : option (list JsVal) :=
  match events with
  | [] => Some []
  | ev :: rest =>
      let cs := get_opt (ev_get ev "payload") "commits" in
      here ← (if is_str (ev_get ev "type") "PushEvent" && truthy cs
               then pushed_shas cs else Some []);
      more ← collectCommits rest;
      Some (here ++ more)%list
  end.

(** Lines 85-87: the filter converts every collected value to a string for
    its key, so it throws ([None]) where one of them cannot be converted. *)
Fixpoint uncachedOnly (store : DataStore) (repoId : string) (commits : list JsVal)
    : option (list JsVal) :=
  match commits with
  | [] => Some []
  | sha :: rest =>
      shaStr ← toStr sha;
      more ← uncachedOnly store repoId rest;
      Some (match commitStats store !! (repoId ++ "@" ++ shaStr) with
            | Some _ => more
            | None => sha :: more
            end)
  end.

Definition toFetch (store : DataStore) (repoId : string) (commits : list JsVal)
    : option (list JsVal) :=
  kept ← uncachedOnly store repoId commits;
  Some (take 5 kept).

(** [stats.forEach(...)], lines 92-99, over the results and the values
    they were asked for. A template literal that throws ends the loop and
    the update; what was stored before stays. *)
Fixpoint storeStats (repoId : string) (asked : list JsVal)
    (stats : list (Settled (option CommitStats))) (store : DataStore) : DataStore :=
  match stats with
  | [] => store
  | s :: stats' =>
      match s with
      | Fulfilled (Some v) =>
          match toStr (cs_sha v) with
          | Some shaStr =>
              storeStats repoId (tl asked) stats'
                (set_commitStats store (<[repoId ++ "@" ++ shaStr := v]> (commitStats store)))
          | None => store
          end
      | Fulfilled None => storeStats repoId (tl asked) stats' store
      | Rejected _ =>
          match toStr (hd JUndef asked) with
          | Some _ => storeStats repoId (tl asked) stats' store
          | None => store
          end
      end
  end.

(** Lines 65-70: a fulfilled, non-null metadata result is stored with the
    configured display name. *)
Definition storeInfo (r : ConfigRepo) (infoRes : Settled (option RepoInfo))
    (store : DataStore) : DataStore :=
  match infoRes with
  | Fulfilled (Some info) =>
      set_repoInfos store (<[id r := with_displayName info (name r)]> (repoInfos store))
  | _ => store
  end.

(** Lines 74-76. *)
Definition storeEvents (r : ConfigRepo) (events : list Event) (store : DataStore)
    : DataStore :=
  if (0 <? length events)%nat || negb (omap_has (id r) (repoEvents store))
  then set_repoEvents store (omap_set (id r) events (repoEvents store))
  else store.

Section Scheduler.

Variable upstream : Request → option Response.

(** The [try] block of [updateRepo]; an exception inside it is caught and
    logged, the writes made before it stay. *)
Definition updateRepo (r : ConfigRepo) (store : DataStore) (gh : GitHubClient)
    : DataStore * GitHubClient :=
  let '((infoRes, eventsRes), gh) :=
    allSettled2 upstream (getRepoInfo (id r)) (getRepoEvents (id r)) gh in
  let store := storeInfo r infoRes store in
  match eventsRes with
  | Fulfilled events =>
      let store := storeEvents r events store in
      match collectCommits events ≫= toFetch store (id r) with
      | None => (store, gh)
      | Some asked =>
          let '(stats, gh) :=
            allSettled upstream (List.map (getCommitStats (id r)) asked) gh in
          (storeStats (id r) asked stats store, gh)
      end
  | Rejected _ => (store, gh)
  end.

(** [timer] says whether an interval timer set by [start] is running. *)
Record UpdateScheduler := {
  cfg : AppConfig;
  store : DataStore;
  gh : GitHubClient;
  queue : list ConfigRepo;
  timer : bool;
}.

(** The comparator of [buildQueue]. *)
Definition byPushedDesc (infos : gmap string RepoInfo) (a b : ConfigRepo)
    : option (option Z) :=
  match infos !! id a, infos !! id b with
  | Some ia, Some ib =>
      tb ← Date_getTime (pushed_at ib);
      ta ← Date_getTime (pushed_at ia);
      Some (num_sub tb ta)
  | _, _ => Some (Some 0)
  end.

(** [None] when the sort throws: the queue is then not assigned. *)
Definition buildQueue (s : UpdateScheduler) : option UpdateScheduler :=
  sorted ← js_sort (byPushedDesc (repoInfos (store s))) (repos (cfg s));
  Some {| cfg := cfg s; store := store s; gh := gh s; queue := sorted; timer := timer s |}.

(** [start]: the running timer, if any, is cleared, the queue is built and
    the timer is set anew. When [buildQueue] throws, the timer stays
    cleared. *)
Definition start (s : UpdateScheduler) : UpdateScheduler :=
  match buildQueue s with
  | Some s' =>
      {| cfg := cfg s'; store := store s'; gh := gh s'; queue := queue s'; timer := true |}
  | None =>
      {| cfg := cfg s; store := store s; gh := gh s; queue := queue s; timer := false |}
  end.

(** [tick] up to its [await]: the repository taken from the queue, if any.
    [None] when [buildQueue] throws: the tick ends there, rejected, and
    nothing has changed. *)
Definition tick_begin (s : UpdateScheduler)
    : option (option ConfigRepo * UpdateScheduler) :=
  s ← match queue s with
       | [] => buildQueue s
       | _ => Some s
       end;
  Some match queue s with
       | [] => (None, s)
       | r :: q =>
           (Some r,
            {| cfg := cfg s; store := store s; gh := gh s; queue := q; timer := timer s |})
       end.

(** The rest of [tick] for the repository it took: the update, then the
    rebuild. When the rebuild throws, the tick ends rejected, with the
    store as the update left it. Nothing handles that rejection; the state
    given is the one in which it is raised. *)
Definition tick_end (r : ConfigRepo) (s : UpdateScheduler) : UpdateScheduler :=
  let '(store', gh') := updateRepo r (store s) (gh s) in
  {| cfg := cfg s;
     store := default store' (rebuildGlobalFeed (cfg s) store');
     gh := gh';
     queue := queue s; timer := timer s |}.

(** A tick that runs alone, from the timer to the end of its rebuild. *)
Definition tick (s : UpdateScheduler) : UpdateScheduler :=
  match tick_begin s with
  | Some (Some r, s') => tick_end r s'
  | Some (None, s') => s'
  | None => s
  end.

(** The scheduler on the event loop. [setInterval(() => this.tick(), ms)]
    calls [tick] at every expiry and drops the promise it returns; the call
    runs to the first [await] inside [updateRepo], and the rest of that tick
    (the writes of [updateRepo], then the rebuild) runs once its fetches
    have settled, here in one step. [inflight] holds the ticks that have
    started and not yet finished, each with the repository it took. The
    requeue timer of [main.ts] calls [start]. *)
Record Loop := { sched : UpdateScheduler; inflight : list ConfigRepo }.

Inductive loop_step : Loop → Loop → Prop :=
| timer_expires s fl o s' :
    timer s = true →
    tick_begin s = Some (o, s') →
    loop_step {| sched := s; inflight := fl |}
              {| sched := s'; inflight := (fl ++ from_option (fun r => [r]) [] o)%list |}
| timer_expires_throws s fl :
    timer s = true →
    tick_begin s = None →
    loop_step {| sched := s; inflight := fl |} {| sched := s; inflight := fl |}
| requeue_expires s fl :
    loop_step {| sched := s; inflight := fl |}
              {| sched := start s; inflight := fl |}
| fetches_settle s fl1 r fl2 :
    loop_step {| sched := s; inflight := (fl1 ++ r :: fl2)%list |}
              {| sched := tick_end r s; inflight := (fl1 ++ fl2)%list |}.

Inductive loop_steps : Loop → Loop → Prop :=
| loop_refl l : loop_steps l l
| loop_trans l1 l2 l3 : loop_steps l1 l2 → loop_step l2 l3 → loop_steps l1 l3.

(** The state in which [initialLoad] leaves the scheduler: [start] has run
    and no tick has been made yet. *)
Definition started (c : AppConfig) (st : DataStore) (g : GitHubClient) : Loop :=
  {| sched := start {| cfg := c; store := st; gh := g; queue := []; timer := false |};
     inflight := [] |}.

End Scheduler.

(* ===================================================================== *)
(** ** Notions used by the properties *)
(* ===================================================================== *)

(** The outcome of the two fetches that open [updateRepo]. *)
Definition infoResult (upstream : Request → option Response) (r : ConfigRepo)
    (g : GitHubClient) : Settled (option RepoInfo) :=
  fst (fst (allSettled2 upstream (getRepoInfo (id r)) (getRepoEvents (id r)) g)).

Definition eventsResult (upstream : Request → option Response) (r : ConfigRepo)
    (g : GitHubClient) : Settled (list Event) :=
  snd (fst (allSettled2 upstream (getRepoInfo (id r)) (getRepoEvents (id r)) g)).

(** The request with which [getRepoEvents] asks for the events page. *)
Definition eventsRequest (r : ConfigRepo) (g : GitHubClient) : Request :=
  issue (getRepoEvents (id r)) g.

(** The requests that [updateRepo] issues after its two opening fetches:
    the commit-stat fetches. *)
Definition commitFetches (upstream : Request → option Response) (r : ConfigRepo)
    (st : DataStore) (g : GitHubClient) : list Request :=
  drop (length (sent g) + 2) (sent (snd (updateRepo upstream r st g))).

(** The address of a commit whose SHA is written [s], and whether the
    commit-stat cache lacks it. *)
Definition commitUrl (repoId s : string) : string :=
  "https://api.github.com/repos/" ++ repoId ++ "/commits/" ++ s.

Definition uncached (st : DataStore) (repoId s : string) : bool :=
  match commitStats st !! (repoId ++ "@" ++ s) with
  | Some _ => false
  | None => true
  end.

(** A value that converts to a string. *)
Definition printable (v : JsVal) : bool :=
  match toStr v with
  | Some _ => true
  | None => false
  end.

(** A value in which no object has a [toString] key of its own: what an
    API that names its fields otherwise sends. *)
Fixpoint plain (v : JsVal) : bool :=
  match v with
  | JArr vs => forallb plain vs
  | JObj fs => negb (omap_has "toString" fs) && forallb (fun kv => plain kv.2) fs
  | _ => true
  end.

(** A push event as the Events API documents it: its [commits], when
    present, is an array of commit objects, and the [sha] of each converts
    to a string (as every string does). *)
Definition is_object (v : JsVal) : bool :=
  match v with
  | JObj _ => true
  | _ => false
  end.

Definition wellFormedPush (ev : Event) : bool :=
  if is_str (ev_get ev "type") "PushEvent" then
    match get_opt (ev_get ev "payload") "commits" with
    | JUndef | JNull => true
    | JArr cs => forallb (fun c => is_object c && printable (get_opt c "sha")) cs
    | _ => false
    end
  else true.

(** The commit SHAs that the push events of a batch refer to, in batch
    order, following the design document's wording. *)
Definition pushEventShas (evs : list Event) : list JsVal :=
  flat_map (fun ev =>
              if is_str (ev_get ev "type") "PushEvent" then
                match get_opt (ev_get ev "payload") "commits" with
                | JArr cs => List.map (fun c => get_opt c "sha") cs
                | _ => []
                end
              else []) evs.

(** [a] is at least as recent as [b], for a timestamp [key] that may fail
    to parse. *)
Definition recent_ge {A : Type} (key : A → option Z) (a b : A) : Prop :=
  ∃ ta tb, key a = Some ta ∧ key b = Some tb ∧ tb ≤ ta.

(** The time of an item, where its [when] gives one: [new Date(when)] does
    not throw and is not [NaN]. *)
Definition feedTime (it : FeedItem) : option Z := mjoin (Date_getTime (when it)).

Definition pushedTime (infos : gmap string RepoInfo) (r : ConfigRepo) : option Z :=
  i ← infos !! id r; mjoin (Date_getTime (pushed_at i)).

(** An upstream resource whose current validation token is [tag] and which
    honours conditional requests: a request that presents [tag] is answered
    "not modified", any other one gets the resource with [tag]. *)
Definition honoursValidator (upstream : Request → option Response)
    (url tag : string) : Prop :=
  tag ≠ "" ∧
  ∀ req, req_url req = url →
    ∃ res, upstream req = Some res ∧
      if decide (req_headers req !! "if-none-match" = Some tag)
      then status res = 304
      else status res = 200 ∧ headers res !! "etag" = Some tag ∧ is_Some (body_json res).

(** The comparator [cmp] does not throw on the elements of [l] and decides
    the order [R] on them: a positive result puts the second argument
    first. *)
Definition decides {A : Type} (cmp : A → A → option (option Z)) (R : A → A → Prop)
    (l : list A) : Prop :=
  ∀ a b, a ∈ l → b ∈ l →
    ∃ d, cmp a b = Some d ∧ if positive d then R b a else R a b.

(** A client method whose continuation issues no request of its own. *)
Definition quiet {A : Type} (c : Async A) : Prop :=
  ∀ r g, sent (resume c r g).2 = sent g.

(** The event types, other than a push, for which [eventToFeedItems] has a
    branch of its own. *)
Definition handled : list string :=
  [ "PullRequestEvent"; "IssuesEvent"; "IssueCommentEvent"; "ReleaseEvent";
    "CreateEvent"; "DeleteEvent"; "ForkEvent"; "WatchEvent" ].

(** The items whose timestamp is [t]. *)
Definition at_time (t : Z) (it : FeedItem) : bool :=
  bool_decide (feedTime it = Some t).

(** The stat that the cache [m] holds for an item: for a [Commit] item
    with a [sha], the entry under [repo@sha]. *)
Definition statFor (m : gmap string CommitStats) (it : FeedItem) : option CommitStats :=
  if is_str (type it) "Commit" && truthy (sha it) then
    s ← toStr (sha it); m !! (repo it ++ "@" ++ s)
  else None.

(** The item [x] with the stat that [m] holds for it put in its [stats],
    and [x] itself when [m] holds none. *)
Definition withStat (m : gmap string CommitStats) (x : FeedItem) : FeedItem :=
  match statFor m x with
  | Some cached => set_stats x cached
  | None => x
  end.

(** The event's type, [ev.type ?? "default"]. *)
Definition typeOf (ev : Event) : JsVal := nullish (ev_get ev "type") (JStr "default").

(** The event is a push with commits: the test of line 27. *)
Definition pushWithCommits (ev : Event) : bool :=
  is_str (ev_get ev "type") "PushEvent"
  && truthy (get_opt (ev_get ev "payload") "commits").

(* ===================================================================== *)
(** ** Read side ([src/web/routes.ts]) *)
(* ===================================================================== *)

(** [/api/feed] (lines 22-32): the stored feed, each [Commit] item given
    the stat that is cached when the request is served. The key is a
    template literal over the item's [sha]. *)
Definition apiFeedItems (store : DataStore) : option (list FeedItem) :=
  mapM (withStats store) (feedItems store).

(* ===================================================================== *)
(** ** Ticks that run alone *)
(* ===================================================================== *)

(** [n] expiries of the tick timer, each tick finishing before the next
    expiry: the repositories updated, in order, and the final state. *)
Fixpoint ticks (upstream : Request → option Response) (n : nat) (s : UpdateScheduler)
    : list ConfigRepo * UpdateScheduler :=
  match n with
  | O => ([], s)
  | S n' =>
      match tick_begin s with
      | Some (Some r, s') =>
          let '(rs, s'') := ticks upstream n' (tick_end upstream r s') in
          (r :: rs, s'')
      | Some (None, s') => ticks upstream n' s'
      | None => ticks upstream n' s
      end
  end.

(** Every cached event carries the repository under which it is cached. *)
Definition store_tagged (st : DataStore) : Prop :=
  Forall (fun kb : string * list Event => Forall (fun e => __repo e = kb.1) kb.2)
         (repoEvents st).

(** The result of a client method depends on the response only. *)
Definition pure_result {A : Type} (c : Async A) : Prop :=
  ∀ r g g', (resume c r g).1 = (resume c r g').1.

(* ===================================================================== *)
(** ** Configuration loading (the loader that follows
       [src/services/code_audit.ts] in its file, lines 118-230) *)
(* ===================================================================== *)

(** [s.split(c)] for a one-character separator. *)
Fixpoint split_on (c : Ascii.ascii) (s : string) : list string :=
  match s with
  | EmptyString => [EmptyString]
  | String d s' =>
      if Ascii.eqb d c then EmptyString :: split_on c s'
      else match split_on c s' with
           | h :: t => String d h :: t
           | [] => [String d EmptyString]
           end
  end.

Definition comma : Ascii.ascii := Ascii.ascii_of_nat 44.
Definition colon : Ascii.ascii := Ascii.ascii_of_nat 58.

(** The callback of [parseRepos] (lines 145-150). *)
Definition parseRepo (s : string) : ConfigRepo :=
  let parts := split_on colon (trim s) in
  let i := hd EmptyString parts in
  let n := join ":" (tl parts) in
  {| id := i; name := if nonempty n then n else i |}.

Definition parseRepos (input : option string) : option (list ConfigRepo) :=
  match input with
  | Some s => if nonempty s then Some (List.map parseRepo (split_on comma s)) else None
  | None => None
  end.

(** [envNum] (lines 130-135): the variable's number, where the variable
    is set and its number is finite. *)
Definition envNum (env : gmap string string) (key : string) : option Z :=
  raw ← env !! key; Number_ raw.

(** The parsed configuration file, read at the types that [loadConfig]
    asserts for its fields; a missing or unreadable file is [noFile]. *)
Record FileCfg := {
  f_repos : option (list ConfigRepo);
  f_githubToken : option string;
  f_refreshSeconds : option Z;
  f_repoUpdateIntervalSeconds : option Z;
  f_feedLimit : option Z;
}.

Definition noFile : FileCfg :=
  {| f_repos := None; f_githubToken := None; f_refreshSeconds := None;
     f_repoUpdateIntervalSeconds := None; f_feedLimit := None |}.

Definition demoRepos : list ConfigRepo :=
  [ {| id := "vercel/next.js"; name := "🚀 Next.js" |};
    {| id := "apache/superset"; name := "📊 Superset" |} ].

(** [a ?? b] on optional values. *)
Definition orElse {A : Type} (a b : option A) : option A :=
  match a with
  | Some _ => a
  | None => b
  end.

Definition loadConfig (env : gmap string string) (file : FileCfg) : AppConfig :=
  let configured :=
    List.filter (λ r, nonempty (id r))
      (default [] (orElse (parseRepos (env !! "REPOS")) (f_repos file))) in
  {| repos := match configured with
              | [] => demoRepos
              | _ => configured
              end;
     githubToken := orElse (env !! "GITHUB_TOKEN") (f_githubToken file);
     globalRefreshSeconds :=
       default 60 (orElse (envNum env "REFRESH_SECONDS") (f_refreshSeconds file));
     repoUpdateIntervalSeconds :=
       default 10 (orElse (envNum env "REPO_UPDATE_INTERVAL_SECONDS")
                          (f_repoUpdateIntervalSeconds file));
     feedLimit := default 120 (orElse (envNum env "FEED_LIMIT") (f_feedLimit file)) |}.

(* ===================================================================== *)
(** ** Code audit ([src/services/code_audit.ts]) *)
(* ===================================================================== *)

(** [m.delete(k)] on a [Map] in insertion order. *)
Fixpoint omap_delete {A : Type} (k : string) (m : list (string * A)) : list (string * A) :=
  match m with
  | [] => []
  | (k', v) :: m' => if String.eqb k k' then m' else (k', v) :: omap_delete k m'
  end.

(** Lines 103-108 of [cycle]: the report is stored under its repository
    and, when the map has grown past [maxReports], the entry inserted
    first is removed (if its key is not the empty string). The reports are
    a [Map] whose insertion order the code reads. *)
Definition recordReport (maxReports : Z) (rep : QualityReport)
    (m : list (string * QualityReport)) : list (string * QualityReport) :=
  let m := omap_set (qr_repo rep) rep m in
  if maxReports <? Z.of_nat (length m) then
    match m with
    | (firstKey, _) :: _ => if nonempty firstKey then omap_delete firstKey m else m
    | [] => m
    end
  else m.

(** The re-entrancy guard of [cycle] (lines 85-86, 114-116): a call
    returns at once while [running] is set; otherwise it sets the flag,
    and its [finally] clears it. [active] counts the calls that are past
    the guard and before their [finally]. *)
Record Audit := { running : bool; active : nat }.

Inductive audit_step : Audit → Audit → Prop :=
| cycle_enters a :
    running a = false →
    audit_step a {| running := true; active := S (active a) |}
| cycle_returns a :
    running a = true →
    audit_step a a
| cycle_finishes a n :
    active a = S n →
    audit_step a {| running := false; active := n |}.

Inductive audit_steps : Audit → Audit → Prop :=
| audit_refl a : audit_steps a a
| audit_trans a1 a2 a3 : audit_steps a1 a2 → audit_step a2 a3 → audit_steps a1 a3.

(** The audit scheduler before [start]. *)
Definition auditIdle : Audit := {| running := false; active := 0 |}.

(* ===================================================================== *)
(** ** Sample data *)
(* ===================================================================== *)

(** Stand-ins for the host functions on the values used below: numbers
    below 10^21 are printed in decimal digits, and [Object.prototype] has
    what the language gives it. *)
Definition sampleNumber (n : Z) : string := pretty n.

Definition sampleInherited (k : string) : bool :=
  bool_decide (k ∈ [ "constructor"; "hasOwnProperty"; "isPrototypeOf";
                     "propertyIsEnumerable"; "toLocaleString"; "toString"; "valueOf" ]).

Definition sampleDate (s : string) : option Z :=
  if String.eqb s "2024-05-01T10:00:00Z" then Some 1714557600000
  else if String.eqb s "2024-05-02T10:00:00Z" then Some 1714644000000
  else if String.eqb s "2024-05-03T10:00:00Z" then Some 1714730400000
  else if String.eqb s "2024-01-01T00:00:00Z" then Some 1704067200000
  else if String.eqb s "2024-06-01T00:00:00Z" then Some 1717200000000
  else None.

Definition sampleInt (s : string) : option Z :=
  if String.eqb s "0" then Some 0
  else if String.eqb s "5000" then Some 5000
  else if String.eqb s "4999" then Some 4999
  else None.

Definition sampleRepo : ConfigRepo := {| id := "octo/demo"; name := "Demo" |}.
Definition otherRepo : ConfigRepo := {| id := "octo/other"; name := "Other" |}.

Definition sampleCfg (lim : Z) : AppConfig :=
  {| repos := [sampleRepo; otherRepo]; githubToken := None;
     globalRefreshSeconds := 60; repoUpdateIntervalSeconds := 10;
     feedLimit := lim |}.

Definition commitJson (sha0 message : string) : JsVal :=
  JObj [("sha", JStr sha0); ("message", JStr message);
        ("author", JObj [("name", JStr "Alice")])].

Definition pushJson (created : string) (cs : JsVal) : JsVal :=
  JObj [("type", JStr "PushEvent");
        ("actor", JObj [("login", JStr "alice")]);
        ("created_at", JStr created);
        ("payload", JObj [("ref", JStr "refs/heads/main"); ("commits", cs)])].

Definition plainJson (ty created : string) : JsVal :=
  JObj [("type", JStr ty);
        ("actor", JObj [("login", JStr "bob")]);
        ("created_at", JStr created);
        ("payload", JObj [])].

Definition cachedEvent (raw : JsVal) : Event := {| __repo := "octo/demo"; raw := raw |}.

(** A push with three commits, the second with a two-line message. *)
Definition push3 : Event :=
  cachedEvent (pushJson "2024-05-02T10:00:00Z"
         (JArr [commitJson "a1" "first";
                commitJson "b2" ("second" ++ String newline "more");
                commitJson "c3" "third"])).

(** A push whose commit list holds [null]. *)
Definition pushBad : Event :=
  cachedEvent (pushJson "2024-05-02T10:00:00Z" (JArr [JNull])).

Definition watch1 : Event := cachedEvent (plainJson "WatchEvent" "2024-05-03T10:00:00Z").
Definition issue1 : Event := cachedEvent (plainJson "IssuesEvent" "2024-05-01T10:00:00Z").

Definition twelve : list JsVal :=
  List.map (λ s, commitJson s "work")
    ["s01"; "s02"; "s03"; "s04"; "s05"; "s06"; "s07"; "s08"; "s09"; "s10"; "s11"; "s12"].

Definition push12Json : JsVal := pushJson "2024-05-03T10:00:00Z" (JArr twelve).

Definition sampleStat : CommitStats :=
  {| cs_sha := JStr "a1"; additions := JNum 10; deletions := JNum 2;
     filesChanged := JNum 3 |}.

(** A cache that holds one batch for [octo/demo]. *)
Definition sampleStore : DataStore :=
  {| repoInfos := ∅;
     repoEvents := [("octo/demo", [push3; pushBad; watch1; issue1])];
     feedItems := [];
     commitStats := ∅;
     qualityReports := ∅ |}.

Definition sampleMeta : JsVal :=
  JObj [("html_url", JStr "https://github.com/octo/demo");
        ("description", JNull);
        ("stargazers_count", JNum 7);
        ("forks_count", JNum 1);
        ("open_issues_count", JNum 0);
        ("pushed_at", JStr "2024-01-01T00:00:00Z");
        ("updated_at", JStr "2024-06-01T00:00:00Z");
        ("default_branch", JStr "main")].

Definition answer (st : Z) (etag : option string) (body : option JsVal) : Response :=
  {| status := st; statusText := "";
     headers := match etag with
                | Some e => {[ "etag" := e ]}
                | None => ∅
                end;
     body_text := None; body_json := body |}.

(** An upstream on which nothing has changed. *)
Definition upstreamUnchanged (req : Request) : option Response :=
  Some (answer 304 None None).

(** An upstream with fresh metadata and one push of twelve commits. *)
Definition upstreamFresh (req : Request) : option Response :=
  if String.eqb (req_url req) "https://api.github.com/repos/octo/demo"
  then Some (answer 200 (Some "m1") (Some sampleMeta))
  else if String.eqb (req_url req)
            "https://api.github.com/networks/octo/demo/events?per_page=30"
  then Some (answer 200 (Some "e1") (Some (JArr [push12Json])))
  else Some (answer 200 None
               (Some (JObj [("stats", JObj [("additions", JNum 4); ("deletions", JNum 1)]);
                            ("files", JArr [JObj []; JObj []])]))).

(** An upstream that honours the validation token [v1]. *)
Definition upstreamConditional (req : Request) : option Response :=
  if decide (req_headers req !! "if-none-match" = Some "v1")
  then Some (answer 304 None None)
  else Some (answer 200 (Some "v1") (Some sampleMeta)).

Definition sampleInfo (repoId pushed : string) : RepoInfo :=
  {| ri_repo := repoId; ri_displayName := None; html_url := JUndef;
     description := JNull; stargazers_count := JNum 0; forks_count := JNum 0;
     open_issues_count := JNum 0; pushed_at := JStr pushed;
     default_branch := JStr "main" |}.

(** The item that the first commit of [push3] gives. *)
Definition commitItem1 : FeedItem :=
  {| type := JStr "Commit"; icon := IconText "📝"; when := JStr "2024-05-02T10:00:00Z";
     repo := "octo/demo"; actor := JStr "alice";
     title := JStr "Commit to main: first";
     url := JStr "https://github.com/octo/demo/commit/a1";
     extra := "by Alice"; sha := JStr "a1"; stats := None; displayName := None |}.

(** The sample cache once the stat of commit [a1] has been fetched. *)
Definition enrichedStore : DataStore :=
  set_commitStats sampleStore {[ "octo/demo@a1" := sampleStat ]}.

(** A cache in which both configured repositories have metadata. *)
Definition knownStore : DataStore :=
  set_repoInfos sampleStore
    {[ "octo/demo" := sampleInfo "octo/demo" "2024-01-01T00:00:00Z";
       "octo/other" := sampleInfo "octo/other" "2024-06-01T00:00:00Z" ]}.

(** A pull request that was closed by merging it. *)
Definition pr1 : Event :=
  cachedEvent
    (JObj [("type", JStr "PullRequestEvent");
           ("actor", JObj [("login", JStr "carol")]);
           ("created_at", JStr "2024-05-03T10:00:00Z");
           ("payload",
            JObj [("action", JStr "closed");
                  ("pull_request",
                   JObj [("number", JNum 7); ("title", JStr "Fix the feed");
                         ("merged", JBool true);
                         ("html_url", JStr "https://github.com/octo/demo/pull/7")])])]).

(** An event of a type that [eventToFeedItems] has no branch for. *)
Definition member1 : Event := cachedEvent (plainJson "MemberEvent" "2024-05-01T10:00:00Z").

(** An event whose type names a member of [Object.prototype]. *)
Definition inherited1 : Event := cachedEvent (plainJson "constructor" "2024-05-01T10:00:00Z").

(** A scheduler that has not started: nothing queued, the sample cache. *)
Definition idleScheduler : UpdateScheduler :=
  {| cfg := sampleCfg 2; store := sampleStore; gh := newGitHubClient None;
     queue := []; timer := false |}.

(** [trim] on strings that have no white space at their ends. *)
Definition sampleTrim (s : string) : string := s.

(** An environment whose [REPOS] has no usable entry, and a configuration
    file that names one repository. *)
Definition sampleEnv : gmap string string := {[ "REPOS" := "," ]}.

Definition sampleFile : FileCfg :=
  {| f_repos := Some [sampleRepo]; f_githubToken := None; f_refreshSeconds := None;
     f_repoUpdateIntervalSeconds := None; f_feedLimit := Some 50 |}.

Definition sampleReport (repoId : string) : QualityReport :=
  {| qr_repo := repoId; qr_displayName := repoId; score := Some 80;
     markdown := "ok"; updatedAt := "2024-05-03T10:00:00Z"; localPath := "" |}.

(** An event whose [type] is an object with a [toString] key of its own,
    cached under another repository. *)
Definition poison : Event :=
  {| __repo := "octo/other";
     raw := JObj [("type", JObj [("toString", JNum 1)]);
                  ("created_at", JStr "2024-05-01T10:00:00Z")] |}.

(** The sample cache with that event cached for [octo/other]. *)
Definition poisonedStore : DataStore :=
  set_repoEvents sampleStore
    [("octo/demo", [push3; pushBad; watch1; issue1]); ("octo/other", [poison])].

(** A push whose second commit has no message. *)
Definition pushNoMessage : Event :=
  cachedEvent (pushJson "2024-05-02T10:00:00Z"
         (JArr [commitJson "a1" "first"; JObj [("sha", JStr "b2")]])).

(** An upstream whose events page holds a push with a commit and [null]. *)
Definition upstreamNullCommit (req : Request) : option Response :=
  if String.eqb (req_url req)
       "https://api.github.com/networks/octo/demo/events?per_page=30"
  then Some (answer 200 None
               (Some (JArr [pushJson "2024-05-03T10:00:00Z"
                              (JArr [commitJson "a1" "first"; JNull])])))
  else Some (answer 304 None None).

(** An answer that carries the rate budget. *)
Definition ratedAnswer : Response :=
  {| status := 304; statusText := "";
     headers := {[ "x-ratelimit-limit" := "5000"; "x-ratelimit-remaining" := "4999" ]};
     body_text := None; body_json := None |}.

Definition upstreamRated (req : Request) : option Response := Some ratedAnswer.

(** A scheduler that has not started, on the cache with that event. *)
Definition poisonedScheduler : UpdateScheduler :=
  {| cfg := sampleCfg 2; store := poisonedStore; gh := newGitHubClient None;
     queue := []; timer := false |}.

(* ===================================================================== *)
(** ** Facts about the JavaScript library functions *)
(* ===================================================================== *)

Section SortFacts.

Context {A : Type} (cmp : A → A → option (option Z)).

Lemma sort_insert_perm x l r : sort_insert cmp x l = Some r → Permutation r (x :: l).
Proof.
  revert r. induction l as [|y l IH]; simpl; intros r H; [by injection H as <-|].
  destruct (cmp x y) as [d|]; simpl in H; [|done].
  destruct (positive d); [|by injection H as <-].
  destruct (sort_insert cmp x l) as [r'|]; simpl in H; [|done].
  injection H as <-. rewrite (IH r' eq_refl). apply perm_swap.
Qed.

Lemma js_sort_cons x l :
  js_sort cmp (x :: l) = (r ← js_sort cmp l; sort_insert cmp x r).
Proof. reflexivity. Qed.

Lemma js_sort_perm l r : js_sort cmp l = Some r → Permutation r l.
Proof.
  revert r. induction l as [|x l IH]; intros r H; [by injection H as <-|].
  rewrite js_sort_cons in H.
  destruct (js_sort cmp l) as [r'|]; simpl in H; [|done].
  rewrite (sort_insert_perm _ _ _ H). constructor. by apply IH.
Qed.

Lemma js_sort_length l r : js_sort cmp l = Some r → length r = length l.
Proof. intros H. apply Permutation_length. by apply js_sort_perm. Qed.

Lemma js_sort_elem x l r : js_sort cmp l = Some r → x ∈ r ↔ x ∈ l.
Proof. intros H. by rewrite (js_sort_perm _ _ H). Qed.

(** The sort throws only where the comparator does. *)
Lemma sort_insert_total x l :
  (∀ y, y ∈ l → is_Some (cmp x y)) → is_Some (sort_insert cmp x l).
Proof.
  induction l as [|y l IH]; intros H; simpl; [by eexists|].
  destruct (H y) as [d ->]; [by left|]. simpl.
  destruct (positive d); [|by eexists].
  destruct IH as [r ->]; [|by eexists].
  intros z Hz. apply H. by right.
Qed.

Lemma js_sort_total l :
  (∀ a b, a ∈ l → b ∈ l → is_Some (cmp a b)) → is_Some (js_sort cmp l).
Proof.
  induction l as [|x l IH]; intros H; [by eexists|].
  rewrite js_sort_cons.
  destruct IH as [r Hr]; [intros a b Ha Hb; apply H; by right|].
  rewrite Hr. simpl. apply sort_insert_total.
  intros y Hy. apply H; [by left|]. right. exact (proj1 (js_sort_elem y l r Hr) Hy).
Qed.

(** Where the comparator decides a transitive order [R], the result is
    sorted by [R]. *)
Context (R : A → A → Prop) (R_trans : ∀ a b c, R a b → R b c → R a c).

Lemma sort_insert_sorted x l :
  (∀ y, y ∈ l → ∃ d, cmp x y = Some d ∧ if positive d then R y x else R x y) →
  StronglySorted R l →
  ∃ r, sort_insert cmp x l = Some r ∧ StronglySorted R r.
Proof.
  induction l as [|y l IH]; intros Hx Hs; simpl.
  - eexists. split; [done|]. repeat constructor.
  - apply StronglySorted_inv in Hs as [Hs Hy].
    destruct (Hx y (list_elem_of_here _ _)) as (d & -> & Hxy). simpl.
    destruct (positive d).
    + destruct IH as (r & Hr & Hsr); [intros z Hz; apply Hx; by right|done|].
      rewrite Hr. simpl. eexists. split; [done|].
      constructor; [done|].
      rewrite (sort_insert_perm _ _ _ Hr). by constructor.
    + eexists. split; [done|].
      constructor; [by constructor|].
      constructor; [done|].
      eapply Forall_impl; [exact Hy|]. intros z Hz. by eapply R_trans.
Qed.

Lemma js_sort_sorted l :
  decides cmp R l → ∃ r, js_sort cmp l = Some r ∧ StronglySorted R r.
Proof.
  induction l as [|x l IH]; intros Hd; [eexists; split; [done|constructor]|].
  rewrite js_sort_cons.
  destruct IH as (r & Hr & Hs); [intros a b Ha Hb; apply Hd; by right|].
  rewrite Hr. simpl. apply sort_insert_sorted; [|done].
  intros y Hy. apply Hd; [by left|]. right. exact (proj1 (js_sort_elem y l r Hr) Hy).
Qed.

End SortFacts.

Lemma recent_ge_trans {A : Type} (key : A → option Z) a b c :
  recent_ge key a b → recent_ge key b c → recent_ge key a c.
Proof.
  intros (ta & tb & Ha & Hb & Hab) (tb' & tc & Hb' & Hc & Hbc).
  exists ta, tc. repeat split; try done.
  rewrite Hb in Hb'. injection Hb' as <-. lia.
Qed.

(** A comparator of the form [key(b) - key(a)] decides "at least as
    recent" wherever every key is a number. *)
Lemma key_cmp_decides {A : Type} (key : A → option Z) (cmp : A → A → option (option Z)) l :
  (∀ a b ta tb, a ∈ l → b ∈ l → key a = Some ta → key b = Some tb →
     cmp a b = Some (Some (tb - ta))) →
  Forall (λ a, is_Some (key a)) l →
  decides cmp (recent_ge key) l.
Proof.
  intros Hcmp Hkey a b Ha Hb.
  rewrite Forall_forall in Hkey.
  destruct (Hkey a Ha) as [ta Hta], (Hkey b Hb) as [tb Htb].
  rewrite (Hcmp a b ta tb Ha Hb Hta Htb). eexists. split; [done|]. simpl.
  destruct (0 <? tb - ta) eqn:E.
  - apply Z.ltb_lt in E. exists tb, ta. repeat split; try done. lia.
  - apply Z.ltb_ge in E. exists ta, tb. repeat split; try done. lia.
Qed.

Lemma slice0_take {A : Type} (l : list A) (e : Z) :
  0 ≤ e → slice0 l e = take (Z.to_nat e) l.
Proof.
  intros He. unfold slice0.
  destruct (e <? 0) eqn:E; [apply Z.ltb_lt in E; lia|].
  destruct (Z.le_gt_cases e (Z.of_nat (length l))).
  - by rewrite Z.min_l.
  - rewrite Z.min_r by lia. rewrite Nat2Z.id.
    rewrite !take_ge; [done|lia|lia].
Qed.

Lemma assoc_omap_set_eq {A : Type} k (v : A) m : assoc k (omap_set k v m) = Some v.
Proof.
  induction m as [|[k' v'] m IH]; simpl.
  - by rewrite String.eqb_refl.
  - destruct (String.eqb k k') eqn:E; simpl; rewrite ?String.eqb_refl, ?E; done.
Qed.

Lemma assoc_omap_set_ne {A : Type} k k0 (v : A) m :
  k0 ≠ k → assoc k0 (omap_set k v m) = assoc k0 m.
Proof.
  intros Hne. induction m as [|[k' v'] m IH]; simpl.
  - destruct (String.eqb k0 k) eqn:E; [|done]. apply String.eqb_eq in E. done.
  - destruct (String.eqb k k') eqn:E; simpl.
    + apply String.eqb_eq in E as <-.
      destruct (String.eqb k0 k) eqn:E'; [|done]. apply String.eqb_eq in E'. done.
    + by rewrite IH.
Qed.

Lemma is_str_true v s : is_str v s = true → v = JStr s.
Proof.
  destruct v; simpl; try done. intros H. apply String.eqb_eq in H. by subst.
Qed.

Lemma nonempty_true s : nonempty s = true ↔ s ≠ "".
Proof.
  unfold nonempty. destruct (String.eqb s "") eqn:E; simpl.
  - apply String.eqb_eq in E. split; [done|]. intros H. by destruct H.
  - apply String.eqb_neq in E. done.
Qed.

(* ===================================================================== *)
(** ** The feed builder *)
(* ===================================================================== *)

Lemma mapM_app {A B : Type} (f : A → option B) l1 l2 :
  mapM f (l1 ++ l2) = (a ← mapM f l1; b ← mapM f l2; Some (a ++ b)%list).
Proof.
  induction l1 as [|x l1 IH]; simpl; [by destruct (mapM f l2)|].
  destruct (f x); simpl; [|done]. rewrite IH.
  destruct (mapM f l1); simpl; [|done]. by destruct (mapM f l2).
Qed.

Lemma rebuildGlobalFeed_Some (c : AppConfig) (st st' : DataStore) :
  rebuildGlobalFeed c st = Some st' →
  ∃ items sorted, candidates c st = Some items ∧
                  js_sort byDescTime items = Some sorted ∧
                  st' = set_feedItems st (slice0 sorted (feedLimit c)).
Proof.
  unfold rebuildGlobalFeed. intros H.
  destruct (candidates c st) as [items|]; simpl in H; [|done].
  destruct (js_sort byDescTime items) as [sorted|] eqn:Es; simpl in H; [|done].
  injection H as <-. by exists items, sorted.
Qed.

(** C10. The rebuild writes the store's feed and nothing else: whether it
    completes or throws, the four maps are as before; when it completes,
    the new feed, which does not depend on the old one, is put in place by
    one assignment, and when it throws the store is as it was. *)
Theorem rebuildGlobalFeed_frame (c : AppConfig) (st : DataStore) :
  let st' := default st (rebuildGlobalFeed c st) in
  repoInfos st' = repoInfos st ∧
  repoEvents st' = repoEvents st ∧
  commitStats st' = commitStats st ∧
  qualityReports st' = qualityReports st ∧
  (∀ st1, rebuildGlobalFeed c st = Some st1 →
     ∃ items sorted, candidates c st = Some items ∧
                     js_sort byDescTime items = Some sorted ∧
                     st1 = set_feedItems st (slice0 sorted (feedLimit c))) ∧
  (rebuildGlobalFeed c st = None → st' = st) ∧
  ∀ old, rebuildGlobalFeed c (set_feedItems st old) = rebuildGlobalFeed c st.
Proof.
  intros st'. subst st'.
  assert (Hold : ∀ old, rebuildGlobalFeed c (set_feedItems st old) = rebuildGlobalFeed c st)
    by reflexivity.
  destruct (rebuildGlobalFeed c st) as [st1|] eqn:E; simpl.
  - destruct (rebuildGlobalFeed_Some c st st1 E) as (items & sorted & Hc & Hs & ->).
    do 4 (split; [done|]). split; [|done].
    intros st2 [= <-]. by exists items, sorted.
  - do 4 (split; [done|]). done.
Qed.

Lemma candidates_Some (c : AppConfig) (st : DataStore) items :
  candidates c st = Some items →
  ∃ built, mapM eventToFeedItems (allEvents st) = Some built ∧
           mapM (labelled c st) (concat built) = Some items.
Proof.
  unfold candidates. intros H.
  destruct (mapM eventToFeedItems (allEvents st)) as [built|]; simpl in H; [|done].
  by exists built.
Qed.

(** What every item that [eventToFeedItems] returns has: the event's
    repository, no stats and no display name, and a [sha] that converts to
    a string. *)
Lemma commitItem_built created rp act urlBase branch c it :
  commitItem created rp act urlBase branch c = Some it →
  repo it = rp ∧ when it = created ∧ actor it = act ∧ type it = JStr "Commit" ∧
  stats it = None ∧ displayName it = None ∧ is_Some (toStr (sha it)).
Proof.
  unfold commitItem. intros H.
  destruct (get c "message") as [[| | | |m| |]|]; simpl in H; try done.
  destruct (get c "sha") as [csha|]; simpl in H; [|done].
  destruct (toStr csha) as [s|] eqn:Es; simpl in H; [|done].
  destruct (get c "author") as [author|]; simpl in H; [|done].
  destruct (toStr (nullish _ _)); simpl in H; [|done].
  injection H as <-. simpl. rewrite Es. by repeat split.
Qed.

Lemma feedItemsOrThrow_built ev its it :
  feedItemsOrThrow ev = Some its → it ∈ its →
  repo it = __repo ev ∧ when it = ev_get ev "created_at" ∧
  actor it = nullish (get_opt (ev_get ev "actor") "display_login")
                     (get_opt (ev_get ev "actor") "login") ∧
  (type it = JStr "Commit" ∨ type it = typeOf ev) ∧
  stats it = None ∧ displayName it = None ∧ is_Some (toStr (sha it)).
Proof.
  unfold feedItemsOrThrow. intros E Hin.
  destruct (_ && _) in E.
  - destruct (nullish (get_opt _ "ref") _) in E; try done. simpl in E.
    destruct (get_opt _ "commits") as [| | | | |cs|] in E; try done.
    apply mapM_Some_1 in E.
    apply list_elem_of_lookup_1 in Hin as [i Hi].
    destruct (Forall2_lookup_r _ _ _ _ _ E Hi) as (c & _ & Hc).
    apply commitItem_built in Hc as (? & ? & ? & ? & ? & ? & ?).
    do 3 (split; [done|]). split; [by left|]. done.
  - destruct (if is_str _ "PullRequestEvent" then _ else _) as [[[t u] e]|] in E;
      simpl in E; [|done].
    destruct (iconOf _) in E; simpl in E; [|done].
    injection E as <-. apply list_elem_of_singleton in Hin as ->. simpl.
    do 3 (split; [done|]). split; [by right|]. do 2 (split; [done|]). by eexists.
Qed.

Lemma eventToFeedItems_Some ev its :
  eventToFeedItems ev = Some its →
  feedItemsOrThrow ev = Some its ∨ (feedItemsOrThrow ev = None ∧ its = []).
Proof.
  unfold eventToFeedItems. destruct (feedItemsOrThrow ev); [by left; simplify_eq|].
  destruct (toStr _); simpl; [|done]. intros [= <-]. by right.
Qed.

Lemma eventToFeedItems_built ev its it :
  eventToFeedItems ev = Some its → it ∈ its →
  repo it = __repo ev ∧ stats it = None ∧ displayName it = None ∧
  is_Some (toStr (sha it)).
Proof.
  intros H Hin. apply eventToFeedItems_Some in H as [H|[_ ->]];
    [|by apply elem_of_nil in Hin].
  destruct (feedItemsOrThrow_built ev its it H Hin) as (? & _ & _ & _ & ? & ? & ?).
  done.
Qed.

(** The items that the events of a list give, each with its event. *)
Lemma built_elem (evs : list Event) built it :
  mapM eventToFeedItems evs = Some built → it ∈ concat built →
  ∃ ev its, ev ∈ evs ∧ eventToFeedItems ev = Some its ∧ it ∈ its.
Proof.
  intros H Hin. apply mapM_Some_1 in H.
  apply list_elem_of_In, in_concat in Hin as (its & Hits & Hin).
  apply list_elem_of_In, list_elem_of_lookup_1 in Hits as [i Hi].
  destruct (Forall2_lookup_r _ _ _ _ _ H Hi) as (ev & Hev & Hf).
  exists ev, its. split; [by eapply list_elem_of_lookup_2|].
  split; [done|by apply list_elem_of_In].
Qed.

(** The enrichment of an item under a given stat cache, where the item's
    [sha] converts to a string. *)
Lemma withStats_Some (st : DataStore) (it : FeedItem) s :
  toStr (sha it) = Some s →
  withStats st it =
    Some (if is_str (type it) "Commit" && truthy (sha it) then
            match commitStats st !! (repo it ++ "@" ++ s) with
            | Some cached => set_stats it cached
            | None => it
            end
          else it).
Proof.
  intros Hs. unfold withStats. destruct (_ && _); [|done]. by rewrite Hs.
Qed.

Lemma withStats_withStat (st : DataStore) (it : FeedItem) :
  is_Some (toStr (sha it)) → withStats st it = Some (withStat (commitStats st) it).
Proof.
  intros [s Hs]. rewrite (withStats_Some st it s Hs). unfold withStat, statFor.
  destruct (_ && _); [|done]. rewrite Hs. simpl.
  by destruct (commitStats st !! _).
Qed.


(** A candidate under a grown cache is the candidate of before, with the
    stat of the grown cache. *)
Lemma labelled_grow (c : AppConfig) (st : DataStore) (m' : gmap string CommitStats) it x :
  commitStats st ⊆ m' →
  labelled c st it = Some x →
  labelled c (set_commitStats st m') it = Some (withStat m' x).
Proof.
  intros Hsub. unfold labelled, withStats, withStat, statFor. simpl.
  destruct (is_str (type it) "Commit" && truthy (sha it)) eqn:Ec; simpl.
  - destruct (toStr (sha it)) as [s|] eqn:Es; simpl; [|done].
    destruct (commitStats st !! (repo it ++ "@" ++ s)) as [v|] eqn:E.
    + rewrite (lookup_weaken _ _ _ _ E Hsub).
      intros [= <-]. simpl. rewrite Ec, Es. simpl.
      by rewrite (lookup_weaken _ _ _ _ E Hsub).
    + intros [= <-]. simpl. rewrite Ec, Es. simpl.
      by destruct (m' !! (repo it ++ "@" ++ s)).
  - intros [= <-]. simpl. by rewrite Ec.
Qed.


Lemma label_sha m0 it n : sha (set_displayName (withStat m0 it) n) = sha it.
Proof. unfold withStat. by destruct (statFor m0 it). Qed.

Lemma withStat_when m x : when (withStat m x) = when x.
Proof. unfold withStat. by destruct (statFor m x). Qed.

Lemma sort_insert_map {A B : Type} (G : A → B) (cmp : A → A → option (option Z))
    (cmp' : B → B → option (option Z)) x l :
  (∀ a b, cmp' (G a) (G b) = cmp a b) →
  sort_insert cmp' (G x) (List.map G l) = List.map G <$> sort_insert cmp x l.
Proof.
  intros H. induction l as [|y l IH]; [done|].
  simpl. rewrite H. destruct (cmp x y) as [d|]; simpl; [|done].
  destruct (positive d); [|done].
  rewrite IH. by destruct (sort_insert cmp x l).
Qed.

Lemma js_sort_map {A B : Type} (G : A → B) (cmp : A → A → option (option Z))
    (cmp' : B → B → option (option Z)) l :
  (∀ a b, cmp' (G a) (G b) = cmp a b) →
  js_sort cmp' (List.map G l) = List.map G <$> js_sort cmp l.
Proof.
  intros H. induction l as [|x l IH]; [done|].
  simpl List.map. rewrite !js_sort_cons, IH.
  destruct (js_sort cmp l) as [r|]; simpl; [|done]. by apply sort_insert_map.
Qed.

Lemma slice0_map {A B : Type} (G : A → B) (l : list A) e :
  slice0 (List.map G l) e = List.map G (slice0 l e).
Proof. unfold slice0. by rewrite length_map, firstn_map. Qed.

Lemma slice0_elem {A : Type} (l : list A) (e : Z) x : x ∈ slice0 l e → x ∈ l.
Proof.
  unfold slice0. intros H. apply elem_of_take in H as (i & Hi & _).
  by eapply list_elem_of_lookup_2.
Qed.

(** A rebuild after the stat cache has grown completes where the rebuild
    before did, and gives the same items in the same places, each with the
    stat of the grown cache. *)
Lemma rebuild_grow (c : AppConfig) (st st1 : DataStore) (m' : gmap string CommitStats) :
  rebuildGlobalFeed c st = Some st1 →
  commitStats st ⊆ m' →
  ∃ st2, rebuildGlobalFeed c (set_commitStats st m') = Some st2 ∧
         feedItems st2 = List.map (withStat m') (feedItems st1).
Proof.
  intros H Hsub.
  destruct (rebuildGlobalFeed_Some c st st1 H) as (items & sorted & Hc & Hs & ->).
  destruct (candidates_Some c st items Hc) as (built & Hb & Hl).
  assert (Hc' : candidates c (set_commitStats st m') = Some (List.map (withStat m') items)).
  { unfold candidates.
    change (allEvents (set_commitStats st m')) with (allEvents st). rewrite Hb. simpl.
    apply mapM_Some_2, Forall2_fmap_r. apply mapM_Some_1 in Hl.
    eapply Forall2_impl; [exact Hl|]. intros it x Hx. by apply labelled_grow. }
  unfold rebuildGlobalFeed. rewrite Hc'. simpl.
  rewrite (js_sort_map (withStat m') byDescTime byDescTime), Hs.
  - simpl. eexists. split; [done|]. simpl. by rewrite slice0_map.
  - intros a b. unfold byDescTime. by rewrite !withStat_when.
Qed.

(** Where an item of the rebuilt feed comes from. *)
Lemma feed_item_built (c : AppConfig) (st st1 : DataStore) (x : FeedItem) :
  rebuildGlobalFeed c st = Some st1 → x ∈ feedItems st1 →
  ∃ ev its it, ev ∈ allEvents st ∧ eventToFeedItems ev = Some its ∧ it ∈ its ∧
    x = set_displayName (withStat (commitStats st) it) (displayNameOf c (repo it)).
Proof.
  intros H Hx.
  destruct (rebuildGlobalFeed_Some c st st1 H) as (items & sorted & Hc & Hs & ->).
  destruct (candidates_Some c st items Hc) as (built & Hb & Hl).
  simpl in Hx. apply slice0_elem in Hx.
  apply (js_sort_elem _ _ _ _ Hs) in Hx.
  apply mapM_Some_1 in Hl.
  apply list_elem_of_lookup_1 in Hx as [i Hi].
  destruct (Forall2_lookup_r _ _ _ _ _ Hl Hi) as (it & Hit & Hlab).
  apply list_elem_of_lookup_2 in Hit.
  destruct (built_elem _ _ _ Hb Hit) as (ev & its & Hev & Hits & Hin).
  exists ev, its, it. do 3 (split; [done|]).
  destruct (eventToFeedItems_built ev its it Hits Hin) as (_ & _ & _ & Hsha).
  unfold labelled in Hlab. rewrite (withStats_withStat st it Hsha) in Hlab.
  simpl in Hlab. by injection Hlab as <-.
Qed.


Lemma allEvents_split (st : DataStore) m1 k pre ev post m2 :
  repoEvents st = (m1 ++ (k, pre ++ ev :: post) :: m2)%list →
  allEvents st =
    ((concat (List.map snd m1) ++ pre) ++ ev :: post ++ concat (List.map snd m2))%list.
Proof.
  intros H. unfold allEvents. rewrite H, List.map_app, concat_app. simpl.
  by rewrite <- !app_assoc.
Qed.

Lemma printable_false v : printable v = false → toStr v = None.
Proof. unfold printable. by destruct (toStr v). Qed.

Lemma printable_true v : printable v = true → is_Some (toStr v).
Proof. unfold printable. destruct (toStr v); [by eexists|done]. Qed.

(** An event whose type does not convert to a string: the [try] block
    throws at the icon, and so does the handler. *)
Lemma unprintable_type_throws ev :
  printable (typeOf ev) = false →
  feedItemsOrThrow ev = None ∧ eventToFeedItems ev = None.
Proof.
  intros Hp%printable_false. unfold typeOf in Hp.
  assert (H : feedItemsOrThrow ev = None).
  { unfold feedItemsOrThrow, iconOf.
    destruct (nullish (ev_get ev "type") (JStr "default")) as [| |[|]| | |vs|fs] eqn:Et;
      try done; cbn -[toStr]; by rewrite Hp. }
  split; [done|]. unfold eventToFeedItems. by rewrite H, Hp.
Qed.

(** C8. An event whose items cannot be built (the [try] block throws).
    Where the event's type converts to a string, the handler returns no
    item, and the rebuild gives what the same cache gives with that event
    taken out of its batch: it completes for the one exactly when it does
    for the other, with the same feed. Where the type does not convert (an
    object with a [toString] key of its own), the [try] block always
    throws and the handler throws as well: [eventToFeedItems] returns
    nothing, and every rebuild over a cache that holds the event throws,
    whatever the other events are. *)
Theorem malformed_event_handling :
  (∀ (c : AppConfig) (st : DataStore) (ev : Event) m1 k pre post m2,
     feedItemsOrThrow ev = None →
     printable (typeOf ev) = true →
     repoEvents st = (m1 ++ (k, pre ++ ev :: post) :: m2)%list →
     eventToFeedItems ev = Some [] ∧
     feedItems <$> rebuildGlobalFeed c st =
       feedItems <$> rebuildGlobalFeed c
                       (set_repoEvents st (m1 ++ (k, pre ++ post) :: m2)%list)) ∧
  (∀ ev : Event,
     printable (typeOf ev) = false →
     feedItemsOrThrow ev = None ∧
     eventToFeedItems ev = None ∧
     ∀ (c : AppConfig) (st : DataStore), ev ∈ allEvents st → rebuildGlobalFeed c st = None).
Proof.
  split.
  - intros c st ev m1 k pre post m2 Hthrow [s Hs]%printable_true Hst.
    assert (Hnil : eventToFeedItems ev = Some []).
    { unfold eventToFeedItems. rewrite Hthrow. unfold typeOf in Hs. by rewrite Hs. }
    split; [done|].
    set (st0 := set_repoEvents st _).
    assert (Hc : candidates c st = candidates c st0).
    { unfold candidates.
      rewrite (allEvents_split st _ _ _ _ _ _ Hst).
      assert (H0 : allEvents st0 =
                   ((concat (List.map snd m1) ++ pre) ++ post ++ concat (List.map snd m2))%list).
      { unfold allEvents, st0. simpl. rewrite List.map_app, concat_app. simpl.
        by rewrite <- !app_assoc. }
      rewrite H0.
      set (front := (concat (List.map snd m1) ++ pre)%list).
      set (back := (post ++ concat (List.map snd m2))%list).
      rewrite (mapM_app _ front (ev :: back)), (mapM_app _ front back).
      simpl. rewrite Hnil. simpl.
      destruct (mapM eventToFeedItems front) as [b1|]; simpl; [|done].
      destruct (mapM eventToFeedItems back) as [b2|]; simpl; [|done].
      by rewrite !concat_app. }
    unfold rebuildGlobalFeed. rewrite <- Hc.
    destruct (candidates c st) as [items|]; simpl; [|done].
    by destruct (js_sort byDescTime items).
  - intros ev Hp. destruct (unprintable_type_throws ev Hp) as [H1 H2].
    split; [done|]. split; [done|].
    intros c st Hev. unfold rebuildGlobalFeed, candidates.
    rewrite (proj2 (mapM_None eventToFeedItems (allEvents st))); [done|].
    apply Exists_exists. by exists ev.
Qed.

(** C2 (as amended). For a limit that is not negative, a rebuild that
    completes leaves at most [limit] items in the feed, and one that throws
    leaves the feed, hence its length, as it was: a feed within the limit
    stays within it. When every candidate's timestamp parses, the rebuild
    completes, the feed is sorted by timestamp, most recent first, and it
    keeps the most recent candidates: the candidates are the feed together
    with the dropped items, no dropped item is more recent than a kept one,
    and the feed has exactly [limit] items when there are more candidates
    than that. *)
Theorem rebuildGlobalFeed_bound (c : AppConfig) (st : DataStore) :
  0 ≤ feedLimit c →
  (∀ st', rebuildGlobalFeed c st = Some st' →
     Z.of_nat (length (feedItems st')) ≤ feedLimit c) ∧
  (∀ items, candidates c st = Some items →
     Forall (λ it, is_Some (feedTime it)) items →
     ∃ st', rebuildGlobalFeed c st = Some st' ∧
       let feed := feedItems st' in
       StronglySorted (recent_ge feedTime) feed ∧
       (feedLimit c < Z.of_nat (length items) →
        Z.of_nat (length feed) = feedLimit c) ∧
       ∃ dropped,
         Permutation items (feed ++ dropped) ∧
         ∀ x y, x ∈ feed → y ∈ dropped → recent_ge feedTime x y) ∧
  (Z.of_nat (length (feedItems st)) ≤ feedLimit c →
   Z.of_nat (length (feedItems (default st (rebuildGlobalFeed c st)))) ≤ feedLimit c).
Proof.
  intros Hlim.
  assert (Hbound : ∀ st', rebuildGlobalFeed c st = Some st' →
                     Z.of_nat (length (feedItems st')) ≤ feedLimit c).
  { intros st' H.
    destruct (rebuildGlobalFeed_Some c st st' H) as (items & sorted & _ & _ & ->).
    simpl. rewrite slice0_take by done. rewrite length_take. lia. }
  split; [exact Hbound|]. split.
  2:{ intros Hold. destruct (rebuildGlobalFeed c st) as [st'|] eqn:E; simpl; [|done].
      by apply Hbound. }
  - intros items Hc Hvalid.
    destruct (js_sort_sorted byDescTime (recent_ge feedTime)
                (recent_ge_trans feedTime) items) as (sorted & Hs & Hsorted).
    { apply key_cmp_decides; [|exact Hvalid].
      intros a b ta tb _ _ Ha Hb. unfold byDescTime, feedTime in *.
      destruct (Date_getTime (when a)) as [[?|]|]; try done.
      destruct (Date_getTime (when b)) as [[?|]|]; try done.
      simpl in *. by simplify_eq. }
    unfold rebuildGlobalFeed. rewrite Hc. simpl. rewrite Hs. simpl.
    eexists. split; [done|]. simpl. rewrite slice0_take by done.
    assert (Hlen : length sorted = length items) by (by eapply js_sort_length).
    rewrite <- (take_drop (Z.to_nat (feedLimit c)) sorted) in Hsorted.
    split; [by eapply StronglySorted_app_1_l|].
    split; [intros Hmore; rewrite length_take; lia|].
    exists (drop (Z.to_nat (feedLimit c)) sorted). split.
    + rewrite take_drop. symmetry. by eapply js_sort_perm.
    + intros x y Hx Hy. by eapply StronglySorted_app_1_elem_of.
Qed.

Lemma get_Some_opt (v : JsVal) k x k' : get v k = Some x → get v k' = Some (get_opt v k').
Proof. unfold get_opt. by destruct v. Qed.

Lemma commitItem_ok created rp act urlBase branch c m s b :
  get c "message" = Some (JStr m) →
  toStr (get_opt c "sha") = Some s →
  toStr (nullish (nullish (get_opt (get_opt c "author") "name") act) (JStr "")) = Some b →
  commitItem created rp act urlBase branch c =
    Some {| type := JStr "Commit"; icon := IconText "📝"; when := created; repo := rp;
            actor := act;
            title := JStr ("Commit to " ++ branch ++ ": " ++ first_line m);
            url := JStr (urlBase ++ "/commit/" ++ s);
            sha := get_opt c "sha";
            extra := "by " ++ b;
            stats := None; displayName := None |}.
Proof.
  intros Hm Hs Hb. unfold commitItem. rewrite Hm. simpl.
  rewrite (get_Some_opt c "message" _ "sha" Hm). simpl. rewrite Hs. simpl.
  rewrite (get_Some_opt c "message" _ "author" Hm). simpl. rewrite Hb. reflexivity.
Qed.

Lemma commitItem_no_message created rp act urlBase branch c :
  (∀ m, get c "message" ≠ Some (JStr m)) →
  commitItem created rp act urlBase branch c = None.
Proof.
  intros H. unfold commitItem.
  destruct (get c "message") as [[| | | |m| |]|] eqn:E; try done.
  by destruct (H m).
Qed.

Lemma branch_of_ref b : replace_first "refs/heads/" "" ("refs/heads/" ++ b) = b.
Proof. reflexivity. Qed.

(** The first line of a text: what precedes its first line break. *)
Lemma first_line_spec m :
  ∃ rest, m = first_line m ++ rest ∧
          has_char newline (first_line m) = false ∧
          (rest = "" ∨ ∃ r, rest = String newline r).
Proof.
  induction m as [|ch m (rest & Hm & Hl & Hr)]; [by exists ""; auto|].
  simpl. destruct (Ascii.eqb ch newline) eqn:E.
  - apply Ascii.eqb_eq in E as ->. exists (String newline m). split; [done|].
    split; [done|]. right. by eexists.
  - exists rest. split.
    { change (String ch m = String ch (first_line m ++ rest)). by f_equal. }
    split; [|done].
    simpl. by rewrite E.
Qed.

(** C5 (as amended). A push event whose payload carries a list of commits
    and a ref that is a string, or none. When every commit of the list has
    a string message, and its SHA and the name shown for its author
    convert to strings, the event expands to one item per commit, in
    order: of type [Commit], tagged with the commit's SHA, linked to the
    commit's URL, and titled with the branch (the ref without its
    [refs/heads/] prefix) and the first line of the commit's message, which
    is the message up to its first line break. When a commit of the list
    has no string message, the event gives no item at all. *)
Theorem push_expansion (ev : Event) (cs : list JsVal) (r : string) :
  ev_get ev "type" = JStr "PushEvent" →
  get_opt (ev_get ev "payload") "commits" = JArr cs →
  nullish (get_opt (ev_get ev "payload") "ref") (JStr "") = JStr r →
  let branch := replace_first "refs/heads/" "" r in
  let act := nullish (get_opt (ev_get ev "actor") "display_login")
                     (get_opt (ev_get ev "actor") "login") in
  (∀ b, r = "refs/heads/" ++ b → branch = b) ∧
  (r = "" → branch = "") ∧
  (Forall (λ c, (∃ m, get c "message" = Some (JStr m)) ∧
                printable (get_opt c "sha") = true ∧
                printable (nullish (nullish (get_opt (get_opt c "author") "name") act)
                                   (JStr "")) = true) cs →
   ∃ items, eventToFeedItems ev = Some items ∧
     length items = length cs ∧
     ∀ (i : nat) c, cs !! i = Some c →
       ∃ it m line rest s,
         items !! i = Some it ∧
         get c "message" = Some (JStr m) ∧
         m = line ++ rest ∧ has_char newline line = false ∧
         (rest = "" ∨ ∃ more, rest = String newline more) ∧
         toStr (get_opt c "sha") = Some s ∧
         type it = JStr "Commit" ∧
         sha it = get_opt c "sha" ∧
         url it = JStr ("https://github.com/" ++ __repo ev ++ "/commit/" ++ s) ∧
         title it = JStr ("Commit to " ++ branch ++ ": " ++ line)) ∧
  (Exists (λ c, ∀ m, get c "message" ≠ Some (JStr m)) cs →
   eventToFeedItems ev = Some []).
Proof.
  intros Hty Hcs Href branch act.
  assert (Hp : nullish (ev_get ev "payload") (JObj []) = ev_get ev "payload").
  { destruct (ev_get ev "payload"); try done; by cbv in Hcs. }
  assert (Hbody : feedItemsOrThrow ev =
            mapM (commitItem (ev_get ev "created_at") (__repo ev) act
                    ("https://github.com/" ++ __repo ev) branch) cs).
  { unfold feedItemsOrThrow. rewrite Hty, Hp, Hcs, Href. reflexivity. }
  split; [intros b ->; apply branch_of_ref|].
  split; [by intros ->|].
  split.
  - intros Hgood.
    set (f := commitItem _ _ _ _ _) in Hbody.
    assert (Hall : Forall (is_Some ∘ f) cs).
    { eapply Forall_impl; [exact Hgood|].
      intros c ([m Hm] & [s Hs]%printable_true & [b Hb]%printable_true). simpl. unfold f.
      erewrite commitItem_ok by done. by eexists. }
    apply mapM_is_Some_2 in Hall as [items Hitems].
    exists items. unfold eventToFeedItems. rewrite Hbody, Hitems.
    split; [done|]. apply mapM_Some_1 in Hitems.
    split; [symmetry; by eapply Forall2_length|].
    intros i c Hi.
    destruct (Forall2_lookup_l _ _ _ _ _ Hitems Hi) as (it & Hit & Hf).
    rewrite Forall_forall in Hgood.
    destruct (Hgood c) as ([m Hm] & [s Hs]%printable_true & [b Hb]%printable_true);
      [by eapply list_elem_of_lookup_2|].
    destruct (first_line_spec m) as (rest & Hsplit & Hline & Hrest).
    exists it, m, (first_line m), rest, s.
    unfold f in Hf. erewrite commitItem_ok in Hf by done.
    injection Hf as <-. simpl. by repeat split.
  - intros Hbad. unfold eventToFeedItems. rewrite Hbody.
    rewrite (proj2 (mapM_None _ cs)).
    + by rewrite Hty.
    + eapply Exists_impl; [exact Hbad|]. intros c Hc.
      by apply commitItem_no_message.
Qed.

(* ===================================================================== *)
(** ** The conditional client *)
(* ===================================================================== *)

Lemma ghHeaders_validator tk (extra : gmap string string) :
  ghHeaders tk extra !! "if-none-match" = extra !! "if-none-match".
Proof.
  unfold ghHeaders. rewrite lookup_union.
  assert (H : ∀ h : gmap string string,
            h !! "if-none-match" = None →
            (match tk with
             | Some t => if nonempty t then <["authorization" := "Bearer " ++ t]> h else h
             | None => h
             end) !! "if-none-match" = None).
  { intros h Hh. destruct tk as [t|]; [|done].
    destruct (nonempty t); [|done]. by rewrite lookup_insert_ne. }
  rewrite H; [by destruct (extra !! "if-none-match")|].
  rewrite lookup_insert_ne by done. by rewrite lookup_singleton_ne.
Qed.

Lemma issue_validator url slot key g :
  req_headers (issue (fetchJsonWithEtag url (Some (slot, key))) g) !! "if-none-match" =
    match slot_map slot (etags g) !! key with
    | Some t => if nonempty t then Some t else None
    | None => None
    end.
Proof.
  simpl. rewrite ghHeaders_validator.
  destruct (slot_map slot (etags g) !! key) as [t|]; [|done].
  destruct (nonempty t); [by rewrite lookup_singleton_eq|done].
Qed.

Lemma slot_map_set slot key e c : slot_map slot (slot_set slot key e c) !! key = Some e.
Proof. destruct slot; simpl; apply lookup_insert_eq. Qed.

(** What [await fetchJsonWithEtag(url, etagKey)] comes to, by response. *)
Lemma await_fetch upstream url etagKey g :
  let req := issue (fetchJsonWithEtag url etagKey) g in
  let out := await upstream (fetchJsonWithEtag url etagKey) g in
  match upstream req with
  | None => out.1 = Rejected TransportFailure ∧ etags out.2 = etags g
  | Some res =>
      if status res =? 304 then out.1 = Fulfilled NotModified304 ∧ etags out.2 = etags g
      else if negb (ok res) then (∃ msg, out.1 = Rejected (UpstreamError msg)) ∧ etags out.2 = etags g
      else match body_json res with
           | None => out.1 = Rejected BodyError ∧ etags out.2 = etags g
           | Some data =>
               out.1 = Fulfilled (Ok200 data) ∧
               etags out.2 =
                 match headers res !! "etag", etagKey with
                 | Some etag, Some (slot, key) =>
                     if nonempty etag then slot_set slot key etag (etags g) else etags g
                 | _, _ => etags g
                 end
           end
  end.
Proof.
  intros req out. subst req out. unfold await.
  set (req := issue _ g). simpl resume.
  destruct (upstream req) as [res|]; [|done].
  destruct (status res =? 304); [done|].
  destruct (negb (ok res)); [split; [by eexists|done]|].
  destruct (body_json res) as [data|]; [|done].
  split; [done|].
  destruct (headers res !! "etag") as [etag|]; [|by destruct etagKey as [[??]|]].
  destruct etagKey as [[slot key]|]; [|done].
  by destruct (nonempty etag).
Qed.

(** C6. A "not modified" (304) answer makes the fetch return the
    [Unchanged] sentinel and leaves the token cache as it was; the cache
    changes only when a successful answer with a readable body carries a
    token, which is then stored under the key; and against an upstream that
    honours validation tokens and does not change, a second fetch right
    after a first one returns [Unchanged] and leaves the entry, which holds
    the upstream's token, as it was. *)
Theorem conditional_fetch (upstream : Request → option Response) (url : string)
    (etagKey : option (EtagSlot * string)) (g : GitHubClient) :
  let req := issue (fetchJsonWithEtag url etagKey) g in
  let out := await upstream (fetchJsonWithEtag url etagKey) g in
  (∀ res, upstream req = Some res → status res = 304 →
     out.1 = Fulfilled NotModified304 ∧ etags out.2 = etags g) ∧
  (etags out.2 ≠ etags g →
     ∃ res data slot key etag,
       upstream req = Some res ∧ ok res = true ∧ status res ≠ 304 ∧
       body_json res = Some data ∧ etagKey = Some (slot, key) ∧
       headers res !! "etag" = Some etag ∧ etag ≠ "" ∧
       out.1 = Fulfilled (Ok200 data) ∧
       etags out.2 = slot_set slot key etag (etags g)) ∧
  (∀ slot key tag, etagKey = Some (slot, key) → honoursValidator upstream url tag →
     let out2 := await upstream (fetchJsonWithEtag url etagKey) out.2 in
     out2.1 = Fulfilled NotModified304 ∧
     etags out2.2 = etags out.2 ∧
     slot_map slot (etags out2.2) !! key = Some tag).
Proof.
  intros req out.
  pose proof (await_fetch upstream url etagKey g) as H1. fold req out in H1. simpl in H1.
  split; [|split].
  - intros res Hres H304. rewrite Hres in H1.
    by rewrite H304 in H1.
  - intros Hne. destruct (upstream req) as [res|] eqn:Hres; [|by destruct H1].
    destruct (status res =? 304) eqn:E304; [by destruct H1|].
    destruct (negb (ok res)) eqn:Eok; [by destruct H1|].
    destruct (body_json res) as [data|] eqn:Hbody; [|by destruct H1].
    destruct H1 as [Hout Het].
    destruct (headers res !! "etag") as [etag|] eqn:Hhdr; [|done].
    destruct etagKey as [[slot key]|]; [|done].
    destruct (nonempty etag) eqn:Ene; [|done].
    exists res, data, slot, key, etag.
    apply negb_false_iff in Eok. apply Z.eqb_neq in E304.
    apply nonempty_true in Ene. by repeat split.
  - intros slot key tag -> [Htag Hup].
    assert (Hfirst : slot_map slot (etags out.2) !! key = Some tag).
    { destruct (Hup req eq_refl) as (res & Hres & Hcase).
      rewrite Hres in H1. unfold req in Hcase. rewrite issue_validator in Hcase.
      destruct (decide _) as [Hd|Hd] in Hcase.
      - rewrite Hcase in H1. simpl in H1. destruct H1 as [_ ->].
        destruct (slot_map slot (etags g) !! key) as [t|]; [|done].
        destruct (nonempty t); by simplify_eq.
      - destruct Hcase as (Hst & Het & [data Hd']).
        unfold ok in H1. rewrite Hst, Het, Hd' in H1. simpl in H1.
        apply nonempty_true in Htag. rewrite Htag in H1. destruct H1 as [_ ->].
        apply slot_map_set. }
    intros out2.
    pose proof (await_fetch upstream url (Some (slot, key)) out.2) as H2.
    cbv zeta in H2. fold out2 in H2.
    set (req2 := issue (fetchJsonWithEtag url (Some (slot, key))) out.2) in *.
    destruct (Hup req2 eq_refl) as (res2 & Hres2 & Hcase2).
    unfold req2 in Hcase2. rewrite issue_validator, Hfirst in Hcase2.
    apply nonempty_true in Htag. rewrite Htag in Hcase2.
    rewrite decide_True in Hcase2 by done.
    fold req2 in Hres2. rewrite Hres2, Hcase2 in H2. simpl in H2.
    destruct H2 as [-> ->]. done.
Qed.

(* ===================================================================== *)
(** ** The per-repository update *)
(* ===================================================================== *)

Lemma fetchJsonWithEtag_quiet url etagKey : quiet (fetchJsonWithEtag url etagKey).
Proof.
  intros [res|] g; simpl; [|done].
  destruct (status res =? 304); [done|].
  destruct (negb (ok res)); [done|].
  destruct (body_json res); [|done]. simpl.
  destruct (headers res !! "etag") as [e|]; [|done].
  destruct etagKey as [[slot key]|]; [|done].
  by destruct (nonempty e).
Qed.

Lemma andThen_quiet {A B : Type} (c : Async A) (k : A → Settled B) :
  quiet c → quiet (andThen c k).
Proof.
  intros Hc r g. simpl. specialize (Hc r g).
  by destruct (resume c r g) as [[a|e] g'].
Qed.

Lemma getRepoInfo_quiet repoId : quiet (getRepoInfo repoId).
Proof. apply andThen_quiet, fetchJsonWithEtag_quiet. Qed.

Lemma getRepoEvents_quiet repoId : quiet (getRepoEvents repoId).
Proof. apply andThen_quiet, fetchJsonWithEtag_quiet. Qed.

(** A call of [getCommitStats] is made exactly for a SHA that converts to
    a string, and asks for that commit. *)
Lemma getCommitStats_Some repoId sha0 call :
  getCommitStats repoId sha0 = Some call →
  ∃ s, toStr sha0 = Some s ∧ quiet call ∧
       ∀ g, req_url (issue call g) = commitUrl repoId s.
Proof.
  unfold getCommitStats. destruct (toStr sha0) as [s|]; simpl; [|done].
  intros [= <-]. exists s. split; [done|]. split; [|done].
  apply andThen_quiet, fetchJsonWithEtag_quiet.
Qed.

Lemma getCommitStats_None repoId sha0 :
  getCommitStats repoId sha0 = None ↔ toStr sha0 = None.
Proof. unfold getCommitStats. by destruct (toStr sha0). Qed.

Lemma allSettled2_sent {A B : Type} upstream (ca : Async A) (cb : Async B) g :
  quiet ca → quiet cb →
  sent (allSettled2 upstream ca cb g).2 = (sent g ++ [issue ca g; issue cb g])%list.
Proof.
  intros Ha Hb. unfold allSettled2.
  specialize (Ha (upstream (issue ca g)) (log_sent g [issue ca g; issue cb g])).
  destruct (resume ca _ _) as [a g1]. simpl in Ha.
  specialize (Hb (upstream (issue cb g)) g1).
  destruct (resume cb _ _) as [b g2]. simpl in *. congruence.
Qed.

Lemma allSettled_sent {A : Type} upstream (cs : list (option (Async A))) g :
  Forall (λ c, ∀ c', c = Some c' → quiet c') cs →
  sent (allSettled upstream cs g).2 =
    (sent g ++ omap (option_map (λ c, issue c g)) cs)%list.
Proof.
  intros Hq. unfold allSettled.
  set (reqs := omap _ cs).
  assert (H : ∀ (l : list (option (Async A))) acc g0,
            Forall (λ c, ∀ c', c = Some c' → quiet c') l →
            sent (foldl (λ '(acc, g1) c,
                          match c with
                          | Some c =>
                              let '(r, g') := resume c (upstream (issue c g)) g1 in
                              ((acc ++ [r])%list, g')
                          | None => ((acc ++ [Rejected TypeError])%list, g1)
                          end) (acc, g0) l).2 = sent g0).
  { induction l as [|c0 l IH]; intros acc g0 Hl; [done|].
    apply Forall_cons in Hl as [Hc Hl]. simpl.
    destruct c0 as [c0|]; [|by rewrite IH].
    specialize (Hc c0 eq_refl (upstream (issue c0 g)) g0).
    destruct (resume c0 _ g0) as [r0 g'] eqn:E. simpl in Hc.
    rewrite IH by done. done. }
  by rewrite H.
Qed.

Lemma storeStats_frame repoId asked stats0 st :
  repoInfos (storeStats repoId asked stats0 st) = repoInfos st ∧
  repoEvents (storeStats repoId asked stats0 st) = repoEvents st ∧
  feedItems (storeStats repoId asked stats0 st) = feedItems st ∧
  qualityReports (storeStats repoId asked stats0 st) = qualityReports st.
Proof.
  revert asked st. induction stats0 as [|s l IH]; intros asked st; [done|].
  simpl. destruct s as [[v|]|]; try apply IH.
  - destruct (toStr (cs_sha v)) as [k|]; [|done].
    destruct (IH (tl asked)
                (set_commitStats st (<[repoId ++ "@" ++ k := v]> (commitStats st))))
      as (-> & -> & -> & ->). done.
  - destruct (toStr (hd JUndef asked)); [apply IH|done].
Qed.

(** What [updateRepo] leaves in the events cache. *)
Lemma updateRepo_repoEvents upstream r st g :
  repoEvents (updateRepo upstream r st g).1 =
    match eventsResult upstream r g with
    | Fulfilled evs =>
        if (0 <? length evs)%nat || negb (omap_has (id r) (repoEvents st))
        then omap_set (id r) evs (repoEvents st)
        else repoEvents st
    | Rejected _ => repoEvents st
    end.
Proof.
  unfold updateRepo, eventsResult.
  destruct (allSettled2 _ _ _ _) as [[infoRes eventsRes] g1]. simpl.
  assert (H1 : repoEvents (storeInfo r infoRes st) = repoEvents st)
    by (by destruct infoRes as [[?|]|]).
  destruct eventsRes as [evs|e]; [|done].
  assert (H2 : repoEvents (storeEvents r evs (storeInfo r infoRes st)) =
               if (0 <? length evs)%nat || negb (omap_has (id r) (repoEvents st))
               then omap_set (id r) evs (repoEvents st) else repoEvents st).
  { unfold storeEvents. rewrite H1. by destruct (_ || _). }
  destruct (collectCommits evs ≫= _) as [asked|]; [|done].
  destruct (allSettled _ _ _) as [stats0 g2]. simpl.
  destruct (storeStats_frame (id r) asked stats0
              (storeEvents r evs (storeInfo r infoRes st))) as (_ & -> & _). done.
Qed.

Lemma uncachedOnly_ext st st' repoId shas :
  commitStats st' = commitStats st →
  uncachedOnly st' repoId shas = uncachedOnly st repoId shas.
Proof.
  intros H. induction shas as [|v shas IH]; [done|].
  simpl. by rewrite IH, H.
Qed.

(** What [updateRepo] asks for after its two opening fetches. *)
Lemma updateRepo_commitFetches upstream r st g :
  List.map req_url (commitFetches upstream r st g) =
    match eventsResult upstream r g with
    | Fulfilled evs =>
        match collectCommits evs ≫= toFetch st (id r) with
        | Some asked => omap (λ v, commitUrl (id r) <$> toStr v) asked
        | None => []
        end
    | Rejected _ => []
    end.
Proof.
  unfold commitFetches, updateRepo, eventsResult.
  pose proof (allSettled2_sent upstream (getRepoInfo (id r)) (getRepoEvents (id r)) g
                (getRepoInfo_quiet _) (getRepoEvents_quiet _)) as Hsent.
  destruct (allSettled2 _ _ _ _) as [[infoRes eventsRes] g1]. simpl in *.
  assert (Hdrop : ∀ extra : list Request,
            drop (length (sent g) + 2) (sent g1 ++ extra) = extra).
  { intros extra. rewrite Hsent.
    apply drop_app_length'. rewrite length_app. simpl. lia. }
  assert (Hnone : drop (length (sent g) + 2) (sent g1) = []).
  { rewrite <- (app_nil_r (sent g1)). apply Hdrop. }
  destruct eventsRes as [evs|e]; simpl; [|by rewrite Hnone].
  set (st2 := storeEvents r evs (storeInfo r infoRes st)).
  assert (H2 : commitStats st2 = commitStats st).
  { subst st2. unfold storeEvents. destruct (_ || _); by destruct infoRes as [[?|]|]. }
  assert (Ht : ∀ cs, toFetch st2 (id r) cs = toFetch st (id r) cs).
  { intros cs. unfold toFetch. by rewrite (uncachedOnly_ext st st2). }
  destruct (collectCommits evs) as [cs|]; simpl; [|by rewrite Hnone].
  rewrite Ht.
  destruct (toFetch st (id r) cs) as [asked|]; simpl; [|by rewrite Hnone].
  pose proof (allSettled_sent upstream (List.map (getCommitStats (id r)) asked) g1) as Hs.
  destruct (allSettled _ _ _) as [stats0 g2]. simpl in *.
  rewrite Hs, Hdrop.
  - clear. induction asked as [|v asked IH]; [done|].
    simpl. destruct (getCommitStats (id r) v) as [call|] eqn:E; simpl.
    + destruct (getCommitStats_Some _ _ _ E) as (s & -> & _ & Hurl).
      rewrite Hurl. simpl. f_equal. exact IH.
    + apply getCommitStats_None in E. rewrite E. exact IH.
  - apply Forall_forall. intros c Hc c' ->.
    apply list_elem_of_In, in_map_iff in Hc as (s0 & Hs0 & _).
    by destruct (getCommitStats_Some _ _ _ Hs0) as (_ & _ & ? & _).
Qed.

(** A "not modified" answer to the events request gives the empty batch. *)
Lemma unchanged_events_empty upstream r g res :
  upstream (eventsRequest r g) = Some res → status res = 304 →
  eventsResult upstream r g = Fulfilled [].
Proof.
  intros Hres H304. unfold eventsResult, allSettled2, eventsRequest in *.
  destruct (resume (getRepoInfo (id r)) _ _) as [a g1].
  rewrite Hres. simpl. rewrite H304. reflexivity.
Qed.

(** C1. When the events fetch succeeds with an empty batch, as it does on
    a "not modified" answer, and a batch is cached for the repository, the
    update leaves the events cache as it was. The cache changes only when
    the fetch succeeded and either the fetched batch is not empty or no
    batch was cached for the repository; the change is then the fetched
    batch stored under the repository, every other repository's batch
    staying as it was. *)
Theorem stale_preference (upstream : Request → option Response) (r : ConfigRepo)
    (st : DataStore) (g : GitHubClient) :
  let st' := (updateRepo upstream r st g).1 in
  (∀ res, upstream (eventsRequest r g) = Some res → status res = 304 →
     eventsResult upstream r g = Fulfilled []) ∧
  (eventsResult upstream r g = Fulfilled [] →
   omap_has (id r) (repoEvents st) = true →
   repoEvents st' = repoEvents st) ∧
  (repoEvents st' ≠ repoEvents st →
   ∃ evs, eventsResult upstream r g = Fulfilled evs ∧
          (evs ≠ [] ∨ omap_has (id r) (repoEvents st) = false) ∧
          repoEvents st' = omap_set (id r) evs (repoEvents st)) ∧
  (∀ k, k ≠ id r → assoc k (repoEvents st') = assoc k (repoEvents st)).
Proof.
  intros st'. subst st'. rewrite updateRepo_repoEvents.
  split; [apply unchanged_events_empty|].
  split; [intros -> ->; reflexivity|].
  split.
  - intros Hne. destruct (eventsResult upstream r g) as [evs|e]; [|done].
    exists evs. split; [done|].
    destruct evs as [|ev evs]; simpl in *.
    + destruct (omap_has (id r) (repoEvents st)); simpl in *; [done|].
      split; [by right|done].
    + split; [by left|done].
  - intros k Hk. destruct (eventsResult upstream r g) as [evs|e]; [|done].
    destruct (_ || _); [|done]. by apply assoc_omap_set_ne.
Qed.

Lemma pushed_shas_objects cs :
  forallb (λ c, is_object c && printable (get_opt c "sha")) cs = true →
  pushed_shas (JArr cs) = Some (List.map (λ c, get_opt c "sha") cs).
Proof.
  intros H. simpl. apply mapM_Some_2.
  induction cs as [|c cs IH]; simpl in *; [constructor|].
  apply andb_true_iff in H as [Hc H]. apply andb_true_iff in Hc as [Hc _].
  constructor; [by destruct c|by apply IH].
Qed.

(** On a batch of well-formed events the loop collects the SHAs that the
    push events refer to, and each of them converts to a string. *)
Lemma collectCommits_wellFormed evs :
  forallb wellFormedPush evs = true →
  collectCommits evs = Some (pushEventShas evs) ∧
  is_Some (mapM toStr (pushEventShas evs)).
Proof.
  induction evs as [|ev evs IH]; intros H; [split; [done|by eexists]|].
  simpl in H. apply andb_true_iff in H as [Hev H].
  destruct (IH H) as [IH1 IH2]. simpl. rewrite IH1.
  unfold wellFormedPush in Hev.
  destruct (is_str (ev_get ev "type") "PushEvent"); [|done].
  destruct (get_opt (ev_get ev "payload") "commits") as [| | | | |cs|] eqn:E;
    try done.
  simpl andb. cbv iota. rewrite (pushed_shas_objects cs Hev). split; [done|].
  apply mapM_is_Some, Forall_app. split; [|by apply mapM_is_Some].
  apply Forall_forall. intros v Hv.
  apply list_elem_of_In, in_map_iff in Hv as (c & <- & Hc).
  apply forallb_forall with (x := c) in Hev; [|done].
  apply andb_true_iff in Hev as [_ Hp]. by apply printable_true.
Qed.

(** The filter keeps the values whose key is not cached. *)
Lemma uncachedOnly_printed st repoId shas strs :
  mapM toStr shas = Some strs →
  ∃ kept, uncachedOnly st repoId shas = Some kept ∧
          mapM toStr kept = Some (List.filter (uncached st repoId) strs).
Proof.
  revert strs. induction shas as [|v shas IH]; intros strs H.
  - injection H as <-. by exists [].
  - simpl in H. destruct (toStr v) as [s|] eqn:Es; simpl in H; [|done].
    destruct (mapM toStr shas) as [strs'|]; simpl in H; [|done].
    injection H as <-. destruct (IH strs' eq_refl) as (kept & Hk & Hp).
    simpl. rewrite Es. simpl. rewrite Hk. simpl. unfold uncached at 1.
    destruct (commitStats st !! (repoId ++ "@" ++ s)).
    + by exists kept.
    + exists (v :: kept). split; [done|]. simpl. rewrite Es. simpl. by rewrite Hp.
Qed.

Lemma uncachedOnly_unprintable st repoId shas v :
  v ∈ shas → toStr v = None → uncachedOnly st repoId shas = None.
Proof.
  induction shas as [|w shas IH]; intros Hin Hv; [by apply elem_of_nil in Hin|].
  apply elem_of_cons in Hin as [<-|Hin]; simpl; [by rewrite Hv|].
  destruct (toStr w); simpl; [|done]. by rewrite IH.
Qed.

Lemma omap_printed (f : string → string) kept strs :
  mapM toStr kept = Some strs →
  omap (λ v, f <$> toStr v) kept = List.map f strs.
Proof.
  revert strs. induction kept as [|v kept IH]; intros strs H.
  - by injection H as <-.
  - simpl in H. destruct (toStr v) as [s|] eqn:Es; simpl in H; [|done].
    destruct (mapM toStr kept) as [strs'|]; simpl in H; [|done].
    injection H as <-. simpl. rewrite Es. simpl. f_equal. exact (IH strs' eq_refl).
Qed.

Lemma omap_length_le {A B : Type} (f : A → option B) (l : list A) :
  (length (omap f l) ≤ length l)%nat.
Proof.
  induction l as [|x l IH]; [done|].
  change (omap f (x :: l)) with (match f x with
                                  | Some y => y :: omap f l
                                  | None => omap f l
                                  end).
  destruct (f x); simpl; lia.
Qed.

Lemma mapM_take {A B : Type} (f : A → option B) n l k :
  mapM f l = Some k → mapM f (take n l) = Some (take n k).
Proof.
  intros H. apply mapM_Some_2, Forall2_take. by apply mapM_Some_1.
Qed.

(** What the loop collects from a push event whose [commits] is an array:
    the [sha] of each element, none of which is [null] or [undefined]. *)
Lemma collectCommits_elem evs shas ev cs c :
  collectCommits evs = Some shas → ev ∈ evs →
  ev_get ev "type" = JStr "PushEvent" →
  get_opt (ev_get ev "payload") "commits" = JArr cs → c ∈ cs →
  ∃ v, get c "sha" = Some v ∧ v ∈ shas.
Proof.
  revert shas. induction evs as [|e evs IH]; intros shas H Hin Hty Hcs Hc;
    [by apply elem_of_nil in Hin|].
  simpl in H.
  destruct (if is_str (ev_get e "type") "PushEvent" && _ then _ else _) as [here|] eqn:Eh;
    simpl in H; [|done].
  destruct (collectCommits evs) as [more|]; simpl in H; [|done].
  injection H as <-.
  apply elem_of_cons in Hin as [->|Hin].
  - rewrite Hty, Hcs in Eh. simpl in Eh. apply mapM_Some_1 in Eh.
    apply list_elem_of_lookup_1 in Hc as [i Hi].
    destruct (Forall2_lookup_l _ _ _ _ _ Eh Hi) as (v & Hv & Hg).
    exists v. split; [done|]. apply elem_of_app. left. by eapply list_elem_of_lookup_2.
  - destruct (IH more eq_refl Hin Hty Hcs Hc) as (v & Hv & Hm).
    exists v. split; [done|]. apply elem_of_app. by right.
Qed.

(** C3 (as amended). The commit-stat fetches that an update issues are at
    most 5. When the events fetch succeeded with a batch of well-formed
    events (the commits of every push an array of commit objects whose SHA
    converts to a string), they ask for exactly the first 5, in batch
    order, of the commit SHAs of the batch's push events that have no entry
    in the commit-stat cache. When the commits of a push event of the batch
    hold [null] or [undefined], or a commit whose SHA does not convert to a
    string, the update throws before its stat fetches (in the scan, or in
    the filter) and no commit-stat fetch is issued. *)
Theorem bounded_fanout (upstream : Request → option Response) (r : ConfigRepo)
    (st : DataStore) (g : GitHubClient) :
  (length (commitFetches upstream r st g) ≤ 5)%nat ∧
  (∀ evs, eventsResult upstream r g = Fulfilled evs →
     forallb wellFormedPush evs = true →
     ∃ strs, mapM toStr (pushEventShas evs) = Some strs ∧
       List.map req_url (commitFetches upstream r st g) =
         List.map (λ s, "https://api.github.com/repos/" ++ id r ++ "/commits/" ++ s)
                  (take 5 (List.filter
                             (λ s, bool_decide (commitStats st !! (id r ++ "@" ++ s) = None))
                             strs))) ∧
  (∀ evs ev cs c, eventsResult upstream r g = Fulfilled evs →
     ev ∈ evs → ev_get ev "type" = JStr "PushEvent" →
     get_opt (ev_get ev "payload") "commits" = JArr cs → c ∈ cs →
     c = JNull ∨ c = JUndef ∨ printable (get_opt c "sha") = false →
     commitFetches upstream r st g = []).
Proof.
  pose proof (updateRepo_commitFetches upstream r st g) as H.
  split; [|split].
  - rewrite <- (length_map req_url), H.
    destruct (eventsResult upstream r g) as [evs|e]; simpl; [|lia].
    destruct (collectCommits evs) as [cs|]; simpl; [|lia].
    unfold toFetch. destruct (uncachedOnly st (id r) cs) as [kept|]; simpl; [|lia].
    etransitivity; [apply omap_length_le|]. rewrite length_take. lia.
  - intros evs Hev Hwf. rewrite H, Hev.
    destruct (collectCommits_wellFormed evs Hwf) as [-> [strs Hstrs]].
    exists strs. split; [done|]. simpl.
    destruct (uncachedOnly_printed st (id r) _ _ Hstrs) as (kept & Hk & Hp).
    unfold toFetch. rewrite Hk. simpl.
    rewrite (omap_printed (commitUrl (id r)) (take 5 kept)
               (take 5 (List.filter (uncached st (id r)) strs)))
      by (by apply mapM_take).
    f_equal. f_equal. apply filter_ext. intros s. unfold uncached.
    by destruct (commitStats st !! (id r ++ "@" ++ s)).
  - intros evs ev cs c Hev Hin Hty Hcs Hc Hbad.
    apply (f_equal (@length string)) in H. rewrite length_map, Hev in H.
    apply length_zero_iff_nil. rewrite H. clear H.
    destruct (collectCommits evs) as [shas|] eqn:Ecol; simpl; [|done].
    destruct (collectCommits_elem evs shas ev cs c Ecol Hin Hty Hcs Hc) as (v & Hv & Hvin).
    destruct Hbad as [->|[->|Hp]]; [done|done|].
    unfold toFetch. rewrite (uncachedOnly_unprintable st (id r) shas v Hvin); [done|].
    apply printable_false. unfold get_opt in Hp. by rewrite Hv in Hp.
Qed.

(* ===================================================================== *)
(** ** Repository metadata and the queue *)
(* ===================================================================== *)

(** A metadata result comes from a readable body, whose [updated_at] it
    carries as [pushed_at]. *)
Lemma getRepoInfo_resume repoId resp g i :
  (resume (getRepoInfo repoId) resp g).1 = Fulfilled (Some i) →
  ∃ res data, resp = Some res ∧ body_json res = Some data ∧
              get data "updated_at" = Some (pushed_at i).
Proof.
  destruct resp as [res|]; simpl; [|done].
  destruct (status res =? 304); [done|].
  destruct (negb (ok res)); [done|].
  destruct (body_json res) as [data|] eqn:Hbody; [|done]. simpl.
  intros H. exists res, data. split; [done|]. split; [done|].
  destruct (get data "html_url"); simpl in H; [|done].
  destruct (get data "description"); simpl in H; [|done].
  destruct (get data "stargazers_count"); simpl in H; [|done].
  destruct (get data "forks_count"); simpl in H; [|done].
  destruct (get data "open_issues_count"); simpl in H; [|done].
  destruct (get data "updated_at"); simpl in H; [|done].
  destruct (get data "default_branch"); simpl in H; [|done].
  by simplify_eq.
Qed.

Lemma updateRepo_repoInfos upstream r st g i :
  infoResult upstream r g = Fulfilled (Some i) →
  repoInfos (updateRepo upstream r st g).1 !! id r = Some (with_displayName i (name r)).
Proof.
  unfold updateRepo, infoResult.
  destruct (allSettled2 _ _ _ _) as [[infoRes eventsRes] g1]. cbn [fst snd]. intros ->.
  set (st1 := storeInfo r (Fulfilled (Some i)) st).
  assert (H1 : repoInfos st1 !! id r = Some (with_displayName i (name r)))
    by apply lookup_insert_eq.
  destruct eventsRes as [evs|e]; cbn [fst]; [|done].
  set (st2 := storeEvents r evs st1).
  assert (H2 : repoInfos st2 !! id r = Some (with_displayName i (name r))).
  { subst st2. unfold storeEvents. by destruct (_ || _). }
  destruct (collectCommits evs ≫= _) as [asked|]; cbn [fst]; [|done].
  destruct (allSettled _ _ _) as [stats0 g2]. cbn [fst].
  by destruct (storeStats_frame (id r) asked stats0 st2) as (-> & _).
Qed.

Lemma buildQueue_Some (s s' : UpdateScheduler) :
  buildQueue s = Some s' →
  js_sort (byPushedDesc (repoInfos (store s))) (repos (cfg s)) = Some (queue s') ∧
  cfg s' = cfg s ∧ store s' = store s ∧ gh s' = gh s ∧ timer s' = timer s.
Proof.
  unfold buildQueue. destruct (js_sort _ _) as [sorted|]; simpl; [|done].
  by intros [= <-].
Qed.

(** C4 (as amended). The [RepoInfo] of a successful metadata fetch carries
    as [pushed_at] the [updated_at] field of the upstream's answer, the
    repository's last-updated timestamp; [updateRepo] stores that record,
    with the display name, under the repository; and when every configured
    repository has a cached record whose timestamp parses, [buildQueue]
    completes and puts the configured repositories in the order of that
    timestamp, most recent first. *)
Theorem repoInfo_timestamp :
  (∀ (upstream : Request → option Response) repoId g i,
     (await upstream (getRepoInfo repoId) g).1 = Fulfilled (Some i) →
     ∃ res data, upstream (issue (getRepoInfo repoId) g) = Some res ∧
                 body_json res = Some data ∧
                 get data "updated_at" = Some (pushed_at i)) ∧
  (∀ (upstream : Request → option Response) r st g i,
     infoResult upstream r g = Fulfilled (Some i) →
     (∃ res data, upstream (issue (getRepoInfo (id r)) g) = Some res ∧
                  body_json res = Some data ∧
                  get data "updated_at" = Some (pushed_at i)) ∧
     ∃ i', repoInfos (updateRepo upstream r st g).1 !! id r = Some i' ∧
           pushed_at i' = pushed_at i ∧ ri_displayName i' = Some (name r)) ∧
  (∀ s : UpdateScheduler,
     Forall (λ r, is_Some (pushedTime (repoInfos (store s)) r)) (repos (cfg s)) →
     ∃ s', buildQueue s = Some s' ∧
       Permutation (repos (cfg s)) (queue s') ∧
       StronglySorted (recent_ge (pushedTime (repoInfos (store s)))) (queue s')).
Proof.
  split; [|split].
  - intros upstream repoId g i H. unfold await in H.
    apply getRepoInfo_resume in H as (res & data & ? & ? & ?). eauto.
  - intros upstream r st g i H. split.
    + unfold infoResult, allSettled2 in H.
      destruct (resume (getRepoInfo (id r)) _ _) as [a g1] eqn:E.
      destruct (resume (getRepoEvents (id r)) _ _) as [b g2]. simpl in H. subst a.
      assert (E' : (resume (getRepoInfo (id r)) (upstream (issue (getRepoInfo (id r)) g))
                      (log_sent g [issue (getRepoInfo (id r)) g;
                                   issue (getRepoEvents (id r)) g])).1
                   = Fulfilled (Some i)) by (by rewrite E).
      apply getRepoInfo_resume in E' as (res & data & ? & ? & ?). eauto.
    + exists (with_displayName i (name r)). split; [|done].
      by apply updateRepo_repoInfos.
  - intros s Hall.
    destruct (js_sort_sorted (byPushedDesc (repoInfos (store s)))
                (recent_ge (pushedTime (repoInfos (store s))))
                (recent_ge_trans _) (repos (cfg s))) as (sorted & Hs & Hsorted).
    { apply key_cmp_decides; [|exact Hall].
      intros a b ta tb _ _ Ha Hb. unfold byPushedDesc, pushedTime in *.
      destruct (repoInfos (store s) !! id a) as [ia|]; [|done].
      destruct (repoInfos (store s) !! id b) as [ib|]; [|done]. simpl in *.
      destruct (Date_getTime (pushed_at ia)) as [[?|]|]; try done.
      destruct (Date_getTime (pushed_at ib)) as [[?|]|]; try done.
      simpl in *. by simplify_eq. }
    unfold buildQueue. rewrite Hs. simpl. eexists. split; [done|]. simpl.
    split; [symmetry; by eapply js_sort_perm|done].
Qed.

(* ===================================================================== *)
(** ** The scheduler on the event loop *)
(* ===================================================================== *)

Lemma buildQueue_nonempty (s s' : UpdateScheduler) :
  buildQueue s = Some s' → repos (cfg s) ≠ [] → queue s' ≠ [].
Proof.
  intros H Hne Hq. apply buildQueue_Some in H as (H & _).
  apply Hne. apply length_zero_iff_nil.
  rewrite <- (js_sort_length _ _ _ H). by rewrite Hq.
Qed.

(** The queue is built from the configuration and the store alone. *)
Lemma buildQueue_ext (s1 s2 s1' : UpdateScheduler) :
  cfg s2 = cfg s1 → store s2 = store s1 → buildQueue s1 = Some s1' →
  ∃ s2', buildQueue s2 = Some s2' ∧ queue s2' = queue s1'.
Proof.
  intros Hc Hst H. apply buildQueue_Some in H as (H & _).
  unfold buildQueue. rewrite Hc, Hst, H. simpl. by eexists.
Qed.

(** With a repository configured, the synchronous part of [tick] takes one
    and starts its update whenever the queue is not empty or can be
    built. *)
Lemma tick_begin_takes (s : UpdateScheduler) :
  repos (cfg s) ≠ [] →
  queue s ≠ [] ∨ is_Some (buildQueue s) →
  ∃ r s', tick_begin s = Some (Some r, s') ∧
          cfg s' = cfg s ∧ store s' = store s ∧ timer s' = timer s.
Proof.
  intros Hne Hq. unfold tick_begin.
  destruct (queue s) as [|r q] eqn:Eq.
  - destruct Hq as [Hq|[sq Hsq]]; [done|]. rewrite Hsq. simpl.
    pose proof (buildQueue_nonempty s sq Hsq Hne) as Hnq.
    apply buildQueue_Some in Hsq as (_ & ? & ? & _ & ?).
    destruct (queue sq) as [|r q]; [done|]. by eexists _, _.
  - simpl. rewrite Eq. by eexists _, _.
Qed.

Lemma Date_getTime_total (v : JsVal) :
  printable v = true → is_Some (Date_getTime v).
Proof.
  intros [s Hs]%printable_true.
  destruct v as [| | | | |vs|fs]; try (simpl; by eexists).
  - change (is_Some (s ← toStr (JArr vs); Some (Date_parse s))). rewrite Hs. by eexists.
  - change (is_Some (s ← toStr (JObj fs); Some (Date_parse s))). rewrite Hs. by eexists.
Qed.

(** [buildQueue] completes when every cached [pushed_at] converts to a
    string. *)
Lemma buildQueue_total (s : UpdateScheduler) :
  (∀ k i, repoInfos (store s) !! k = Some i → printable (pushed_at i) = true) →
  is_Some (buildQueue s).
Proof.
  intros Hp. unfold buildQueue.
  destruct (js_sort_total (byPushedDesc (repoInfos (store s))) (repos (cfg s)))
    as [sorted ->]; [|by eexists].
  intros a b _ _. unfold byPushedDesc.
  destruct (repoInfos (store s) !! id a) as [ia|] eqn:Ea; [|by eexists].
  destruct (repoInfos (store s) !! id b) as [ib|] eqn:Eb; [|by eexists].
  destruct (Date_getTime_total (pushed_at ib) (Hp _ _ Eb)) as [tb ->].
  destruct (Date_getTime_total (pushed_at ia) (Hp _ _ Ea)) as [ta ->].
  by eexists.
Qed.

(** C9. Nothing keeps a timer expiry from starting a tick while another is
    waiting for its fetches: with a repository configured and the interval
    timer armed by [start], the scheduler reaches a state with two ticks in
    flight. [start] arms the timer whenever every cached [pushed_at]
    converts to a string, as from an empty store. *)
Theorem ticks_overlap (upstream : Request → option Response)
    (c : AppConfig) (st : DataStore) (g : GitHubClient) :
  (repos c ≠ [] →
   timer (sched (started c st g)) = true →
   ∃ l, loop_steps upstream (started c st g) l ∧ length (inflight l) = 2%nat) ∧
  ((∀ k i, repoInfos st !! k = Some i → printable (pushed_at i) = true) →
   timer (sched (started c st g)) = true).
Proof.
  split.
  2:{ intros Hp. unfold started, start. simpl.
      destruct (buildQueue_total {| cfg := c; store := st; gh := g; queue := [];
                                    timer := false |} Hp) as [sq ->]. done. }
  intros Hne Harmed. unfold started in *. simpl in Harmed.
  set (s := {| cfg := c; store := st; gh := g; queue := []; timer := false |}) in *.
  unfold start in *.
  destruct (buildQueue s) as [sq|] eqn:Hsq; [|done].
  set (s0 := {| cfg := cfg sq; store := store sq; gh := gh sq; queue := queue sq;
                timer := true |}).
  pose proof (buildQueue_nonempty s sq Hsq Hne) as Hnq.
  pose proof (buildQueue_Some s sq Hsq) as (_ & Hc & Hst & _).
  destruct (tick_begin_takes s0) as (r1 & s1 & E1 & Hc1 & Hst1 & Ht1);
    [simpl; by rewrite Hc|by left|].
  destruct (tick_begin_takes s1) as (r2 & s2 & E2 & Hc2 & Hst2 & Ht2).
  { rewrite Hc1. simpl. by rewrite Hc. }
  { right. destruct (buildQueue_ext s s1 sq) as (s1' & -> & _); try done.
    - rewrite Hc1. simpl. by rewrite Hc.
    - rewrite Hst1. simpl. by rewrite Hst. }
  exists {| sched := s2; inflight := [r1; r2] |}. split; [|done].
  eapply loop_trans; [eapply loop_trans; [apply loop_refl|]|].
  - apply (timer_expires upstream s0 [] (Some r1) s1); done.
  - apply (timer_expires upstream s1 [r1] (Some r2) s2); [|done].
    by rewrite Ht1.
Qed.

(* ===================================================================== *)
(** ** More on the feed builder *)
(* ===================================================================== *)

(** Induction over values, through arrays and objects. *)
Lemma JsVal_induction (P : JsVal → Prop) :
  P JUndef → P JNull → (∀ b, P (JBool b)) → (∀ n, P (JNum n)) → (∀ s, P (JStr s)) →
  (∀ vs, Forall P vs → P (JArr vs)) →
  (∀ fs, Forall (λ kv, P kv.2) fs → P (JObj fs)) →
  ∀ v, P v.
Proof.
  intros Hu Hn Hb Hz Hs Ha Ho. fix IH 1. intros [| |b|n|s|vs|fs].
  - exact Hu.
  - exact Hn.
  - apply Hb.
  - apply Hz.
  - apply Hs.
  - apply Ha. induction vs as [|v vs IHvs]; constructor; [apply IH|exact IHvs].
  - apply Ho. induction fs as [|[k v] fs IHfs]; constructor; [apply IH|exact IHfs].
Qed.

Lemma plain_printable v : plain v = true → is_Some (toStr v).
Proof.
  induction v as [| | [|] | | |vs IH|fs IH] using JsVal_induction;
    intros Hp; try (by eexists).
  - simpl in Hp. simpl.
    assert (H : is_Some (mapM (λ e, match e with
                                    | JUndef | JNull => Some ""
                                    | _ => toStr e
                                    end) vs)).
    { apply mapM_is_Some, Forall_forall. intros e He. simpl.
      rewrite Forall_forall in IH.
      apply forallb_forall with (x := e) in Hp; [|by apply list_elem_of_In].
      destruct e; try (by eexists); by apply IH. }
    destruct H as [parts ->]. by eexists.
  - simpl in Hp. apply andb_true_iff in Hp as [Hk _]. simpl.
    unfold omap_has in Hk. destruct (assoc "toString" fs); [done|by eexists].
Qed.

Lemma plain_assoc fs k v :
  forallb (λ kv : string * JsVal, plain kv.2) fs = true → assoc k fs = Some v →
  plain v = true.
Proof.
  induction fs as [|[k' v'] fs IH]; simpl; [done|].
  intros [Hv Hfs]%andb_true_iff. destruct (String.eqb k k'); [by intros [= <-]|].
  by apply IH.
Qed.

Lemma plain_get_opt v k : plain v = true → plain (get_opt v k) = true.
Proof.
  destruct v as [| | | | | |fs]; try done. simpl. intros [_ Hfs]%andb_true_iff.
  unfold get_opt. simpl. destruct (assoc k fs) as [w|] eqn:E; [|done].
  by eapply plain_assoc.
Qed.

Lemma plain_nullish a b : plain a = true → plain b = true → plain (nullish a b) = true.
Proof. by destruct a. Qed.

Lemma plain_ev_get ev k : plain (raw ev) = true → plain (ev_get ev k) = true.
Proof.
  unfold ev_get. destruct (raw ev) as [| | | | | |fs]; try done. simpl.
  intros [_ Hfs]%andb_true_iff. destruct (assoc k fs) as [w|] eqn:E; [|done].
  by eapply plain_assoc.
Qed.

Lemma iconOf_Some ty k :
  toStr ty = Some k →
  iconOf ty = Some match assoc k ICONS with
                   | Some i => IconText i
                   | None => if Object_prototype k then IconInherited k else IconText "📌"
                   end.
Proof. intros H. unfold iconOf. by rewrite H. Qed.

(** The test of line 27 on the event's own fields. *)
Lemma push_test (ev : Event) :
  is_str (nullish (ev_get ev "type") (JStr "default")) "PushEvent"
  && truthy (get_opt (nullish (ev_get ev "payload") (JObj [])) "commits")
  = pushWithCommits ev.
Proof.
  unfold pushWithCommits.
  assert (H1 : is_str (nullish (ev_get ev "type") (JStr "default")) "PushEvent"
               = is_str (ev_get ev "type") "PushEvent")
    by (by destruct (ev_get ev "type")).
  assert (H2 : get_opt (nullish (ev_get ev "payload") (JObj [])) "commits"
               = get_opt (ev_get ev "payload") "commits")
    by (by destruct (ev_get ev "payload")).
  by rewrite H1, H2.
Qed.

(** The one item of an event that is no push with commits, when the
    [try] block completes. *)
Lemma feedItemsOrThrow_single ev its :
  pushWithCommits ev = false → feedItemsOrThrow ev = Some its →
  ∃ it, its = [it] ∧ type it = typeOf ev ∧ repo it = __repo ev ∧
        when it = ev_get ev "created_at" ∧ sha it = JUndef ∧ stats it = None.
Proof.
  unfold feedItemsOrThrow. intros Hc E. rewrite push_test, Hc in E.
  destruct (if is_str _ "PullRequestEvent" then _ else _) as [[[t u] e]|] in E;
    simpl in E; [|done].
  destruct (iconOf _) in E; simpl in E; [|done].
  injection E as <-. by eexists.
Qed.

(** X1. Only a push event with commits gives more than one item: every
    other event gives at most one, which has the event's type (["default"]
    when it has none), repository and timestamp, and no SHA; and it gives
    exactly one when no object in the event has a [toString] key of its
    own. *)
Theorem single_item_events (ev : Event) :
  pushWithCommits ev = false →
  (∀ its, eventToFeedItems ev = Some its →
     its = [] ∨
     ∃ it, its = [it] ∧ type it = typeOf ev ∧ repo it = __repo ev ∧
           when it = ev_get ev "created_at" ∧ sha it = JUndef ∧ stats it = None) ∧
  (plain (raw ev) = true → ∃ it, eventToFeedItems ev = Some [it]).
Proof.
  intros Hc. split.
  - intros its H. apply eventToFeedItems_Some in H as [H|[_ ->]]; [|by left].
    right. by apply feedItemsOrThrow_single.
  - intros Hp.
    assert (Hpr : ∀ v, plain v = true → ∃ s, toStr v = Some s)
      by (intros v Hv; by apply plain_printable).
    assert (Hpl : plain (nullish (ev_get ev "payload") (JObj [])) = true)
      by (by apply plain_nullish; [apply plain_ev_get|]).
    assert (Hty : plain (nullish (ev_get ev "type") (JStr "default")) = true)
      by (by apply plain_nullish; [apply plain_ev_get|]).
    assert (Hsome : ∃ its, feedItemsOrThrow ev = Some its).
    { unfold feedItemsOrThrow. rewrite push_test, Hc.
      set (p := nullish (ev_get ev "payload") (JObj [])) in *.
      set (ty := nullish (ev_get ev "type") (JStr "default")) in *.
      destruct (Hpr ty Hty) as [k Hk]. rewrite (iconOf_Some ty k Hk).
      repeat match goal with
             | |- context [toStr ?v] =>
                 let s := fresh "s" in
                 let H := fresh "H" in
                 destruct (Hpr v) as [s H];
                 [repeat first [done | apply plain_nullish | apply plain_get_opt]
                 |rewrite H]
             end.
      repeat match goal with
             | |- context [if ?b then _ else _] => destruct b
             end; simpl; by eexists. }
    destruct Hsome as [its Hits].
    destruct (feedItemsOrThrow_single ev its Hc Hits) as (it & -> & _).
    exists it. unfold eventToFeedItems. by rewrite Hits.
Qed.

(** X2. Every item made from an event, a push's commits included, carries
    the event's repository, timestamp and actor, has no stats and no
    display name yet, and is of type [Commit] or of the event's own type. *)
Theorem items_inherit_event (ev : Event) (its : list FeedItem) (it : FeedItem) :
  eventToFeedItems ev = Some its → it ∈ its →
  repo it = __repo ev ∧
  when it = ev_get ev "created_at" ∧
  actor it = nullish (get_opt (ev_get ev "actor") "display_login")
                     (get_opt (ev_get ev "actor") "login") ∧
  stats it = None ∧ displayName it = None ∧
  (type it = JStr "Commit" ∨ type it = nullish (ev_get ev "type") (JStr "default")).
Proof.
  unfold eventToFeedItems. destruct (feedItemsOrThrow ev) as [items|] eqn:E.
  - intros [= <-]. unfold feedItemsOrThrow in E.
    destruct (_ && _) in E.
    + destruct (nullish (get_opt _ "ref") _) in E; try done. simpl in E.
      destruct (get_opt _ "commits") as [| | | | |cs|] in E; try done.
      apply mapM_Some_1 in E. intros Hin.
      apply list_elem_of_lookup_1 in Hin as [i Hi].
      destruct (Forall2_lookup_r _ _ _ _ _ E Hi) as (c & _ & Hc).
      unfold commitItem in Hc.
      destruct (get c "message") as [[| | | |m| |]|]; simpl in Hc; try done.
      destruct (get c "sha") as [csha|]; simpl in Hc; [|done].
      destruct (toStr csha); simpl in Hc; [|done].
      destruct (get c "author"); simpl in Hc; [|done].
      destruct (toStr (nullish _ _)); simpl in Hc; [|done].
      injection Hc as <-. simpl. do 5 (split; [done|]). by left.
    + destruct (if is_str _ "PullRequestEvent" then _ else _) as [[[t u] e]|] in E;
        simpl in E; [|done].
      destruct (iconOf _) in E; simpl in E; [|done].
      injection E as <-. intros ->%list_elem_of_singleton. simpl.
      do 5 (split; [done|]). by right.
  - destruct (toStr _); simpl; [|done]. by intros [= <-] ?%elem_of_nil.
Qed.

(** X3. A pull-request event whose action, number and title convert to
    strings gives one item: titled with them, annotated as merged exactly
    when its action is [closed] and the pull request's [merged] is truthy,
    and with no annotation otherwise; it links to the pull request's page
    when the payload has one and to the repository otherwise. When one of
    the three does not convert, the event gives no item. *)
Theorem pull_request_annotation (ev : Event) :
  ev_get ev "type" = JStr "PullRequestEvent" →
  let p := nullish (ev_get ev "payload") (JObj []) in
  let pr := nullish (get_opt p "pull_request") (JObj []) in
  (∀ a n t,
     toStr (get_opt p "action") = Some a →
     toStr (get_opt pr "number") = Some n →
     toStr (nullish (get_opt pr "title") (JStr "")) = Some t →
     ∃ it, eventToFeedItems ev = Some [it] ∧
       icon it = IconText "🔀" ∧
       title it = JStr ("PR " ++ a ++ " #" ++ n ++ ": " ++ t) ∧
       (extra it = "已合并" ∨ extra it = "") ∧
       (extra it = "已合并" ↔
        get_opt p "action" = JStr "closed" ∧ truthy (get_opt pr "merged") = true) ∧
       url it = nullish (get_opt pr "html_url") (JStr ("https://github.com/" ++ __repo ev))) ∧
  (printable (get_opt p "action") = false ∨
   printable (get_opt pr "number") = false ∨
   printable (nullish (get_opt pr "title") (JStr "")) = false →
   eventToFeedItems ev = Some []).
Proof.
  intros Hty p pr.
  assert (Hbody : feedItemsOrThrow ev =
            (action ← toStr (get_opt p "action");
             number ← toStr (get_opt pr "number");
             prTitle ← toStr (nullish (get_opt pr "title") (JStr ""));
             Some [ {| type := JStr "PullRequestEvent"; icon := IconText "🔀";
                       when := ev_get ev "created_at"; repo := __repo ev;
                       actor := nullish (get_opt (ev_get ev "actor") "display_login")
                                        (get_opt (ev_get ev "actor") "login");
                       title := JStr ("PR " ++ action ++ " #" ++ number ++ ": " ++ prTitle);
                       url := nullish (get_opt pr "html_url")
                                      (JStr ("https://github.com/" ++ __repo ev));
                       extra := if is_str (get_opt p "action") "closed"
                                   && truthy (get_opt pr "merged")
                                then "已合并" else "";
                       sha := JUndef; stats := None; displayName := None |} ])).
  { unfold feedItemsOrThrow. rewrite Hty. cbn -[toStr]. fold p. fold pr.
    destruct (toStr (get_opt p "action")); [|done]. cbn -[toStr].
    destruct (toStr (get_opt pr "number")); [|done]. cbn -[toStr].
    destruct (toStr (nullish (get_opt pr "title") (JStr ""))); [|done]. reflexivity. }
  split.
  - intros a n t Ha Hn Ht. unfold eventToFeedItems. rewrite Hbody, Ha, Hn, Ht. simpl.
    eexists. split; [reflexivity|]. simpl.
    split; [reflexivity|]. split; [reflexivity|].
    destruct (is_str (get_opt p "action") "closed") eqn:Ea; simpl.
    + apply is_str_true in Ea. rewrite Ea.
      destruct (truthy (get_opt pr "merged")).
      * split; [by left|]. split; [|done]. split; done.
      * split; [by right|]. split; [|done]. split; [done|]. by intros [_ ?].
    + split; [by right|]. split; [|done]. split; [done|].
      intros [Hc _]. rewrite Hc in Ea. done.
  - intros Hbad. unfold eventToFeedItems. rewrite Hbody.
    assert (Hnone : (action ← toStr (get_opt p "action");
                     number ← toStr (get_opt pr "number");
                     prTitle ← toStr (nullish (get_opt pr "title") (JStr ""));
                     Some [action; number; prTitle]) = None).
    { destruct Hbad as [H|[H|H]]; apply printable_false in H; rewrite H.
      - done.
      - by destruct (toStr (get_opt p "action")).
      - destruct (toStr (get_opt p "action")); [|done].
        by destruct (toStr (get_opt pr "number")). }
    destruct (toStr (get_opt p "action")); simpl in *; [|by rewrite Hty].
    destruct (toStr (get_opt pr "number")); simpl in *; [|by rewrite Hty].
    destruct (toStr (nullish (get_opt pr "title") (JStr ""))); simpl in *; [done|].
    by rewrite Hty.
Qed.

(** X4. An event whose type has no branch of its own (a push without
    commits included) and converts to a string gives one generic item:
    titled with the type, linked to the repository, without annotation.
    Its icon is read under the type's string: the table's entry when it
    has one, the inherited member when the table has none and
    [Object.prototype] has, and the pin otherwise. An event without a type
    is shown as ["default"] with the pin. *)
Theorem generic_item (ev : Event) (k : string) :
  toStr (typeOf ev) = Some k →
  forallb (λ n, negb (is_str (typeOf ev) n)) handled = true →
  pushWithCommits ev = false →
  ∃ it, eventToFeedItems ev = Some [it] ∧
        type it = typeOf ev ∧
        title it = typeOf ev ∧
        url it = JStr ("https://github.com/" ++ __repo ev) ∧
        extra it = "" ∧
        (∀ i, (k, i) ∈ ICONS → icon it = IconText i) ∧
        (Forall (λ ki : string * string, ki.1 ≠ k) ICONS →
         icon it = if Object_prototype k then IconInherited k else IconText "📌") ∧
        (k = "MemberEvent" → icon it = IconText "👥") ∧
        (ev_get ev "type" = JUndef → type it = JStr "default" ∧ icon it = IconText "📌").
Proof.
  intros Hk Hh Hc. unfold typeOf in *.
  set (ty := nullish (ev_get ev "type") (JStr "default")) in *.
  assert (Hbody : feedItemsOrThrow ev =
            Some [ {| type := ty;
                      icon := match assoc k ICONS with
                              | Some i => IconText i
                              | None => if Object_prototype k then IconInherited k
                                        else IconText "📌"
                              end;
                      when := ev_get ev "created_at"; repo := __repo ev;
                      actor := nullish (get_opt (ev_get ev "actor") "display_login")
                                       (get_opt (ev_get ev "actor") "login");
                      title := ty; url := JStr ("https://github.com/" ++ __repo ev);
                      extra := ""; sha := JUndef; stats := None; displayName := None |} ]).
  { unfold feedItemsOrThrow. rewrite push_test, Hc. fold ty.
    simpl in Hh. repeat (apply andb_true_iff in Hh as [?%negb_true_iff Hh]).
    repeat match goal with H : is_str ty _ = false |- _ => rewrite H; clear H end.
    simpl. by rewrite (iconOf_Some ty k Hk). }
  unfold eventToFeedItems. rewrite Hbody.
  eexists. split; [reflexivity|]. cbn [type title url extra icon].
  do 4 (split; [reflexivity|]).
  assert (Hin : ∀ (l : list (string * string)) i,
            NoDup (l.*1) → (k, i) ∈ l → assoc k l = Some i).
  { induction l as [|[k' i'] l IH]; intros i Hnd Hi; [by apply elem_of_nil in Hi|].
    simpl in *. apply NoDup_cons in Hnd as [Hk' Hnd].
    apply elem_of_cons in Hi as [[= <- <-]|Hi]; [by rewrite String.eqb_refl|].
    destruct (String.eqb k k') eqn:E; [|by apply IH].
    apply String.eqb_eq in E as <-. destruct Hk'.
    apply list_elem_of_fmap. by exists (k, i). }
  assert (Hout : ∀ l : list (string * string),
            Forall (λ ki, ki.1 ≠ k) l → assoc k l = None).
  { induction l as [|[k' i'] l IH]; intros Hl; [done|].
    apply Forall_cons in Hl as [Hk' Hl]. simpl in *.
    destruct (String.eqb k k') eqn:E; [|by apply IH].
    apply String.eqb_eq in E. by destruct Hk'. }
  split; [|split; [|split]].
  - intros i Hi. rewrite (Hin ICONS i); [done| |done].
    apply (bool_decide_unpack _). vm_compute. exact I.
  - intros Hno. by rewrite (Hout ICONS Hno).
  - by intros ->.
  - intros Hu. subst ty. rewrite Hu in *. simpl in Hk. by injection Hk as <-.
Qed.

Lemma nameMap_lookup_aux (l : list ConfigRepo) (m : gmap string string) k :
  foldl (λ m r, <[id r := name r]> m) m l !! k =
    match last (List.filter (λ r, String.eqb (id r) k) l) with
    | Some r => Some (name r)
    | None => m !! k
    end.
Proof.
  revert m. induction l as [|r l IH]; intros m; [done|].
  simpl. rewrite IH.
  destruct (String.eqb (id r) k) eqn:E.
  - apply String.eqb_eq in E.
    destruct (List.filter _ l) as [|r' l'] eqn:El; simpl.
    + by rewrite <- E, lookup_insert_eq.
    + destruct (last (r' :: l')) eqn:El2; [done|]. by apply last_None in El2.
  - apply String.eqb_neq in E.
    destruct (last _); [done|]. by rewrite lookup_insert_ne.
Qed.

(** X5. The display name of a repository is the name of the last
    configured entry that has its id, unless that name is empty; a
    repository with no entry, or with an empty name, is shown by its id. *)
Theorem display_name_lookup (c : AppConfig) (k : string) :
  displayNameOf c k =
    match last (List.filter (λ r, String.eqb (id r) k) (repos c)) with
    | Some r => if nonempty (name r) then name r else k
    | None => k
    end.
Proof.
  unfold displayNameOf, nameMap. rewrite nameMap_lookup_aux.
  destruct (last _) as [r|]; [|by rewrite lookup_empty].
  unfold nonempty. by destruct (String.eqb (name r) "").
Qed.

Lemma slice0_is_take {A : Type} (l : list A) (e : Z) :
  ∃ n, slice0 l e = take n l ∧
       Z.of_nat (Nat.min n (length l)) =
         (if e <? 0 then Z.max (Z.of_nat (length l) + e) 0
          else Z.min e (Z.of_nat (length l))).
Proof.
  unfold slice0. eexists. split; [reflexivity|].
  destruct (e <? 0) eqn:E.
  - apply Z.ltb_lt in E. lia.
  - apply Z.ltb_ge in E. lia.
Qed.

(** X6. Whatever the limit, every item of the rebuilt feed comes from a
    cached event: it is that event's item, enriched, and labelled with the
    display name of the event's repository. *)
Theorem feed_items_origin (c : AppConfig) (st st' : DataStore) (x : FeedItem) :
  rebuildGlobalFeed c st = Some st' →
  x ∈ feedItems st' →
  ∃ k batch ev its it,
    (k, batch) ∈ repoEvents st ∧ ev ∈ batch ∧
    eventToFeedItems ev = Some its ∧ it ∈ its ∧
    x = set_displayName (withStat (commitStats st) it) (displayNameOf c (repo it)) ∧
    repo x = __repo ev ∧
    displayName x = Some (displayNameOf c (__repo ev)).
Proof.
  intros H Hx.
  destruct (feed_item_built c st st' x H Hx) as (ev & its & it & Hev & Hits & Hin & ->).
  unfold allEvents in Hev.
  apply list_elem_of_In, in_concat in Hev as (batch & Hb & Hev).
  apply in_map_iff in Hb as ([k b] & <- & Hkb).
  destruct (eventToFeedItems_built ev its it Hits Hin) as (Hrepo & _).
  exists k, b, ev, its, it.
  split; [by apply list_elem_of_In|].
  split; [by apply list_elem_of_In|]. do 3 (split; [done|]).
  unfold withStat. destruct (statFor (commitStats st) it); simpl; by rewrite Hrepo.
Qed.

Lemma sort_insert_filter_other {A : Type} (cmp : A → A → option (option Z))
    (P : A → bool) x l r :
  sort_insert cmp x l = Some r → P x = false → List.filter P r = List.filter P l.
Proof.
  revert r. induction l as [|y l IH]; simpl; intros r H Hx.
  - injection H as <-. simpl. by rewrite Hx.
  - destruct (cmp x y) as [d|]; simpl in H; [|done].
    destruct (positive d).
    + destruct (sort_insert cmp x l) as [r'|]; simpl in H; [|done].
      injection H as <-. simpl. by rewrite (IH r').
    + injection H as <-. simpl. by rewrite Hx.
Qed.

Lemma sort_insert_filter_same {A : Type} (cmp : A → A → option (option Z))
    (P : A → bool) x l r :
  sort_insert cmp x l = Some r → P x = true →
  (∀ y d, cmp x y = Some d → positive d = true → P y = false) →
  List.filter P r = x :: List.filter P l.
Proof.
  revert r. induction l as [|y l IH]; simpl; intros r H Hx Hpass.
  - injection H as <-. simpl. by rewrite Hx.
  - destruct (cmp x y) as [d|] eqn:Ed; simpl in H; [|done].
    destruct (positive d) eqn:Ep.
    + destruct (sort_insert cmp x l) as [r'|]; simpl in H; [|done].
      injection H as <-. simpl. rewrite (Hpass y d Ed Ep). by apply IH.
    + injection H as <-. simpl. by rewrite Hx.
Qed.

Lemma byDescTime_passes t x y d :
  at_time t x = true → byDescTime x y = Some d → positive d = true →
  at_time t y = false.
Proof.
  unfold at_time, byDescTime, feedTime.
  intros Hx%bool_decide_eq_true Hd Hgt. apply bool_decide_eq_false. intros Hy.
  destruct (Date_getTime (when y)) as [[ty|]|]; simpl in *; try done.
  destruct (Date_getTime (when x)) as [[tx|]|]; simpl in *; try done.
  simplify_eq. simpl in Hgt. apply Z.ltb_lt in Hgt. lia.
Qed.

Lemma js_sort_at_time t l r :
  js_sort byDescTime l = Some r →
  List.filter (at_time t) r = List.filter (at_time t) l.
Proof.
  revert r. induction l as [|x l IH]; intros r H; [by injection H as <-|].
  rewrite js_sort_cons in H.
  destruct (js_sort byDescTime l) as [r'|]; simpl in H; [|done].
  simpl. destruct (at_time t x) eqn:E.
  - rewrite (sort_insert_filter_same _ _ _ _ _ H E), (IH r'); [done|done|].
    intros y d. by apply byDescTime_passes.
  - by rewrite (sort_insert_filter_other _ _ _ _ _ H E), (IH r').
Qed.

(** X7. Where every candidate's timestamp parses, so that the language
    fixes the order of the sort, ties stay in place: for every timestamp,
    the feed's items with that timestamp are the first of the candidates
    with that timestamp, in the candidates' order. The commits of one push
    therefore stay in the push's order. *)
Theorem feed_ties_keep_order (c : AppConfig) (st st' : DataStore)
    (items : list FeedItem) (t : Z) :
  candidates c st = Some items →
  Forall (λ it, is_Some (feedTime it)) items →
  rebuildGlobalFeed c st = Some st' →
  List.filter (at_time t) (feedItems st') `prefix_of` List.filter (at_time t) items.
Proof.
  intros Hc _ H.
  destruct (rebuildGlobalFeed_Some c st st' H) as (items' & sorted & Hc' & Hs & ->).
  rewrite Hc in Hc'. injection Hc' as <-. simpl.
  destruct (slice0_is_take sorted (feedLimit c)) as (n & -> & _).
  rewrite <- (js_sort_at_time t items sorted Hs).
  exists (List.filter (at_time t) (drop n sorted)).
  by rewrite <- List.filter_app, take_drop.
Qed.

(** X8. The length of the rebuilt feed, for every limit: the smaller of the
    limit and the number of candidates when the limit is not negative; for
    a limit [-k], the number of candidates less [k], or none. *)
Theorem feed_length (c : AppConfig) (st st' : DataStore) :
  rebuildGlobalFeed c st = Some st' →
  ∃ items, candidates c st = Some items ∧
    let n := Z.of_nat (length items) in
    Z.of_nat (length (feedItems st')) =
      (if feedLimit c <? 0 then Z.max (n + feedLimit c) 0 else Z.min (feedLimit c) n).
Proof.
  intros H.
  destruct (rebuildGlobalFeed_Some c st st' H) as (items & sorted & Hc & Hs & ->).
  exists items. split; [done|]. simpl.
  destruct (slice0_is_take sorted (feedLimit c)) as (k & -> & Hk).
  by rewrite length_take, Hk, (js_sort_length _ _ _ Hs).
Qed.

(** X9. What [/api/feed] serves after new commit stats have been cached,
    without a rebuild in between, is what a rebuild would store: the feed
    of the last rebuild, enriched at read time, is the feed that a rebuild
    from the present cache gives, and that rebuild completes (entries of
    the stat cache are only ever added). In particular, right after a
    rebuild the served items are the stored ones. *)
Theorem api_feed_fresh (c : AppConfig) (st st1 : DataStore)
    (m' : gmap string CommitStats) :
  rebuildGlobalFeed c st = Some st1 →
  commitStats st ⊆ m' →
  ∃ st2, rebuildGlobalFeed c (set_commitStats st m') = Some st2 ∧
         apiFeedItems (set_commitStats st1 m') = Some (feedItems st2).
Proof.
  intros H Hsub.
  destruct (rebuild_grow c st st1 m' H Hsub) as (st2 & H2 & Hfeed).
  exists st2. split; [done|]. rewrite Hfeed.
  unfold apiFeedItems. simpl.
  apply mapM_Some_2, Forall2_fmap_r, Forall_Forall2_diag, Forall_forall.
  intros x Hx.
  destruct (feed_item_built c st st1 x H Hx) as (ev & its & it & _ & Hits & Hin & ->).
  destruct (eventToFeedItems_built ev its it Hits Hin) as (_ & _ & _ & Hsha).
  by rewrite withStats_withStat by (by rewrite label_sha).
Qed.

(* ===================================================================== *)
(** ** More on the client *)
(* ===================================================================== *)

Lemma ok_not_304 res : ok res = true → (status res =? 304) = false.
Proof.
  unfold ok. intros H. apply andb_true_iff in H as [_ H].
  apply Z.leb_le in H. apply Z.eqb_neq. lia.
Qed.

(** The outcome of a fetch that got a successful answer with a readable
    body. *)
Lemma await_fetch_ok upstream url etagKey g res data :
  upstream (issue (fetchJsonWithEtag url etagKey) g) = Some res →
  ok res = true → body_json res = Some data →
  (await upstream (fetchJsonWithEtag url etagKey) g).1 = Fulfilled (Ok200 data).
Proof.
  intros Hres Hok Hbody.
  pose proof (await_fetch upstream url etagKey g) as H. cbv zeta in H.
  rewrite Hres, (ok_not_304 res Hok), Hok, Hbody in H. simpl in H. by destruct H.
Qed.

Lemma await_fetch_ok_etags upstream url etagKey g res data :
  upstream (issue (fetchJsonWithEtag url etagKey) g) = Some res →
  ok res = true → body_json res = Some data →
  etags (await upstream (fetchJsonWithEtag url etagKey) g).2 =
    match headers res !! "etag", etagKey with
    | Some etag, Some (slot, key) =>
        if nonempty etag then slot_set slot key etag (etags g) else etags g
    | _, _ => etags g
    end.
Proof.
  intros Hres Hok Hbody.
  pose proof (await_fetch upstream url etagKey g) as H. cbv zeta in H.
  rewrite Hres, (ok_not_304 res Hok), Hok, Hbody in H. simpl in H. by destruct H.
Qed.

Lemma await_fetch_304 upstream url etagKey g res :
  upstream (issue (fetchJsonWithEtag url etagKey) g) = Some res →
  status res = 304 →
  (await upstream (fetchJsonWithEtag url etagKey) g).1 = Fulfilled NotModified304.
Proof.
  intros Hres H304.
  pose proof (await_fetch upstream url etagKey g) as H. cbv zeta in H.
  rewrite Hres, H304 in H. simpl in H. by destruct H.
Qed.

Lemma await_andThen {A B : Type} upstream (c : Async A) (k : A → Settled B) g :
  (await upstream (andThen c k) g).1 =
    match (await upstream c g).1 with
    | Fulfilled a => k a
    | Rejected e => Rejected e
    end.
Proof.
  unfold await. simpl. by destruct (resume c _ _) as [[a|e] g'].
Qed.

Lemma issue_andThen {A B : Type} (c : Async A) (k : A → Settled B) g :
  issue (andThen c k) g = issue c g.
Proof. reflexivity. Qed.

(** X10. Every event that [getRepoEvents] hands over carries the id of the
    repository that was asked for. A successful answer whose body is an
    array gives its elements, tagged, in order; a successful answer with
    any other body is an error; "not modified" gives the empty batch. *)
Theorem events_tagged (upstream : Request → option Response) (repoId : string)
    (g : GitHubClient) :
  let req := issue (getRepoEvents repoId) g in
  let out := (await upstream (getRepoEvents repoId) g).1 in
  (∀ evs, out = Fulfilled evs → Forall (λ e, __repo e = repoId) evs) ∧
  (∀ res raws, upstream req = Some res → ok res = true →
     body_json res = Some (JArr raws) →
     out = Fulfilled (List.map (λ raw, {| __repo := repoId; raw := raw |}) raws)) ∧
  (∀ res v, upstream req = Some res → ok res = true → body_json res = Some v →
     (∀ raws, v ≠ JArr raws) → out = Rejected TypeError) ∧
  (∀ res, upstream req = Some res → status res = 304 → out = Fulfilled []).
Proof.
  intros req out. subst req out. unfold getRepoEvents.
  rewrite await_andThen.
  set (url := "https://api.github.com/networks/" ++ repoId ++ "/events?per_page=30").
  split; [|split; [|split]].
  - intros evs H.
    destruct (await upstream (fetchJsonWithEtag url _) g).1 as [[data|]|e]; try done.
    + destruct data; try done. injection H as <-.
      apply Forall_forall. intros e He.
      apply list_elem_of_In, in_map_iff in He as (raw0 & <- & _). done.
    + injection H as <-. constructor.
  - intros res raws Hres Hok Hbody. rewrite issue_andThen in Hres.
    by rewrite (await_fetch_ok upstream url _ g res _ Hres Hok Hbody).
  - intros res v Hres Hok Hbody Hv. rewrite issue_andThen in Hres.
    rewrite (await_fetch_ok upstream url _ g res _ Hres Hok Hbody).
    destruct v; try done. by destruct (Hv vs).
  - intros res Hres H304. rewrite issue_andThen in Hres.
    by rewrite (await_fetch_304 upstream url _ g res Hres H304).
Qed.

(** X11. [getCommitStats] makes its call for every SHA that converts to a
    string, and only for those; it accepts every successful answer with a
    readable body: the result is a stat for the SHA that was asked for; the
    number of changed files is the length of [files] when that is an
    array; and where the body has no [stats], additions and deletions are
    0, as is the number of changed files when [files] is no array. *)
Theorem commit_stats_total (upstream : Request → option Response) (repoId : string)
    (sha0 : JsVal) (g : GitHubClient) (res : Response) (data : JsVal) :
  (getCommitStats repoId sha0 = None ↔ toStr sha0 = None) ∧
  ∀ call, getCommitStats repoId sha0 = Some call →
    upstream (issue call g) = Some res →
    ok res = true → body_json res = Some data →
    ∃ v, (await upstream call g).1 = Fulfilled (Some v) ∧
         cs_sha v = sha0 ∧
         (∀ fs, get_opt data "files" = JArr fs →
                filesChanged v = JNum (Z.of_nat (length fs))) ∧
         (get_opt data "stats" = JUndef →
          additions v = JNum 0 ∧ deletions v = JNum 0 ∧
          ((∀ fs, get_opt data "files" ≠ JArr fs) → filesChanged v = JNum 0)).
Proof.
  split; [apply getCommitStats_None|].
  intros call Hcall Hres Hok Hbody. unfold getCommitStats in Hcall.
  destruct (toStr sha0) as [s|]; simpl in Hcall; [|done]. injection Hcall as <-.
  rewrite issue_andThen in Hres. rewrite await_andThen.
  rewrite (await_fetch_ok upstream _ _ g res _ Hres Hok Hbody).
  eexists. split; [reflexivity|]. simpl. split; [reflexivity|]. split.
  - by intros fs ->.
  - intros ->. simpl. split; [done|]. split; [done|].
    intros Hf. destruct (get_opt data "files"); try done. by destruct (Hf vs).
Qed.

(** X12. [getRepoInfo] on a successful answer with a readable body: the
    body [null] is an error; any other body gives a record for the
    repository asked for, whose fields are the body's, an absent one
    reading as [undefined]. On "not modified" the result is [null]. *)
Theorem repo_info_body (upstream : Request → option Response) (repoId : string)
    (g : GitHubClient) (res : Response) :
  upstream (issue (getRepoInfo repoId) g) = Some res →
  let out := (await upstream (getRepoInfo repoId) g).1 in
  (status res = 304 → out = Fulfilled None) ∧
  (ok res = true → body_json res = Some JNull → out = Rejected TypeError) ∧
  (∀ data, ok res = true → body_json res = Some data →
     data ≠ JNull → data ≠ JUndef →
     ∃ i, out = Fulfilled (Some i) ∧ ri_repo i = repoId ∧ ri_displayName i = None ∧
          html_url i = get_opt data "html_url" ∧
          pushed_at i = get_opt data "updated_at" ∧
          default_branch i = get_opt data "default_branch").
Proof.
  intros Hres out. subst out. unfold getRepoInfo in *.
  rewrite issue_andThen in Hres. rewrite await_andThen.
  split; [|split].
  - intros H304.
    by rewrite (await_fetch_304 upstream _ _ g res Hres H304).
  - intros Hok Hbody.
    by rewrite (await_fetch_ok upstream _ _ g res _ Hres Hok Hbody).
  - intros data Hok Hbody Hn Hu.
    rewrite (await_fetch_ok upstream _ _ g res _ Hres Hok Hbody).
    assert (Hg : ∀ k, get data k = Some (get_opt data k)).
    { intros k. unfold get_opt. by destruct data. }
    rewrite !Hg. simpl. eexists. split; [reflexivity|]. done.
Qed.

(** X13. Every answer, whatever its status and body, replaces the rate
    budget by what [parseInt] makes of its three rate headers, a header
    that is absent or empty counting as ["0"]; when [fetch] itself fails,
    the budget and the token cache stay as they were. *)
Theorem rate_limit_tracks (upstream : Request → option Response) (url : string)
    (etagKey : option (EtagSlot * string)) (g : GitHubClient) :
  let req := issue (fetchJsonWithEtag url etagKey) g in
  let out := await upstream (fetchJsonWithEtag url etagKey) g in
  (∀ res, upstream req = Some res →
     let shown k := match headers res !! k with
                    | Some v => if String.eqb v "" then "0" else v
                    | None => "0"
                    end in
     limit (rate out.2) = parseInt10 (shown "x-ratelimit-limit") ∧
     remaining (rate out.2) = parseInt10 (shown "x-ratelimit-remaining") ∧
     reset (rate out.2) = parseInt10 (shown "x-ratelimit-reset")) ∧
  (upstream req = None →
     out.1 = Rejected TransportFailure ∧ rate out.2 = rate g ∧ etags out.2 = etags g).
Proof.
  intros req out. subst out. unfold await. cbv zeta. fold req. split.
  - intros res ->.
    assert (H : rate (resume (fetchJsonWithEtag url etagKey) (Some res)
                        (log_sent g [req])).2 =
                {| limit := header_int res "x-ratelimit-limit";
                   remaining := header_int res "x-ratelimit-remaining";
                   reset := header_int res "x-ratelimit-reset" |}).
    { simpl.
      destruct (status res =? 304); [done|].
      destruct (negb (ok res)); [done|].
      destruct (body_json res); [|done]. simpl.
      destruct (headers res !! "etag") as [e|]; [|done].
      destruct etagKey as [[slot key]|]; [|done].
      by destruct (nonempty e). }
    rewrite H. unfold header_int, nonempty. simpl.
    destruct (headers res !! "x-ratelimit-limit") as [v1|];
      destruct (headers res !! "x-ratelimit-remaining") as [v2|];
      destruct (headers res !! "x-ratelimit-reset") as [v3|];
      try destruct (String.eqb v1 ""); try destruct (String.eqb v2 "");
      try destruct (String.eqb v3 ""); done.
  - by intros ->.
Qed.



Lemma slot_map_set_other slot key e c slot' key' :
  (slot', key') ≠ (slot, key) →
  slot_map slot' (slot_set slot key e c) !! key' = slot_map slot' c !! key'.
Proof.
  intros Hne. destruct slot, slot'; simpl; try done;
    (destruct (decide (key' = key)) as [->|Hk];
     [done|by rewrite lookup_insert_ne]).
Qed.

(** X15. The validation token makes the round trip: after a successful
    answer with a readable body and a non-empty [etag], the next request
    under the same key presents that token, while the entry of every other
    key is as before. *)
Theorem etag_round_trip (upstream : Request → option Response) (url url' : string)
    (slot : EtagSlot) (key : string) (g : GitHubClient) (res : Response)
    (data : JsVal) (e : string) :
  upstream (issue (fetchJsonWithEtag url (Some (slot, key))) g) = Some res →
  ok res = true → body_json res = Some data →
  headers res !! "etag" = Some e → e ≠ "" →
  let g' := (await upstream (fetchJsonWithEtag url (Some (slot, key))) g).2 in
  req_headers (issue (fetchJsonWithEtag url' (Some (slot, key))) g') !! "if-none-match"
    = Some e ∧
  ∀ slot' key', (slot', key') ≠ (slot, key) →
    slot_map slot' (etags g') !! key' = slot_map slot' (etags g) !! key'.
Proof.
  intros Hres Hok Hbody Hetag He g'.
  pose proof (await_fetch_ok_etags upstream url _ g res data Hres Hok Hbody) as H.
  fold g' in H. apply nonempty_true in He. rewrite Hetag, He in H.
  split.
  - rewrite issue_validator, H, slot_map_set. by rewrite He.
  - intros slot' key' Hne. rewrite H. by apply slot_map_set_other.
Qed.

(* ===================================================================== *)
(** ** More on the per-repository update *)
(* ===================================================================== *)

Lemma fetchJsonWithEtag_pure url etagKey : pure_result (fetchJsonWithEtag url etagKey).
Proof.
  intros [res|] g g'; simpl; [|done].
  destruct (status res =? 304); [done|].
  destruct (negb (ok res)); [done|].
  by destruct (body_json res).
Qed.

Lemma andThen_pure {A B : Type} (c : Async A) (k : A → Settled B) :
  pure_result c → pure_result (andThen c k).
Proof.
  intros Hc r g g'. simpl. specialize (Hc r g g').
  destruct (resume c r g) as [[a|e] g1], (resume c r g') as [[a'|e'] g1'];
    simpl in *; congruence.
Qed.

Lemma getRepoInfo_pure repoId : pure_result (getRepoInfo repoId).
Proof. apply andThen_pure, fetchJsonWithEtag_pure. Qed.

Lemma getRepoEvents_pure repoId : pure_result (getRepoEvents repoId).
Proof. apply andThen_pure, fetchJsonWithEtag_pure. Qed.

Lemma getCommitStats_pure repoId sha0 call :
  getCommitStats repoId sha0 = Some call → pure_result call.
Proof.
  unfold getCommitStats. destruct (toStr sha0); simpl; [|done]. intros [= <-].
  apply andThen_pure, fetchJsonWithEtag_pure.
Qed.

(** The two opening fetches give what each would give alone. *)
Lemma allSettled2_results {A B : Type} upstream (ca : Async A) (cb : Async B) g :
  pure_result ca → pure_result cb →
  (allSettled2 upstream ca cb g).1 = ((await upstream ca g).1, (await upstream cb g).1).
Proof.
  intros Ha Hb. unfold allSettled2, await.
  specialize (Ha (upstream (issue ca g)) (log_sent g [issue ca g; issue cb g])
                 (log_sent g [issue ca g])).
  destruct (resume ca _ (log_sent g [issue ca g; issue cb g])) as [a g1]. simpl in Ha.
  specialize (Hb (upstream (issue cb g)) g1 (log_sent g [issue cb g])).
  destruct (resume cb _ g1) as [b g2]. simpl in *. congruence.
Qed.

(** What [updateRepo] leaves in the metadata cache. *)
Lemma updateRepo_repoInfos_all upstream r st g :
  repoInfos (updateRepo upstream r st g).1 =
    match infoResult upstream r g with
    | Fulfilled (Some i) => <[id r := with_displayName i (name r)]> (repoInfos st)
    | _ => repoInfos st
    end.
Proof.
  unfold updateRepo, infoResult.
  destruct (allSettled2 _ _ _ _) as [[infoRes eventsRes] g1]. cbn [fst snd].
  set (st1 := storeInfo r infoRes st).
  assert (H1 : repoInfos st1 = match infoRes with
                               | Fulfilled (Some i) =>
                                   <[id r := with_displayName i (name r)]> (repoInfos st)
                               | _ => repoInfos st
                               end) by (subst st1; by destruct infoRes as [[?|]|]).
  destruct eventsRes as [evs|e]; cbn [fst]; [|done].
  set (st2 := storeEvents r evs st1).
  assert (H2 : repoInfos st2 = repoInfos st1).
  { subst st2. unfold storeEvents. by destruct (_ || _). }
  destruct (collectCommits evs ≫= _) as [asked|]; cbn [fst]; [|congruence].
  destruct (allSettled _ _ _) as [stats0 g2]. cbn [fst].
  destruct (storeStats_frame (id r) asked stats0 st2) as (-> & _). congruence.
Qed.

(** X16. The two opening fetches of an update are independent: each
    outcome is what that fetch gives alone, and each cache is written
    from its own outcome only. A metadata fetch that fails, or is "not
    modified", leaves the metadata cache as it was and does not keep the
    events from being cached; an events fetch that fails leaves the events
    cache as it was and does not keep the metadata from being stored. *)
Theorem update_isolation (upstream : Request → option Response) (r : ConfigRepo)
    (st : DataStore) (g : GitHubClient) :
  let st' := (updateRepo upstream r st g).1 in
  infoResult upstream r g = (await upstream (getRepoInfo (id r)) g).1 ∧
  eventsResult upstream r g = (await upstream (getRepoEvents (id r)) g).1 ∧
  repoInfos st' =
    match (await upstream (getRepoInfo (id r)) g).1 with
    | Fulfilled (Some i) => <[id r := with_displayName i (name r)]> (repoInfos st)
    | _ => repoInfos st
    end ∧
  repoEvents st' =
    match (await upstream (getRepoEvents (id r)) g).1 with
    | Fulfilled evs =>
        if (0 <? length evs)%nat || negb (omap_has (id r) (repoEvents st))
        then omap_set (id r) evs (repoEvents st)
        else repoEvents st
    | Rejected _ => repoEvents st
    end.
Proof.
  intros st'. subst st'.
  pose proof (allSettled2_results upstream (getRepoInfo (id r)) (getRepoEvents (id r)) g
                (getRepoInfo_pure _) (getRepoEvents_pure _)) as H.
  assert (Hi : infoResult upstream r g = (await upstream (getRepoInfo (id r)) g).1)
    by (unfold infoResult; by rewrite H).
  assert (He : eventsResult upstream r g = (await upstream (getRepoEvents (id r)) g).1)
    by (unfold eventsResult; by rewrite H).
  split; [exact Hi|]. split; [exact He|].
  rewrite <- Hi, <- He. split; [apply updateRepo_repoInfos_all|apply updateRepo_repoEvents].
Qed.

(** The stats stored are stored under keys that the cache lacked. *)
Lemma storeStats_sub repoId asked stats0 (m0 : gmap string CommitStats) st :
  (∀ v k, Fulfilled (Some v) ∈ stats0 → toStr (cs_sha v) = Some k →
          m0 !! (repoId ++ "@" ++ k) = None) →
  m0 ⊆ commitStats st →
  m0 ⊆ commitStats (storeStats repoId asked stats0 st).
Proof.
  revert asked st. induction stats0 as [|s l IH]; intros asked st Hk Hsub; [done|].
  assert (Hl : ∀ v k, Fulfilled (Some v) ∈ l → toStr (cs_sha v) = Some k →
                 m0 !! (repoId ++ "@" ++ k) = None).
  { intros v k Hv. apply Hk. by right. }
  simpl. destruct s as [[v|]|e].
  - destruct (toStr (cs_sha v)) as [k|] eqn:Ek; [|done].
    apply IH; [done|]. simpl. apply insert_subseteq_r; [|done].
    apply (Hk v k); [by left|done].
  - by apply IH.
  - destruct (toStr (hd JUndef asked)); [by apply IH|done].
Qed.



Lemma storeStats_ext repoId asked stats0 sa sb :
  commitStats sa = commitStats sb →
  commitStats (storeStats repoId asked stats0 sa) =
  commitStats (storeStats repoId asked stats0 sb).
Proof.
  revert asked sa sb. induction stats0 as [|s l IH]; intros asked sa sb Hab; [done|].
  simpl. destruct s as [[v|]|e].
  - destruct (toStr (cs_sha v)); [|done]. apply IH. simpl. by rewrite Hab.
  - by apply IH.
  - destruct (toStr (hd JUndef asked)); [by apply IH|done].
Qed.

(** The results of [Promise.allSettled], call by call. *)
Lemma allSettled_results {A : Type} upstream (cs : list (option (Async A))) g :
  Forall (λ c, ∀ c', c = Some c' → pure_result c') cs →
  (allSettled upstream cs g).1 =
    List.map (λ c, match c with
                   | Some c => (resume c (upstream (issue c g)) g).1
                   | None => Rejected TypeError
                   end) cs.
Proof.
  intros Hp. unfold allSettled.
  assert (H : ∀ (l : list (option (Async A))) acc g0,
            Forall (λ c, ∀ c', c = Some c' → pure_result c') l →
            (foldl (λ '(acc, g1) c,
                      match c with
                      | Some c =>
                          let '(r, g') := resume c (upstream (issue c g)) g1 in
                          ((acc ++ [r])%list, g')
                      | None => ((acc ++ [Rejected TypeError])%list, g1)
                      end) (acc, g0) l).1 =
            (acc ++ List.map (λ c, match c with
                                   | Some c => (resume c (upstream (issue c g)) g).1
                                   | None => Rejected TypeError
                                   end) l)%list).
  { induction l as [|c0 l IH]; intros acc g0 Hl; [by rewrite app_nil_r|].
    apply Forall_cons in Hl as [Hc Hl]. simpl.
    destruct c0 as [c0|].
    - specialize (Hc c0 eq_refl (upstream (issue c0 g)) g0 g).
      destruct (resume c0 (upstream (issue c0 g)) g0) as [r0 g'] eqn:E. simpl in Hc.
      rewrite IH by done. rewrite <- app_assoc. simpl. by rewrite Hc.
    - rewrite IH by done. by rewrite <- app_assoc. }
  by rewrite H.
Qed.

Lemma getCommitStats_sha repoId sha0 call resp g v :
  getCommitStats repoId sha0 = Some call →
  (resume call resp g).1 = Fulfilled (Some v) → cs_sha v = sha0.
Proof.
  unfold getCommitStats. destruct (toStr sha0); simpl; [|done]. intros [= <-].
  destruct resp as [res|]; simpl; [|done].
  destruct (status res =? 304); [done|].
  destruct (negb (ok res)); [done|].
  destruct (body_json res) as [data|]; [|done]. simpl.
  intros H. by simplify_eq.
Qed.

Lemma uncachedOnly_uncached st repoId commits kept sha0 :
  uncachedOnly st repoId commits = Some kept → sha0 ∈ kept →
  ∃ s, toStr sha0 = Some s ∧ commitStats st !! (repoId ++ "@" ++ s) = None.
Proof.
  revert kept. induction commits as [|v commits IH]; intros kept H Hin.
  - injection H as <-. by apply elem_of_nil in Hin.
  - simpl in H. destruct (toStr v) as [s|] eqn:Es; simpl in H; [|done].
    destruct (uncachedOnly st repoId commits) as [more|]; simpl in H; [|done].
    destruct (commitStats st !! (repoId ++ "@" ++ s)) eqn:E; injection H as <-.
    + by apply (IH more).
    + apply elem_of_cons in Hin as [->|Hin]; [by exists s|by apply (IH more)].
Qed.

Lemma toFetch_uncached st repoId commits asked sha0 :
  toFetch st repoId commits = Some asked → sha0 ∈ asked →
  ∃ s, toStr sha0 = Some s ∧ commitStats st !! (repoId ++ "@" ++ s) = None.
Proof.
  unfold toFetch. destruct (uncachedOnly st repoId commits) as [kept|] eqn:E;
    simpl; [|done].
  intros [= <-] Hin. apply elem_of_take in Hin as (i & Hi & _).
  eapply uncachedOnly_uncached; [done|]. by eapply list_elem_of_lookup_2.
Qed.

(** What [updateRepo] leaves in the stat cache: the stats of its fetches,
    which are those of the values that pass the filter. *)
Lemma updateRepo_commitStats upstream r st g :
  ∃ (g1 : GitHubClient) (asked : list JsVal),
    commitStats (updateRepo upstream r st g).1 =
      commitStats
        (storeStats (id r) asked
           (List.map (λ v, match getCommitStats (id r) v with
                           | Some c => (resume c (upstream (issue c g1)) g1).1
                           | None => Rejected TypeError
                           end) asked) st) ∧
    (∀ sha0, sha0 ∈ asked →
       ∃ s, toStr sha0 = Some s ∧ commitStats st !! (id r ++ "@" ++ s) = None) ∧
    ∀ evs asked', eventsResult upstream r g = Fulfilled evs →
      collectCommits evs ≫= toFetch st (id r) = Some asked' → asked = asked'.
Proof.
  unfold updateRepo, eventsResult.
  destruct (allSettled2 _ _ _ _) as [[infoRes eventsRes] g1]. cbn [fst snd].
  set (st1 := storeInfo r infoRes st).
  assert (H1 : commitStats st1 = commitStats st)
    by (subst st1; by destruct infoRes as [[?|]|]).
  destruct eventsRes as [evs|e]; cbn [fst].
  2:{ exists g1, []. split; [by rewrite H1|]. split; [by intros v ?%elem_of_nil|done]. }
  set (st2 := storeEvents r evs st1).
  assert (H2 : commitStats st2 = commitStats st).
  { subst st2. unfold storeEvents. by destruct (_ || _). }
  assert (Ht : ∀ cs, toFetch st2 (id r) cs = toFetch st (id r) cs).
  { intros cs. unfold toFetch. by rewrite (uncachedOnly_ext st st2). }
  assert (Hb : collectCommits evs ≫= toFetch st2 (id r) =
               collectCommits evs ≫= toFetch st (id r)).
  { destruct (collectCommits evs); simpl; [apply Ht|done]. }
  rewrite Hb.
  destruct (collectCommits evs ≫= toFetch st (id r)) as [asked|] eqn:Easked; cbn [fst].
  2:{ exists g1, []. split; [by rewrite H2|]. split; [by intros v ?%elem_of_nil|].
      intros evs' asked' [= <-] H. congruence. }
  pose proof (allSettled_results upstream (List.map (getCommitStats (id r)) asked) g1) as Hr.
  destruct (allSettled _ _ _) as [stats0 g2]. cbn [fst] in *.
  rewrite Hr.
  2:{ apply Forall_forall. intros c Hc c' ->.
      apply list_elem_of_In, in_map_iff in Hc as (s0 & Hs0 & _).
      by eapply getCommitStats_pure. }
  rewrite List.map_map.
  exists g1, asked. split; [|split].
  - by apply storeStats_ext.
  - intros sha0 Hin.
    destruct (collectCommits evs) as [cs|]; simpl in Easked; [|done].
    by eapply toFetch_uncached.
  - intros evs' asked' [= <-] H. congruence.
Qed.

(** X17. The stat cache only grows, and an update never replaces an
    entry: what is cached for a commit before an update is cached,
    unchanged, after it. The update writes neither the feed nor the
    quality reports, nor the metadata or events of another repository. *)
Theorem update_keeps_stats (upstream : Request → option Response) (r : ConfigRepo)
    (st : DataStore) (g : GitHubClient) :
  let st' := (updateRepo upstream r st g).1 in
  commitStats st ⊆ commitStats st' ∧
  feedItems st' = feedItems st ∧
  qualityReports st' = qualityReports st ∧
  (∀ k, k ≠ id r → repoInfos st' !! k = repoInfos st !! k) ∧
  (∀ k, k ≠ id r → assoc k (repoEvents st') = assoc k (repoEvents st)).
Proof.
  intros st'. subst st'. split; [|split; [|split; [|split]]].
  - destruct (updateRepo_commitStats upstream r st g) as (g1 & asked & -> & Hun & _).
    apply storeStats_sub; [|done].
    intros v k Hv Hk.
    apply list_elem_of_In, in_map_iff in Hv as (sha0 & Hres & Hin).
    destruct (getCommitStats (id r) sha0) as [call|] eqn:Ecall; [|done].
    apply (getCommitStats_sha _ _ _ _ _ _ Ecall) in Hres.
    destruct (Hun sha0) as (s & Hs & Hnone); [by apply list_elem_of_In|].
    rewrite Hres, Hs in Hk. by injection Hk as <-.
  - unfold updateRepo.
    destruct (allSettled2 _ _ _ _) as [[infoRes eventsRes] g1]. cbn [fst snd].
    set (st1 := storeInfo r infoRes st).
    assert (H1 : feedItems st1 = feedItems st) by (subst st1; by destruct infoRes as [[?|]|]).
    destruct eventsRes as [evs|e]; cbn [fst]; [|done].
    set (st2 := storeEvents r evs st1).
    assert (H2 : feedItems st2 = feedItems st).
    { subst st2. unfold storeEvents. by destruct (_ || _). }
    destruct (collectCommits evs ≫= _) as [asked|]; cbn [fst]; [|done].
    destruct (allSettled _ _ _) as [stats0 g2]. cbn [fst].
    by destruct (storeStats_frame (id r) asked stats0 st2) as (_ & _ & -> & _).
  - unfold updateRepo.
    destruct (allSettled2 _ _ _ _) as [[infoRes eventsRes] g1]. cbn [fst snd].
    set (st1 := storeInfo r infoRes st).
    assert (H1 : qualityReports st1 = qualityReports st)
      by (subst st1; by destruct infoRes as [[?|]|]).
    destruct eventsRes as [evs|e]; cbn [fst]; [|done].
    set (st2 := storeEvents r evs st1).
    assert (H2 : qualityReports st2 = qualityReports st).
    { subst st2. unfold storeEvents. by destruct (_ || _). }
    destruct (collectCommits evs ≫= _) as [asked|]; cbn [fst]; [|done].
    destruct (allSettled _ _ _) as [stats0 g2]. cbn [fst].
    by destruct (storeStats_frame (id r) asked stats0 st2) as (_ & _ & _ & ->).
  - intros k Hk. rewrite updateRepo_repoInfos_all.
    destruct (infoResult upstream r g) as [[i|]|e]; try done.
    by rewrite lookup_insert_ne.
  - intros k Hk. rewrite updateRepo_repoEvents.
    destruct (eventsResult upstream r g) as [evs|e]; [|done].
    destruct (_ || _); [|done]. by apply assoc_omap_set_ne.
Qed.


Lemma omap_set_Forall {A : Type} (P : string * A → Prop) k (v : A) m :
  P (k, v) → Forall P m → Forall P (omap_set k v m).
Proof.
  intros Hk. induction 1 as [|[k' v'] m Hx Hm IH]; simpl; [by repeat constructor|].
  destruct (String.eqb k k'); by constructor.
Qed.

Lemma getRepoEvents_tags repoId resp g evs :
  (resume (getRepoEvents repoId) resp g).1 = Fulfilled evs →
  Forall (λ e, __repo e = repoId) evs.
Proof.
  destruct resp as [res|]; simpl; [|done].
  destruct (status res =? 304); simpl; [by intros [= <-]|].
  destruct (negb (ok res)); [done|].
  destruct (body_json res) as [[| | | | |raws|]|]; simpl; try done.
  intros [= <-]. apply Forall_forall. intros e He.
  apply list_elem_of_In, in_map_iff in He as (raw0 & <- & _). done.
Qed.

Lemma updateRepo_tagged upstream r st g :
  store_tagged st → store_tagged (updateRepo upstream r st g).1.
Proof.
  intros Hst. unfold store_tagged. rewrite updateRepo_repoEvents.
  destruct (eventsResult upstream r g) as [evs|e] eqn:E; [|done].
  destruct (_ || _); [|done].
  apply omap_set_Forall; [|done]. simpl.
  unfold eventsResult, allSettled2 in E.
  destruct (resume (getRepoInfo (id r)) _ _) as [a g1].
  destruct (resume (getRepoEvents (id r)) _ _) as [b g2] eqn:Eb. simpl in E. subst b.
  eapply (getRepoEvents_tags (id r) _ g1). by rewrite Eb.
Qed.

(** X19. Cached events stay under their own repository: if every cached
    event carries the key under which it is cached, as in the empty store,
    the same holds after an update and after a tick; and then every item
    of a rebuilt feed belongs to a repository that has a cached batch. *)
Theorem cache_tagged :
  store_tagged MemoryStore ∧
  (∀ (upstream : Request → option Response) r st g,
     store_tagged st → store_tagged (updateRepo upstream r st g).1) ∧
  (∀ (upstream : Request → option Response) r s,
     store_tagged (store s) → store_tagged (store (tick_end upstream r s))) ∧
  (∀ c st st' x, store_tagged st → rebuildGlobalFeed c st = Some st' →
     x ∈ feedItems st' → ∃ batch, (repo x, batch) ∈ repoEvents st).
Proof.
  split; [constructor|]. split; [apply updateRepo_tagged|]. split.
  - intros upstream r s Hs. unfold tick_end.
    pose proof (updateRepo_tagged upstream r (store s) (gh s) Hs) as H.
    destruct (updateRepo upstream r (store s) (gh s)) as [st1 g']. simpl in *.
    destruct (rebuildGlobalFeed (cfg s) st1) as [st2|] eqn:E; simpl; [|done].
    apply rebuildGlobalFeed_Some in E as (items & sorted & _ & _ & ->). done.
  - intros c st st' x Hst H Hx.
    destruct (feed_item_built c st st' x H Hx) as (ev & its & it & Hev & Hits & Hin & ->).
    unfold allEvents in Hev.
    apply list_elem_of_In, in_concat in Hev as (batch & Hb & Hev).
    apply in_map_iff in Hb as ([k b] & <- & Hkb).
    destruct (eventToFeedItems_built ev its it Hits Hin) as (Hrepo & _).
    unfold store_tagged in Hst. rewrite Forall_forall in Hst.
    apply list_elem_of_In in Hkb.
    pose proof (Hst _ Hkb) as Hb. simpl in Hb. rewrite Forall_forall in Hb.
    exists b.
    assert (Hr : repo (set_displayName (withStat (commitStats st) it)
                         (displayNameOf c (repo it))) = repo it).
    { unfold withStat. by destruct (statFor (commitStats st) it). }
    rewrite Hr, Hrepo, (Hb ev); [done|]. by apply list_elem_of_In.
Qed.

(* ===================================================================== *)
(** ** More on the queue and the ticks *)
(* ===================================================================== *)

Lemma js_sort_unmoved {A : Type} (cmp : A → A → option (option Z)) (l : list A) :
  (∀ a b, a ∈ l → b ∈ l → ∃ d, cmp a b = Some d ∧ positive d = false) →
  js_sort cmp l = Some l.
Proof.
  induction l as [|x l IH]; intros H; [done|].
  rewrite js_sort_cons, IH; [|intros a b Ha Hb; apply H; by right]. simpl.
  destruct l as [|y l]; [done|]. simpl.
  destruct (H x y) as (d & -> & Hd); [by left|right; by left|]. simpl. by rewrite Hd.
Qed.

(** X20. The queue always holds every configured repository exactly once,
    whatever is cached; and while no metadata is cached at all,
    [buildQueue] completes and the queue is the configured list in its
    configured order. *)
Theorem queue_is_configured (s : UpdateScheduler) :
  (∀ s', buildQueue s = Some s' → Permutation (repos (cfg s)) (queue s')) ∧
  ((∀ r, r ∈ repos (cfg s) → repoInfos (store s) !! id r = None) →
   ∃ s', buildQueue s = Some s' ∧ queue s' = repos (cfg s)).
Proof.
  split.
  - intros s' H. apply buildQueue_Some in H as (H & _).
    symmetry. by apply js_sort_perm in H.
  - intros Hnone. unfold buildQueue. rewrite js_sort_unmoved; [by eexists|].
    intros a b Ha Hb. unfold byPushedDesc. rewrite (Hnone a Ha). by exists (Some 0).
Qed.

Lemma tick_end_keeps upstream r s :
  queue (tick_end upstream r s) = queue s ∧ cfg (tick_end upstream r s) = cfg s ∧
  timer (tick_end upstream r s) = timer s.
Proof. unfold tick_end. by destruct (updateRepo _ _ _ _). Qed.

Lemma tick_begin_cons (s : UpdateScheduler) r q :
  queue s = r :: q →
  tick_begin s = Some (Some r, {| cfg := cfg s; store := store s; gh := gh s; queue := q;
                                  timer := timer s |}).
Proof. intros Hq. unfold tick_begin. rewrite Hq. simpl. by rewrite Hq. Qed.

Lemma tick_begin_Some (s s0 : UpdateScheduler) r :
  tick_begin s = Some (Some r, s0) →
  cfg s0 = cfg s ∧ store s0 = store s ∧ gh s0 = gh s.
Proof.
  unfold tick_begin. destruct (queue s) as [|r0 q] eqn:Eq; simpl.
  - destruct (buildQueue s) as [sq|] eqn:Eb; simpl; [|done].
    apply buildQueue_Some in Eb as (_ & Hc & Hst & Hg & _).
    destruct (queue sq); [done|]. intros [= <- <-]. done.
  - rewrite Eq. by intros [= <- <-].
Qed.

(** X21. Ticks that run alone work the queue off from its head: as many
    ticks as the queue is long update its repositories in the queue's
    order and leave it empty, the configuration staying as it was; and a
    tick that finds the queue empty starts from a new queue, built from
    what is cached then, when a repository is configured: it takes the head
    of the queue that [buildQueue] gives, and does nothing at all when
    [buildQueue] throws. *)
Theorem ticks_follow_queue (upstream : Request → option Response) (s : UpdateScheduler) :
  let out := ticks upstream (length (queue s)) s in
  out.1 = queue s ∧ queue out.2 = [] ∧ cfg out.2 = cfg s ∧
  (queue s = [] → repos (cfg s) ≠ [] →
   (∀ sq, buildQueue s = Some sq →
      ∃ r s', tick_begin s = Some (Some r, s') ∧ r :: queue s' = queue sq) ∧
   (buildQueue s = None → tick_begin s = None ∧ tick upstream s = s)).
Proof.
  intros out. subst out.
  assert (H : ∀ q s, queue s = q →
            (ticks upstream (length q) s).1 = q ∧
            queue (ticks upstream (length q) s).2 = [] ∧
            cfg (ticks upstream (length q) s).2 = cfg s).
  { clear s. induction q as [|r q IH]; intros s Hq; [done|].
    simpl. rewrite (tick_begin_cons s r q Hq).
    set (s1 := {| cfg := cfg s; store := store s; gh := gh s; queue := q;
                  timer := timer s |}).
    destruct (tick_end_keeps upstream r s1) as (Hq1 & Hc1 & _).
    destruct (IH (tick_end upstream r s1) Hq1) as (Hv & Hq' & Hc').
    destruct (ticks upstream (length q) (tick_end upstream r s1)) as [rs s2].
    simpl in *. split; [congruence|]. split; [done|]. congruence. }
  destruct (H (queue s) s eq_refl) as (H1 & H2 & H3).
  split; [done|]. split; [done|]. split; [done|].
  intros Hq Hne. split.
  - intros sq Hsq. unfold tick_begin. rewrite Hq, Hsq. simpl.
    pose proof (buildQueue_nonempty s sq Hsq Hne) as Hb.
    destruct (queue sq) as [|r q] eqn:E; [done|].
    by eexists _, _.
  - intros Hb. assert (Ht : tick_begin s = None).
    { unfold tick_begin. by rewrite Hq, Hb. }
    split; [done|]. unfold tick. by rewrite Ht.
Qed.

Lemma omap_set_keeps {A : Type} (k k' : string) (v v' : A) (m : list (string * A)) :
  (k, v) ∈ m → k ≠ k' → (k, v) ∈ omap_set k' v' m.
Proof.
  intros Hin Hne. induction m as [|[k0 v0] m IH]; [by apply elem_of_nil in Hin|].
  simpl. destruct (String.eqb k' k0) eqn:E.
  - apply String.eqb_eq in E as <-.
    apply elem_of_cons in Hin as [[= ? ?]|Hin]; [done|by right].
  - apply elem_of_cons in Hin as [<-|Hin]; [by left|right; by apply IH].
Qed.

Lemma rebuild_throws (c : AppConfig) (st : DataStore) (ev : Event) :
  ev ∈ allEvents st → eventToFeedItems ev = None → rebuildGlobalFeed c st = None.
Proof.
  intros Hev H. unfold rebuildGlobalFeed, candidates.
  rewrite (proj2 (mapM_None eventToFeedItems (allEvents st))); [done|].
  apply Exists_exists. by exists ev.
Qed.

(** X22. What a tick that runs alone leaves in the store is the outcome of
    its update, then of its rebuild. When the rebuild completes, the store
    is the rebuilt one. When it throws, the tick is rejected with the cache
    writes of the update made and the feed as it was before the tick. A
    tick that updates one repository while the events cached for another
    hold an event whose type does not convert to a string ends that way,
    whatever the upstream answers, and leaves that event cached: such an
    event keeps the feed from being rebuilt for as long as it is cached.
    With no repository configured a tick touches neither the store nor the
    client. *)
Theorem tick_feed (upstream : Request → option Response) (s : UpdateScheduler) :
  (∀ r s0, tick_begin s = Some (Some r, s0) →
     let st1 := (updateRepo upstream r (store s) (gh s)).1 in
     (∀ st2, rebuildGlobalFeed (cfg s) st1 = Some st2 → store (tick upstream s) = st2) ∧
     (rebuildGlobalFeed (cfg s) st1 = None →
      store (tick upstream s) = st1 ∧
      feedItems (store (tick upstream s)) = feedItems (store s)) ∧
     (∀ k batch ev,
        (k, batch) ∈ repoEvents (store s) → k ≠ id r → ev ∈ batch →
        printable (typeOf ev) = false →
        store (tick upstream s) = st1 ∧
        feedItems (store (tick upstream s)) = feedItems (store s) ∧
        (k, batch) ∈ repoEvents (store (tick upstream s)))) ∧
  (repos (cfg s) = [] → queue s = [] →
   store (tick upstream s) = store s ∧ gh (tick upstream s) = gh s ∧
   queue (tick upstream s) = []).
Proof.
  split.
  - intros r s0 Hb st1.
    destruct (tick_begin_Some s s0 r Hb) as (Hc & Hst & Hg).
    assert (Hfeed : feedItems st1 = feedItems (store s)).
    { subst st1. unfold updateRepo.
      destruct (allSettled2 _ _ _ _) as [[infoRes eventsRes] g1]. cbn [fst snd].
      set (sa := storeInfo r infoRes (store s)).
      assert (H1 : feedItems sa = feedItems (store s))
        by (subst sa; by destruct infoRes as [[?|]|]).
      destruct eventsRes as [evs|e]; cbn [fst]; [|done].
      set (sb := storeEvents r evs sa).
      assert (H2 : feedItems sb = feedItems (store s)).
      { subst sb. unfold storeEvents. by destruct (_ || _). }
      destruct (collectCommits evs ≫= _) as [asked|]; cbn [fst]; [|done].
      destruct (allSettled _ _ _) as [stats0 g2]. cbn [fst].
      by destruct (storeStats_frame (id r) asked stats0 sb) as (_ & _ & -> & _). }
    assert (Hstore : store (tick upstream s) =
                     default st1 (rebuildGlobalFeed (cfg s) st1)).
    { unfold tick. rewrite Hb. unfold tick_end. subst st1. rewrite Hst, Hg, Hc.
      by destruct (updateRepo upstream r (store s) (gh s)). }
    assert (Hnone : rebuildGlobalFeed (cfg s) st1 = None →
                    store (tick upstream s) = st1 ∧
                    feedItems (store (tick upstream s)) = feedItems (store s)).
    { intros E. rewrite Hstore, E. done. }
    split; [|split].
    + intros st2 E. by rewrite Hstore, E.
    + exact Hnone.
    + intros k batch ev Hk Hne Hev Hp.
      assert (Hk1 : (k, batch) ∈ repoEvents st1).
      { subst st1. rewrite updateRepo_repoEvents.
        destruct (eventsResult upstream r (gh s)) as [evs|e]; [|done].
        destruct (_ || _); [|done]. by apply omap_set_keeps. }
      assert (Hthrow : rebuildGlobalFeed (cfg s) st1 = None).
      { apply (rebuild_throws _ _ ev); [|by apply unprintable_type_throws].
        unfold allEvents. apply list_elem_of_In, in_concat. exists batch.
        split; [|by apply list_elem_of_In].
        apply in_map_iff. exists (k, batch). split; [done|by apply list_elem_of_In]. }
      destruct (Hnone Hthrow) as [H1 H2].
      split; [done|]. split; [done|]. by rewrite H1.
  - intros He Hq. unfold tick, tick_begin. rewrite Hq.
    unfold buildQueue. by rewrite He.
Qed.

(* ===================================================================== *)
(** ** Configuration loading *)
(* ===================================================================== *)

Lemma split_on_cons c s : ∃ h t, split_on c s = h :: t.
Proof.
  induction s as [|d s (h & t & IH)]; simpl; [by eexists _, _|].
  destruct (Ascii.eqb d c); [by eexists _, _|]. rewrite IH. by eexists _, _.
Qed.

Lemma join_cons sep h t :
  t ≠ [] → join sep (h :: t) = h ++ sep ++ join sep t.
Proof. by destruct t. Qed.

(** [s.split(c).join(c)] gives [s] back. *)
Lemma join_split c s : join (String c EmptyString) (split_on c s) = s.
Proof.
  induction s as [|d s IH]; [done|]. simpl split_on.
  destruct (split_on_cons c s) as (h & t & E).
  destruct (Ascii.eqb d c) eqn:Ed.
  - apply Ascii.eqb_eq in Ed as ->.
    rewrite join_cons by (by rewrite E). simpl. by rewrite IH.
  - rewrite E in *. rewrite <- IH. by destruct t.
Qed.

Lemma split_on_parts c s : Forall (λ p, has_char c p = false) (split_on c s).
Proof.
  induction s as [|d s IH]; simpl; [by repeat constructor|].
  destruct (Ascii.eqb d c) eqn:Ed; [by constructor|].
  destruct (split_on_cons c s) as (h & t & E). rewrite E in *.
  apply Forall_cons in IH as [Hh Ht]. constructor; [|done]. simpl. by rewrite Ed.
Qed.

Lemma split_on_app c i n :
  has_char c i = false → split_on c (i ++ String c n) = i :: split_on c n.
Proof.
  induction i as [|d i IH]; simpl; intros H.
  - by rewrite Ascii.eqb_refl.
  - apply orb_false_iff in H as [Hd Hi]. by rewrite Hd, (IH Hi).
Qed.

Lemma split_on_whole c s : has_char c s = false → split_on c s = [s].
Proof.
  induction s as [|d s IH]; simpl; intros H; [done|].
  apply orb_false_iff in H as [Hd Hs]. by rewrite Hd, (IH Hs).
Qed.

Lemma parseRepo_id_no_colon (s : string) : has_char colon (id (parseRepo s)) = false.
Proof.
  unfold parseRepo. simpl.
  pose proof (split_on_parts colon (trim s)) as H.
  destruct (split_on_cons colon (trim s)) as (h & t & E). rewrite E in *.
  by apply Forall_cons in H as [H _].
Qed.

(** X23. An entry of [REPOS]: the id is what precedes the first colon of
    the trimmed entry and never holds a colon; the name is all that
    follows that colon, further colons included; and where there is no
    colon, or nothing after it, the name is the id. *)
Theorem parse_repo_entry (s : string) :
  has_char colon (id (parseRepo s)) = false ∧
  (has_char colon (trim s) = false →
   id (parseRepo s) = trim s ∧ name (parseRepo s) = trim s) ∧
  (∀ i n, trim s = i ++ String colon n → has_char colon i = false →
     id (parseRepo s) = i ∧ name (parseRepo s) = (if nonempty n then n else i)).
Proof.
  split; [apply parseRepo_id_no_colon|]. unfold parseRepo. split.
  - intros H. by rewrite (split_on_whole _ _ H).
  - intros i n E Hi. rewrite E, (split_on_app _ _ _ Hi). simpl hd. simpl tl.
    split; [done|]. simpl name.
    change ":" with (String colon EmptyString). by rewrite join_split.
Qed.

(** X24. [parseRepos] gives nothing for an absent or empty value, and
    otherwise one entry for each comma-separated part (the parts, joined
    by commas, are the value), at least one, and no id holds a colon. *)
Theorem parse_repos_entries :
  parseRepos None = None ∧ parseRepos (Some "") = None ∧
  ∀ s, s ≠ "" →
    ∃ l, parseRepos (Some s) = Some l ∧ l ≠ [] ∧
         length l = length (split_on comma s) ∧
         join "," (split_on comma s) = s ∧
         Forall (λ r, has_char colon (id r) = false) l.
Proof.
  split; [done|]. split; [done|].
  intros s Hs. unfold parseRepos. apply nonempty_true in Hs. rewrite Hs.
  eexists. split; [reflexivity|].
  destruct (split_on_cons comma s) as (h & t & E).
  split; [by rewrite E|]. split; [by rewrite length_map|].
  split; [change "," with (String comma EmptyString); apply join_split|].
  apply Forall_forall. intros r Hr.
  apply list_elem_of_In, in_map_iff in Hr as (p & <- & _).
  apply parseRepo_id_no_colon.
Qed.

Lemma filter_ids_nonempty (l : list ConfigRepo) :
  Forall (λ r, id r ≠ "") (List.filter (λ r, nonempty (id r)) l).
Proof.
  apply Forall_forall. intros r Hr.
  apply list_elem_of_In, filter_In in Hr as [_ Hr]. by apply nonempty_true.
Qed.

(** X25. The configuration that [loadConfig] returns always has a
    repository, and none with an empty id. A non-empty [REPOS] variable
    decides the list alone: the file's repositories are not looked at,
    even when no entry of the variable is usable and the demo
    repositories are taken. Without the variable the file's usable
    entries are taken, and the demo repositories when there is none. *)
Theorem load_config_repos (env : gmap string string) (file : FileCfg) :
  let c := loadConfig env file in
  repos c ≠ [] ∧
  Forall (λ r, id r ≠ "") (repos c) ∧
  (∀ s, env !! "REPOS" = Some s → s ≠ "" →
     repos c = repos (loadConfig env noFile)) ∧
  (parseRepos (env !! "REPOS") = None →
   repos c = match List.filter (λ r, nonempty (id r)) (default [] (f_repos file)) with
             | [] => demoRepos
             | l => l
             end).
Proof.
  intros c. subst c. unfold loadConfig. simpl.
  set (l := List.filter _ _).
  assert (Hl : Forall (λ r, id r ≠ "") l) by apply filter_ids_nonempty.
  assert (H12 : ∀ l0 : list ConfigRepo, Forall (λ r, id r ≠ "") l0 →
            match l0 with [] => demoRepos | _ => l0 end ≠ [] ∧
            Forall (λ r, id r ≠ "") match l0 with [] => demoRepos | _ => l0 end).
  { intros [|r0 l0] H0; [|done]. split; [done|]. by repeat constructor. }
  destruct (H12 l Hl) as [H1 H2].
  split; [exact H1|]. split; [exact H2|]. split.
  - intros s Hs Hne. subst l. rewrite Hs. unfold parseRepos.
    apply nonempty_true in Hne. by rewrite Hne.
  - intros Hn. subst l. rewrite Hn. simpl.
    generalize (List.filter (λ r, nonempty (id r)) (default [] (f_repos file))).
    by intros [|r0 l0].
Qed.

(* ===================================================================== *)
(** ** The code audit *)
(* ===================================================================== *)

Lemma omap_set_length {A : Type} k (v : A) m :
  length (omap_set k v m) =
    (match assoc k m with Some _ => length m | None => S (length m) end).
Proof.
  induction m as [|[k' v'] m IH]; simpl; [done|].
  destruct (String.eqb k k'); simpl; [done|]. rewrite IH. by destruct (assoc k m).
Qed.

Lemma omap_set_new {A : Type} k (v : A) m :
  assoc k m = None → omap_set k v m = (m ++ [(k, v)])%list.
Proof.
  induction m as [|[k' v'] m IH]; simpl; [done|].
  destruct (String.eqb k k'); [done|]. intros H. by rewrite IH.
Qed.

(** X26. Storing an audit report under a cap of at least 1, in a map
    within the cap whose keys are not empty: the map stays within the cap,
    the report just stored is kept and found under its repository, and
    when the report is for a new repository and the map is full, it is the
    entry inserted first that goes. Under a cap below 1 the report stored
    into an empty map is removed at once. *)
Theorem record_report_cap (maxReports : Z) (rep : QualityReport)
    (m : list (string * QualityReport)) :
  (1 ≤ maxReports → Z.of_nat (length m) ≤ maxReports →
   Forall (λ kv, kv.1 ≠ "") m →
   Z.of_nat (length (recordReport maxReports rep m)) ≤ maxReports ∧
   assoc (qr_repo rep) (recordReport maxReports rep m) = Some rep ∧
   (assoc (qr_repo rep) m = None → Z.of_nat (length m) = maxReports →
    recordReport maxReports rep m = (tl m ++ [(qr_repo rep, rep)])%list)) ∧
  (maxReports < 1 → qr_repo rep ≠ "" → recordReport maxReports rep [] = []).
Proof.
  split.
  - intros Hmax Hlen Hkeys. unfold recordReport.
    pose proof (omap_set_length (qr_repo rep) rep m) as Hl.
    pose proof (assoc_omap_set_eq (qr_repo rep) rep m) as Ha.
    destruct (assoc (qr_repo rep) m) as [old|] eqn:E.
    + assert (Hno : (maxReports <? Z.of_nat (length (omap_set (qr_repo rep) rep m))) = false)
        by (apply Z.ltb_ge; lia).
      rewrite Hno. split; [lia|]. split; [done|]. done.
    + rewrite (omap_set_new _ _ _ E) in *.
      destruct (maxReports <? Z.of_nat (length (m ++ [(qr_repo rep, rep)]))) eqn:Hover.
      * apply Z.ltb_lt in Hover. rewrite length_app in Hover, Hl. simpl in Hover.
        destruct m as [|[k0 v0] m]; [simpl in *; lia|].
        apply Forall_cons in Hkeys as [Hk0 _]. simpl in Hk0.
        apply nonempty_true in Hk0. simpl. rewrite Hk0, String.eqb_refl.
        simpl in E. destruct (String.eqb (qr_repo rep) k0) eqn:Ek; [done|].
        rewrite length_app. simpl in *. split; [lia|]. split; [|done].
        clear -E. induction m as [|[k' v'] m IH]; simpl in *;
          [by rewrite String.eqb_refl|].
        destruct (String.eqb (qr_repo rep) k'); [done|]. by apply IH.
      * apply Z.ltb_ge in Hover. split; [lia|]. split; [done|].
        intros _ Hfull. rewrite length_app in Hover. simpl in Hover. lia.
  - intros Hmax Hk. unfold recordReport. cbn [omap_set length].
    assert (Hlt : (maxReports <? Z.of_nat 1) = true) by (apply Z.ltb_lt; lia).
    rewrite Hlt. apply nonempty_true in Hk. rewrite Hk. simpl.
    by rewrite String.eqb_refl.
Qed.

(** X27. Audit cycles never overlap: from the idle scheduler, however the
    timer and the finishing cycles interleave, at most one cycle is past
    the guard, and the flag is set exactly while one is. *)
Theorem audit_cycles_exclusive (a : Audit) :
  audit_steps auditIdle a →
  (active a ≤ 1)%nat ∧ (running a = true ↔ active a = 1%nat).
Proof.
  intros H.
  assert (Hinv : (running a = true ∧ active a = 1%nat) ∨
                 (running a = false ∧ active a = 0%nat)).
  { remember auditIdle as a0 eqn:E0.
    induction H as [a0|a1 a2 a3 _ IH Hstep]; [subst; by right|].
    specialize (IH E0).
    destruct Hstep as [a Hr|a Hr|a n Hn]; simpl.
    - left. destruct IH as [[Hr' _]|[_ Ha]]; [congruence|]. by rewrite Ha.
    - exact IH.
    - right. destruct IH as [[_ Ha]|[_ Ha]]; [|congruence].
      rewrite Ha in Hn. by injection Hn as <-. }
  destruct Hinv as [[-> ->]|[-> ->]]; split; try lia; split; done.
Qed.

End Host.

(* ===================================================================== *)
(** ** The properties on the sample data *)
(* ===================================================================== *)

Lemma stale_preference_witness :
  eventsResult sampleNumber sampleInt upstreamUnchanged sampleRepo (newGitHubClient None)
    = Fulfilled [] ∧
  omap_has (id sampleRepo) (repoEvents sampleStore) = true ∧
  repoEvents (updateRepo sampleNumber sampleInt upstreamUnchanged sampleRepo sampleStore
                (newGitHubClient None)).1 = repoEvents sampleStore.
Proof.
  pose proof (stale_preference sampleNumber sampleInt upstreamUnchanged sampleRepo
                sampleStore (newGitHubClient None)) as H.
  cbv zeta in H. destruct H as (_ & H & _).
  split; [vm_compute; reflexivity|]. split; [reflexivity|].
  apply H; vm_compute; reflexivity.
Defined.

(** With the limit [-1], [slice(0, -1)] drops the last of five candidates
    and keeps four: the rebuild completes and the feed is longer than the
    limit. *)
Lemma negative_limit_exceeded :
  ∃ st', rebuildGlobalFeed sampleNumber sampleInherited sampleDate (sampleCfg (-1))
           sampleStore = Some st' ∧
         ¬ (Z.of_nat (length (feedItems st')) ≤ feedLimit (sampleCfg (-1))).
Proof. eexists. split; [vm_compute; reflexivity|]. vm_compute. intros H. by apply H. Qed.

Lemma rebuildGlobalFeed_bound_witness :
  0 ≤ feedLimit (sampleCfg 2) ∧
  ∃ st', rebuildGlobalFeed sampleNumber sampleInherited sampleDate (sampleCfg 2)
           sampleStore = Some st' ∧
         Z.of_nat (length (feedItems st')) = 2 ∧
         StronglySorted (recent_ge (feedTime sampleNumber sampleDate)) (feedItems st').
Proof.
  assert (H0 : 0 ≤ feedLimit (sampleCfg 2)) by (simpl; lia).
  assert (Hc : ∃ items,
             candidates sampleNumber sampleInherited (sampleCfg 2) sampleStore = Some items ∧
             Forall (λ it, is_Some (feedTime sampleNumber sampleDate it)) items ∧
             feedLimit (sampleCfg 2) < Z.of_nat (length items)).
  { eexists. split; [vm_compute; reflexivity|]. split; [|vm_compute; reflexivity].
    repeat (constructor; [vm_compute; by eexists|]). constructor. }
  destruct Hc as (items & Hc & Hv & Hlt).
  destruct (rebuildGlobalFeed_bound sampleNumber sampleInherited sampleDate (sampleCfg 2)
              sampleStore H0) as (_ & H & _).
  destruct (H items Hc Hv) as (st' & Hr & Hs & Hlen & _).
  split; [exact H0|]. exists st'. split; [exact Hr|]. split; [exact (Hlen Hlt)|exact Hs].
Defined.

(** The events page holds one push, with a commit and [null]. The commit
    is not cached, and no stat is fetched. *)
Lemma null_commit_no_fetch :
  eventsResult sampleNumber sampleInt upstreamNullCommit sampleRepo (newGitHubClient None)
    = Fulfilled [cachedEvent (pushJson "2024-05-03T10:00:00Z"
                                (JArr [commitJson "a1" "first"; JNull]))] ∧
  commitStats sampleStore !! "octo/demo@a1" = None ∧
  commitFetches sampleNumber sampleInt upstreamNullCommit sampleRepo sampleStore
    (newGitHubClient None) = [].
Proof. split; [vm_compute; reflexivity|]. split; [reflexivity|vm_compute; reflexivity]. Qed.

Lemma bounded_fanout_witness :
  eventsResult sampleNumber sampleInt upstreamFresh sampleRepo (newGitHubClient None)
    = Fulfilled [cachedEvent push12Json] ∧
  forallb (wellFormedPush sampleNumber) [cachedEvent push12Json] = true ∧
  List.map req_url (commitFetches sampleNumber sampleInt upstreamFresh sampleRepo sampleStore
                      (newGitHubClient None)) =
    [ "https://api.github.com/repos/octo/demo/commits/s01";
      "https://api.github.com/repos/octo/demo/commits/s02";
      "https://api.github.com/repos/octo/demo/commits/s03";
      "https://api.github.com/repos/octo/demo/commits/s04";
      "https://api.github.com/repos/octo/demo/commits/s05" ].
Proof.
  assert (H1 : eventsResult sampleNumber sampleInt upstreamFresh sampleRepo
                 (newGitHubClient None) = Fulfilled [cachedEvent push12Json])
    by (vm_compute; reflexivity).
  assert (H2 : forallb (wellFormedPush sampleNumber) [cachedEvent push12Json] = true)
    by (vm_compute; reflexivity).
  split; [exact H1|]. split; [exact H2|].
  destruct (bounded_fanout sampleNumber sampleInt upstreamFresh sampleRepo sampleStore
              (newGitHubClient None)) as (_ & H & _).
  destruct (H _ H1 H2) as (strs & Hs & ->).
  vm_compute in Hs. injection Hs as <-. vm_compute. reflexivity.
Defined.

(** The upstream's answer says the repository was last pushed on 1 January
    and last updated on 1 June; the record that [getRepoInfo] returns has
    1 June as its [pushed_at]. *)
Lemma pushed_at_is_updated_at :
  ∃ i, (await upstreamFresh (getRepoInfo sampleNumber sampleInt "octo/demo")
          (newGitHubClient None)).1 = Fulfilled (Some i) ∧
       upstreamFresh (issue (getRepoInfo sampleNumber sampleInt "octo/demo")
                        (newGitHubClient None))
         = Some (answer 200 (Some "m1") (Some sampleMeta)) ∧
       get sampleMeta "pushed_at" = Some (JStr "2024-01-01T00:00:00Z") ∧
       pushed_at i = JStr "2024-06-01T00:00:00Z" ∧
       get sampleMeta "pushed_at" ≠ Some (pushed_at i).
Proof.
  eexists. split; [vm_compute; reflexivity|].
  split; [reflexivity|]. split; [reflexivity|]. split; [reflexivity|].
  simpl. intros [=].
Qed.

Lemma repoInfo_timestamp_witness :
  (∃ i, (await upstreamFresh (getRepoInfo sampleNumber sampleInt "octo/demo")
           (newGitHubClient None)).1 = Fulfilled (Some i) ∧
        get sampleMeta "updated_at" = Some (pushed_at i)) ∧
  Forall (λ r, is_Some (pushedTime sampleNumber sampleDate (repoInfos knownStore) r))
    (repos (sampleCfg 2)) ∧
  ∃ s', buildQueue sampleNumber sampleDate
          {| cfg := sampleCfg 2; store := knownStore; gh := newGitHubClient None;
             queue := []; timer := false |} = Some s' ∧
        queue s' = [otherRepo; sampleRepo] ∧
        StronglySorted (recent_ge (pushedTime sampleNumber sampleDate (repoInfos knownStore)))
          (queue s').
Proof.
  destruct (repoInfo_timestamp sampleNumber sampleDate sampleInt) as (Ha & _ & Hq).
  split.
  - eexists. split; [vm_compute; reflexivity|]. reflexivity.
  - assert (Hv : Forall (λ r, is_Some (pushedTime sampleNumber sampleDate
                                         (repoInfos knownStore) r))
                   (repos (sampleCfg 2))).
    { repeat (constructor; [vm_compute; by eexists|]). constructor. }
    split; [exact Hv|].
    destruct (Hq {| cfg := sampleCfg 2; store := knownStore; gh := newGitHubClient None;
                    queue := []; timer := false |} Hv) as (s' & Hs' & _ & Hsorted).
    exists s'. split; [exact Hs'|]. split; [|exact Hsorted].
    vm_compute in Hs'. by injection Hs' as <-.
Defined.

(** A push of two commits, the second without a message: no item. *)
Lemma missing_message_no_items :
  ev_get pushNoMessage "type" = JStr "PushEvent" ∧
  get_opt (ev_get pushNoMessage "payload") "commits" =
    JArr [commitJson "a1" "first"; JObj [("sha", JStr "b2")]] ∧
  eventToFeedItems sampleNumber sampleInherited pushNoMessage = Some [].
Proof. split; [reflexivity|]. split; [reflexivity|vm_compute; reflexivity]. Qed.

Lemma push_expansion_witness :
  ev_get push3 "type" = JStr "PushEvent" ∧
  ∃ items, eventToFeedItems sampleNumber sampleInherited push3 = Some items ∧
           length items = 3%nat ∧
           items !! 0%nat = Some commitItem1.
Proof.
  assert (Hm : Forall (λ c, (∃ m, get c "message" = Some (JStr m)) ∧
                            printable sampleNumber (get_opt c "sha") = true ∧
                            printable sampleNumber
                              (nullish (nullish (get_opt (get_opt c "author") "name")
                                          (nullish (get_opt (ev_get push3 "actor") "display_login")
                                             (get_opt (ev_get push3 "actor") "login")))
                                 (JStr "")) = true)
                 [commitJson "a1" "first";
                  commitJson "b2" ("second" ++ String newline "more");
                  commitJson "c3" "third"]).
  { repeat constructor; by eexists. }
  destruct (push_expansion sampleNumber sampleInherited push3 _ "refs/heads/main"
              eq_refl eq_refl eq_refl) as (_ & _ & H & _).
  destruct (H Hm) as (items & Hi & Hlen & _).
  split; [reflexivity|]. exists items. split; [exact Hi|]. split; [exact Hlen|].
  vm_compute in Hi. by injection Hi as <-.
Defined.

Lemma upstreamConditional_honours url : honoursValidator upstreamConditional url "v1".
Proof.
  split; [done|]. intros req _. unfold upstreamConditional.
  destruct (decide (req_headers req !! "if-none-match" = Some "v1")).
  - eexists. split; [done|]. done.
  - eexists. split; [done|].
    split; [done|]. split; [done|]. by eexists.
Qed.

Lemma conditional_fetch_witness :
  honoursValidator upstreamConditional "https://api.github.com/repos/octo/demo" "v1" ∧
  (await upstreamConditional
     (fetchJsonWithEtag sampleNumber sampleInt "https://api.github.com/repos/octo/demo"
        (Some (SlotInfo, "octo/demo"))) (newGitHubClient None)).1
    = Fulfilled (Ok200 sampleMeta) ∧
  (await upstreamConditional
     (fetchJsonWithEtag sampleNumber sampleInt "https://api.github.com/repos/octo/demo"
        (Some (SlotInfo, "octo/demo")))
     (await upstreamConditional
        (fetchJsonWithEtag sampleNumber sampleInt "https://api.github.com/repos/octo/demo"
           (Some (SlotInfo, "octo/demo"))) (newGitHubClient None)).2).1
    = Fulfilled NotModified304.
Proof.
  pose proof (upstreamConditional_honours "https://api.github.com/repos/octo/demo") as Hh.
  split; [exact Hh|].
  pose proof (conditional_fetch sampleNumber sampleInt upstreamConditional
                "https://api.github.com/repos/octo/demo" (Some (SlotInfo, "octo/demo"))
                (newGitHubClient None)) as H.
  cbv zeta in H. destruct H as (_ & _ & H).
  destruct (H SlotInfo "octo/demo" "v1" eq_refl Hh) as (H1 & _).
  split; [vm_compute; reflexivity|exact H1].
Defined.


Lemma malformed_event_handling_witness :
  printable sampleNumber (typeOf poison) = false ∧
  poison ∈ allEvents poisonedStore ∧
  eventToFeedItems sampleNumber sampleInherited poison = None ∧
  rebuildGlobalFeed sampleNumber sampleInherited sampleDate (sampleCfg 9) poisonedStore = None ∧
  feedItemsOrThrow sampleNumber sampleInherited pushBad = None ∧
  eventToFeedItems sampleNumber sampleInherited pushBad = Some [].
Proof.
  destruct (malformed_event_handling sampleNumber sampleInherited sampleDate) as [HA HB].
  assert (Hp : printable sampleNumber (typeOf poison) = false) by reflexivity.
  assert (Hin : poison ∈ allEvents poisonedStore).
  { apply list_elem_of_In. simpl. tauto. }
  destruct (HB poison Hp) as (_ & H2 & H3).
  assert (Ht : feedItemsOrThrow sampleNumber sampleInherited pushBad = None)
    by (vm_compute; reflexivity).
  destruct (HA (sampleCfg 9) sampleStore pushBad [] "octo/demo" [push3] [watch1; issue1] []
              Ht eq_refl eq_refl) as [H1 _].
  split; [exact Hp|]. split; [exact Hin|]. split; [exact H2|].
  split; [exact (H3 (sampleCfg 9) poisonedStore Hin)|]. split; [exact Ht|exact H1].
Defined.

Lemma ticks_overlap_witness :
  repos (sampleCfg 2) ≠ [] ∧
  timer (sched (started sampleNumber sampleDate (sampleCfg 2) sampleStore
                  (newGitHubClient None))) = true ∧
  ∃ l, loop_steps sampleNumber sampleInherited sampleDate sampleInt upstreamUnchanged
         (started sampleNumber sampleDate (sampleCfg 2) sampleStore (newGitHubClient None)) l ∧
       length (inflight l) = 2%nat.
Proof.
  assert (Hne : repos (sampleCfg 2) ≠ []) by done.
  destruct (ticks_overlap sampleNumber sampleInherited sampleDate sampleInt upstreamUnchanged
              (sampleCfg 2) sampleStore (newGitHubClient None)) as [H Harm].
  assert (Ht : timer (sched (started sampleNumber sampleDate (sampleCfg 2) sampleStore
                               (newGitHubClient None))) = true).
  { apply Harm. intros k i Hk. simpl in Hk. by rewrite lookup_empty in Hk. }
  split; [exact Hne|]. split; [exact Ht|exact (H Hne Ht)].
Defined.

Lemma rebuildGlobalFeed_frame_witness :
  (∃ st1, rebuildGlobalFeed sampleNumber sampleInherited sampleDate (sampleCfg 2) sampleStore
            = Some st1 ∧
          repoEvents st1 = repoEvents sampleStore ∧
          commitStats st1 = commitStats sampleStore) ∧
  rebuildGlobalFeed sampleNumber sampleInherited sampleDate (sampleCfg 2) poisonedStore = None ∧
  default poisonedStore
    (rebuildGlobalFeed sampleNumber sampleInherited sampleDate (sampleCfg 2) poisonedStore)
    = poisonedStore.
Proof.
  assert (Hr : ∃ st1, rebuildGlobalFeed sampleNumber sampleInherited sampleDate (sampleCfg 2)
                        sampleStore = Some st1) by (eexists; vm_compute; reflexivity).
  destruct Hr as [st1 Hr].
  pose proof (rebuildGlobalFeed_frame sampleNumber sampleInherited sampleDate (sampleCfg 2)
                sampleStore) as H.
  cbv zeta in H. rewrite Hr in H. simpl in H. destruct H as (_ & He & Hc & _).
  assert (Hn : rebuildGlobalFeed sampleNumber sampleInherited sampleDate (sampleCfg 2)
                 poisonedStore = None) by (vm_compute; reflexivity).
  pose proof (rebuildGlobalFeed_frame sampleNumber sampleInherited sampleDate (sampleCfg 2)
                poisonedStore) as H'.
  cbv zeta in H'. destruct H' as (_ & _ & _ & _ & _ & Hkeep & _).
  split; [exists st1; split; [exact Hr|]; split; [exact He|exact Hc]|].
  split; [exact Hn|exact (Hkeep Hn)].
Defined.

(* ===================================================================== *)
(** ** The further properties on the sample data *)
(* ===================================================================== *)

Lemma single_item_events_witness :
  pushWithCommits watch1 = false ∧ plain (raw watch1) = true ∧
  ∃ it, eventToFeedItems sampleNumber sampleInherited watch1 = Some [it] ∧
        type it = JStr "WatchEvent" ∧ sha it = JUndef.
Proof.
  destruct (single_item_events sampleNumber sampleInherited watch1 eq_refl) as [Ha Hb].
  destruct (Hb eq_refl) as [it Hit].
  destruct (Ha _ Hit) as [[=]|(it' & [= <-] & Ht & _ & _ & Hs & _)].
  split; [reflexivity|]. split; [reflexivity|].
  exists it. split; [exact Hit|]. split; [exact Ht|exact Hs].
Defined.

Lemma items_inherit_event_witness :
  ∃ its, eventToFeedItems sampleNumber sampleInherited push3 = Some its ∧
         commitItem1 ∈ its ∧
         repo commitItem1 = __repo push3 ∧ when commitItem1 = ev_get push3 "created_at".
Proof.
  assert (H : ∃ its, eventToFeedItems sampleNumber sampleInherited push3 = Some its ∧
                     commitItem1 ∈ its).
  { eexists. split; [vm_compute; reflexivity|]. by left. }
  destruct H as (its & Hits & Hin).
  destruct (items_inherit_event sampleNumber sampleInherited push3 its commitItem1 Hits Hin)
    as (Hr & Hw & _).
  exists its. split; [exact Hits|]. split; [exact Hin|]. split; [exact Hr|exact Hw].
Defined.

Lemma pull_request_annotation_witness :
  ev_get pr1 "type" = JStr "PullRequestEvent" ∧
  ∃ it, eventToFeedItems sampleNumber sampleInherited pr1 = Some [it] ∧
        title it = JStr "PR closed #7: Fix the feed" ∧
        extra it = "已合并" ∧
        url it = JStr "https://github.com/octo/demo/pull/7".
Proof.
  split; [reflexivity|].
  pose proof (pull_request_annotation sampleNumber sampleInherited pr1 eq_refl) as H.
  cbv zeta in H. destruct H as [H _].
  destruct (H "closed" "7" "Fix the feed" eq_refl eq_refl eq_refl)
    as (it & Hi & _ & Ht & _ & He & Hu).
  exists it. split; [exact Hi|]. split; [exact Ht|].
  split; [exact (proj2 He (conj eq_refl eq_refl))|exact Hu].
Defined.

Lemma generic_item_witness :
  toStr sampleNumber (typeOf member1) = Some "MemberEvent" ∧
  (∃ it, eventToFeedItems sampleNumber sampleInherited member1 = Some [it] ∧
         title it = JStr "MemberEvent" ∧
         url it = JStr "https://github.com/octo/demo" ∧ icon it = IconText "👥") ∧
  toStr sampleNumber (typeOf inherited1) = Some "constructor" ∧
  (∃ it, eventToFeedItems sampleNumber sampleInherited inherited1 = Some [it] ∧
         icon it = IconInherited "constructor").
Proof.
  split; [reflexivity|].
  destruct (generic_item sampleNumber sampleInherited member1 "MemberEvent"
              eq_refl eq_refl eq_refl) as (it & Hi & _ & Ht & Hu & _ & _ & _ & Hic & _).
  split; [exists it; split; [exact Hi|]; split; [exact Ht|]; split;
          [exact Hu|exact (Hic eq_refl)]|].
  split; [reflexivity|].
  destruct (generic_item sampleNumber sampleInherited inherited1 "constructor"
              eq_refl eq_refl eq_refl) as (it' & Hi' & _ & _ & _ & _ & _ & Hno & _).
  exists it'. split; [exact Hi'|].
  apply Hno. repeat (constructor; [done|]). constructor.
Defined.

Lemma feed_items_origin_witness :
  ∃ st' x k batch ev,
    rebuildGlobalFeed sampleNumber sampleInherited sampleDate (sampleCfg 2) sampleStore
      = Some st' ∧
    x ∈ feedItems st' ∧
    (k, batch) ∈ repoEvents sampleStore ∧ ev ∈ batch ∧ repo x = __repo ev.
Proof.
  assert (H : ∃ st' x, rebuildGlobalFeed sampleNumber sampleInherited sampleDate (sampleCfg 2)
                         sampleStore = Some st' ∧ feedItems st' !! 0%nat = Some x).
  { eexists _, _. split; [vm_compute; reflexivity|]. reflexivity. }
  destruct H as (st' & x & Hr & Hx).
  assert (Hin : x ∈ feedItems st') by (by eapply list_elem_of_lookup_2).
  destruct (feed_items_origin sampleNumber sampleInherited sampleDate (sampleCfg 2)
              sampleStore st' x Hr Hin)
    as (k & batch & ev & its & it & Hkb & Hev & _ & _ & _ & Hrepo & _).
  exists st', x, k, batch, ev.
  split; [exact Hr|]. split; [exact Hin|]. split; [exact Hkb|]. split; [exact Hev|exact Hrepo].
Defined.

Lemma feed_ties_keep_order_witness :
  ∃ st' items,
    candidates sampleNumber sampleInherited (sampleCfg 9) sampleStore = Some items ∧
    Forall (λ it, is_Some (feedTime sampleNumber sampleDate it)) items ∧
    rebuildGlobalFeed sampleNumber sampleInherited sampleDate (sampleCfg 9) sampleStore
      = Some st' ∧
    List.filter (at_time sampleNumber sampleDate 1714644000000) (feedItems st')
      `prefix_of` List.filter (at_time sampleNumber sampleDate 1714644000000) items ∧
    length (List.filter (at_time sampleNumber sampleDate 1714644000000) (feedItems st'))
      = 3%nat.
Proof.
  assert (H : ∃ st' items,
            candidates sampleNumber sampleInherited (sampleCfg 9) sampleStore = Some items ∧
            Forall (λ it, is_Some (feedTime sampleNumber sampleDate it)) items ∧
            rebuildGlobalFeed sampleNumber sampleInherited sampleDate (sampleCfg 9) sampleStore
              = Some st' ∧
            length (List.filter (at_time sampleNumber sampleDate 1714644000000)
                      (feedItems st')) = 3%nat).
  { eexists _, _. split; [vm_compute; reflexivity|].
    split; [repeat (constructor; [vm_compute; by eexists|]); constructor|].
    split; [vm_compute; reflexivity|]. vm_compute. reflexivity. }
  destruct H as (st' & items & Hc & Hv & Hr & Hlen).
  exists st', items. split; [exact Hc|]. split; [exact Hv|]. split; [exact Hr|].
  split; [|exact Hlen].
  exact (feed_ties_keep_order sampleNumber sampleInherited sampleDate (sampleCfg 9)
           sampleStore st' items 1714644000000 Hc Hv Hr).
Defined.

Lemma feed_length_witness :
  ∃ st' items,
    rebuildGlobalFeed sampleNumber sampleInherited sampleDate (sampleCfg (-1)) sampleStore
      = Some st' ∧
    candidates sampleNumber sampleInherited (sampleCfg (-1)) sampleStore = Some items ∧
    length items = 5%nat ∧
    Z.of_nat (length (feedItems st')) = 4.
Proof.
  assert (Hr : ∃ st', rebuildGlobalFeed sampleNumber sampleInherited sampleDate
                        (sampleCfg (-1)) sampleStore = Some st')
    by (eexists; vm_compute; reflexivity).
  destruct Hr as [st' Hr].
  destruct (feed_length sampleNumber sampleInherited sampleDate (sampleCfg (-1)) sampleStore
              st' Hr) as (items & Hc & Hlen).
  assert (H5 : length items = 5%nat).
  { vm_compute in Hc. by injection Hc as <-. }
  exists st', items. split; [exact Hr|]. split; [exact Hc|]. split; [exact H5|].
  cbv zeta in Hlen. rewrite Hlen, H5. reflexivity.
Defined.

Lemma api_feed_fresh_witness :
  ∃ st1 st2,
    rebuildGlobalFeed sampleNumber sampleInherited sampleDate (sampleCfg 9) sampleStore
      = Some st1 ∧
    commitStats sampleStore ⊆ commitStats enrichedStore ∧
    rebuildGlobalFeed sampleNumber sampleInherited sampleDate (sampleCfg 9)
      (set_commitStats sampleStore (commitStats enrichedStore)) = Some st2 ∧
    apiFeedItems sampleNumber (set_commitStats st1 (commitStats enrichedStore))
      = Some (feedItems st2).
Proof.
  assert (Hr : ∃ st1, rebuildGlobalFeed sampleNumber sampleInherited sampleDate (sampleCfg 9)
                        sampleStore = Some st1) by (eexists; vm_compute; reflexivity).
  destruct Hr as [st1 Hr].
  assert (Hsub : commitStats sampleStore ⊆ commitStats enrichedStore)
    by apply map_empty_subseteq.
  destruct (api_feed_fresh sampleNumber sampleInherited sampleDate (sampleCfg 9) sampleStore
              st1 (commitStats enrichedStore) Hr Hsub) as (st2 & H2 & Ha).
  exists st1, st2. split; [exact Hr|]. split; [exact Hsub|]. split; [exact H2|exact Ha].
Defined.

Lemma events_tagged_witness :
  (await upstreamFresh (getRepoEvents sampleNumber sampleInt "octo/demo")
     (newGitHubClient None)).1 = Fulfilled [cachedEvent push12Json].
Proof.
  pose proof (events_tagged sampleNumber sampleInt upstreamFresh "octo/demo"
                (newGitHubClient None)) as H.
  cbv zeta in H. destruct H as (_ & H & _).
  exact (H (answer 200 (Some "e1") (Some (JArr [push12Json]))) [push12Json]
           eq_refl eq_refl eq_refl).
Defined.

Lemma commit_stats_total_witness :
  ∃ call v,
    getCommitStats sampleNumber sampleInt "octo/demo" (JStr "s01") = Some call ∧
    (await upstreamFresh call (newGitHubClient None)).1 = Fulfilled (Some v) ∧
    cs_sha v = JStr "s01" ∧ filesChanged v = JNum 2.
Proof.
  assert (Hc : ∃ call, getCommitStats sampleNumber sampleInt "octo/demo" (JStr "s01")
                         = Some call) by (by eexists).
  destruct Hc as [call Hc].
  assert (Hu : upstreamFresh (issue call (newGitHubClient None)) =
               Some (answer 200 None
                       (Some (JObj [("stats", JObj [("additions", JNum 4);
                                                    ("deletions", JNum 1)]);
                                    ("files", JArr [JObj []; JObj []])])))).
  { injection Hc as <-. reflexivity. }
  destruct (commit_stats_total sampleNumber sampleInt upstreamFresh "octo/demo" (JStr "s01")
              (newGitHubClient None)
              (answer 200 None
                 (Some (JObj [("stats", JObj [("additions", JNum 4); ("deletions", JNum 1)]);
                              ("files", JArr [JObj []; JObj []])])))
              (JObj [("stats", JObj [("additions", JNum 4); ("deletions", JNum 1)]);
                     ("files", JArr [JObj []; JObj []])])) as [_ H].
  destruct (H call Hc Hu eq_refl eq_refl) as (v & Hv & Hs & Hf & _).
  exists call, v. split; [exact Hc|]. split; [exact Hv|]. split; [exact Hs|].
  exact (Hf [JObj []; JObj []] eq_refl).
Defined.

Lemma repo_info_body_witness :
  ∃ i, (await upstreamFresh (getRepoInfo sampleNumber sampleInt "octo/demo")
          (newGitHubClient None)).1 = Fulfilled (Some i) ∧
       ri_repo i = "octo/demo" ∧ default_branch i = JStr "main".
Proof.
  pose proof (repo_info_body sampleNumber sampleInt upstreamFresh "octo/demo"
                (newGitHubClient None) (answer 200 (Some "m1") (Some sampleMeta)) eq_refl)
    as H.
  cbv zeta in H. destruct H as (_ & _ & H).
  destruct (H sampleMeta eq_refl eq_refl) as (i & Hi & Hr & _ & _ & _ & Hb); [done|done|].
  exists i. split; [exact Hi|]. split; [exact Hr|exact Hb].
Defined.

Lemma rate_limit_tracks_witness :
  headers ratedAnswer !! "x-ratelimit-limit" = Some "5000" ∧
  headers ratedAnswer !! "x-ratelimit-remaining" = Some "4999" ∧
  headers ratedAnswer !! "x-ratelimit-reset" = None ∧
  rate (await upstreamRated
          (fetchJsonWithEtag sampleNumber sampleInt "https://api.github.com/repos/octo/demo"
             None)
          (newGitHubClient None)).2 =
    {| limit := Some 5000; remaining := Some 4999; reset := Some 0 |}.
Proof.
  pose proof (rate_limit_tracks sampleNumber sampleInt upstreamRated
                "https://api.github.com/repos/octo/demo" None (newGitHubClient None)) as H.
  cbv zeta in H. destruct H as [H _].
  destruct (H ratedAnswer eq_refl) as (Hl & Hr & Hs).
  split; [reflexivity|]. split; [reflexivity|]. split; [reflexivity|].
  destruct (rate _) as [l r s]. simpl in *. by rewrite Hl, Hr, Hs.
Defined.

Lemma etag_round_trip_witness :
  req_headers
    (issue (fetchJsonWithEtag sampleNumber sampleInt "https://api.github.com/repos/octo/demo"
              (Some (SlotInfo, "octo/demo")))
       (await upstreamConditional
          (fetchJsonWithEtag sampleNumber sampleInt "https://api.github.com/repos/octo/demo"
             (Some (SlotInfo, "octo/demo")))
          (newGitHubClient None)).2)
    !! "if-none-match" = Some "v1".
Proof.
  assert (He : "v1" ≠ "") by done.
  pose proof (etag_round_trip sampleNumber sampleInt upstreamConditional
                "https://api.github.com/repos/octo/demo"
                "https://api.github.com/repos/octo/demo" SlotInfo "octo/demo"
                (newGitHubClient None) (answer 200 (Some "v1") (Some sampleMeta))
                sampleMeta "v1" eq_refl eq_refl eq_refl eq_refl He) as H.
  cbv zeta in H. exact (proj1 H).
Defined.

Lemma update_keeps_stats_witness :
  repoInfos (updateRepo sampleNumber sampleInt upstreamFresh sampleRepo knownStore
               (newGitHubClient None)).1 !! "octo/other" =
    Some (sampleInfo "octo/other" "2024-06-01T00:00:00Z").
Proof.
  pose proof (update_keeps_stats sampleNumber sampleInt upstreamFresh sampleRepo knownStore
                (newGitHubClient None)) as H.
  cbv zeta in H. destruct H as (_ & _ & _ & H & _).
  assert (Hne : "octo/other" ≠ id sampleRepo) by done.
  rewrite (H "octo/other" Hne). vm_compute. reflexivity.
Defined.


Lemma cache_tagged_witness :
  store_tagged sampleStore ∧
  store_tagged (updateRepo sampleNumber sampleInt upstreamFresh sampleRepo sampleStore
                  (newGitHubClient None)).1.
Proof.
  assert (H0 : store_tagged sampleStore) by (repeat constructor).
  split; [exact H0|].
  exact (proj1 (proj2 (cache_tagged sampleNumber sampleInherited sampleDate sampleInt))
           upstreamFresh sampleRepo sampleStore (newGitHubClient None) H0).
Defined.

Lemma queue_is_configured_witness :
  ∃ s', buildQueue sampleNumber sampleDate idleScheduler = Some s' ∧
        queue s' = [sampleRepo; otherRepo].
Proof.
  apply (proj2 (queue_is_configured sampleNumber sampleDate idleScheduler)).
  intros r _. reflexivity.
Defined.

Lemma ticks_follow_queue_witness :
  ∃ sq r s', buildQueue sampleNumber sampleDate idleScheduler = Some sq ∧
             tick_begin sampleNumber sampleDate idleScheduler = Some (Some r, s') ∧
             r :: queue s' = queue sq.
Proof.
  assert (Hq : ∃ sq, buildQueue sampleNumber sampleDate idleScheduler = Some sq)
    by (by eexists).
  destruct Hq as [sq Hq].
  pose proof (ticks_follow_queue sampleNumber sampleInherited sampleDate sampleInt
                upstreamUnchanged idleScheduler) as H.
  cbv zeta in H. destruct H as (_ & _ & _ & H).
  assert (Hne : repos (cfg idleScheduler) ≠ []) by done.
  destruct (proj1 (H eq_refl Hne) sq Hq) as (r & s' & Hb & Hrq).
  exists sq, r, s'. split; [exact Hq|]. split; [exact Hb|exact Hrq].
Defined.

Lemma tick_feed_witness :
  ("octo/other", [poison]) ∈ repoEvents (store poisonedScheduler) ∧
  printable sampleNumber (typeOf poison) = false ∧
  (∃ s0, tick_begin sampleNumber sampleDate poisonedScheduler = Some (Some sampleRepo, s0)) ∧
  feedItems (store (tick sampleNumber sampleInherited sampleDate sampleInt upstreamFresh
                      poisonedScheduler)) = feedItems (store poisonedScheduler) ∧
  ("octo/other", [poison]) ∈
    repoEvents (store (tick sampleNumber sampleInherited sampleDate sampleInt upstreamFresh
                         poisonedScheduler)).
Proof.
  assert (Hin : ("octo/other", [poison]) ∈ repoEvents (store poisonedScheduler))
    by (right; left).
  assert (Hp : printable sampleNumber (typeOf poison) = false) by reflexivity.
  assert (Hb : ∃ s0, tick_begin sampleNumber sampleDate poisonedScheduler
                       = Some (Some sampleRepo, s0)) by (by eexists).
  destruct Hb as [s0 Hb].
  destruct (tick_feed sampleNumber sampleInherited sampleDate sampleInt upstreamFresh
              poisonedScheduler) as [H _].
  pose proof (H sampleRepo s0 Hb) as H'. cbv zeta in H'. destruct H' as (_ & _ & H3).
  assert (Hne : "octo/other" ≠ id sampleRepo) by done.
  assert (Hev : poison ∈ [poison]) by (by left).
  destruct (H3 "octo/other" [poison] poison Hin Hne Hev Hp) as (_ & Hf & Hk).
  split; [exact Hin|]. split; [exact Hp|]. split; [exists s0; exact Hb|].
  split; [exact Hf|exact Hk].
Defined.

Lemma parse_repo_entry_witness :
  id (parseRepo sampleTrim "octo/demo:Demo: one") = "octo/demo" ∧
  name (parseRepo sampleTrim "octo/demo:Demo: one") = "Demo: one".
Proof.
  destruct (parse_repo_entry sampleTrim "octo/demo:Demo: one") as (_ & _ & H).
  exact (H "octo/demo" "Demo: one" eq_refl eq_refl).
Defined.

Lemma parse_repos_entries_witness :
  ∃ l, parseRepos sampleTrim (Some "octo/demo:Demo,octo/other") = Some l ∧
       length l = 2%nat.
Proof.
  assert (Hne : "octo/demo:Demo,octo/other" ≠ "") by done.
  destruct (proj2 (proj2 (parse_repos_entries sampleTrim)) _ Hne)
    as (l & Hl & _ & Hlen & _).
  exists l. split; [exact Hl|exact Hlen].
Defined.

Lemma load_config_repos_witness :
  repos (loadConfig sampleTrim sampleInt sampleEnv sampleFile) = demoRepos.
Proof.
  pose proof (load_config_repos sampleTrim sampleInt sampleEnv sampleFile) as H.
  cbv zeta in H. destruct H as (_ & _ & H & _).
  assert (Hne : "," ≠ "") by done.
  rewrite (H "," eq_refl Hne). vm_compute. reflexivity.
Defined.

Lemma record_report_cap_witness :
  recordReport 2 (sampleReport "c/z")
    [("a/x", sampleReport "a/x"); ("b/y", sampleReport "b/y")] =
  [("b/y", sampleReport "b/y"); ("c/z", sampleReport "c/z")].
Proof.
  assert (H1 : 1 ≤ 2) by lia.
  assert (H2 : Z.of_nat (length [("a/x", sampleReport "a/x"); ("b/y", sampleReport "b/y")])
               ≤ 2) by (simpl; lia).
  assert (H3 : Forall (λ kv : string * QualityReport, kv.1 ≠ "")
                 [("a/x", sampleReport "a/x"); ("b/y", sampleReport "b/y")])
    by (repeat constructor; done).
  destruct (proj1 (record_report_cap 2 (sampleReport "c/z") _) H1 H2 H3) as (_ & _ & H).
  exact (H eq_refl eq_refl).
Defined.

Lemma audit_cycles_exclusive_witness :
  audit_steps auditIdle {| running := true; active := 1 |} ∧
  (active {| running := true; active := 1 |} ≤ 1)%nat.
Proof.
  assert (H : audit_steps auditIdle {| running := true; active := 1 |})
    by exact (audit_trans _ _ _ (audit_refl auditIdle) (cycle_enters auditIdle eq_refl)).
  split; [exact H|].
  exact (proj1 (audit_cycles_exclusive _ H)).
Defined.
